(** * Minaret (custom_components/azan): scheduler and playback state machine

    A shallow embedding of [custom_components/azan/__init__.py]: the
    functions [_schedule_next_prayer], [_play_azan], [_stop_playback], the
    timer callbacks [_prayer_callback], [_midnight_refresh] and
    [_reset_playing], the three service handlers and their registration,
    the set-up and the unload of an entry, the background download task and
    [_download_audio] up to its yt-dlp fallback.

    Conventions of the embedding.
    - The per-entry dictionary [hass.data[DOMAIN][entry.entry_id]] is the
      record [Store]; [hass.data[DOMAIN].get(entry.entry_id)] is the field
      [data] of [Hass], [None] once the entry has been unloaded.
    - The host's one-shot timers ([async_track_point_in_time]) are a finite
      map from handles to pending timers.  The function returned by
      [async_track_point_in_time] is represented by the handle, and calling
      it deletes that handle from the map.
    - What the code asks of the outside world ([dt_util.now], [os.path.exists],
      [get_url], whether an awaited service call raises) is read from an
      [Env] record.
    - Every coroutine runs to completion without interleaving: the host loop
      is single threaded and the claims below are about one call at a time;
      a task made with [hass.async_create_task] from a timer callback runs
      right after it.
    - The timer closures capture [store] and [coordinator]; here they read
      them from the state, which is the same thing while the entry is
      loaded, and no timer outlives the unload.
    - A [journal] lists, in program order, the mutation of [played_today] and
      the calls made to the host, so that orderings can be stated. *)

From stdpp Require Import gmap strings list fin_maps sorting.
From Stdlib Require Import ZArith Ascii.

Open Scope string_scope.

(** ** Civil time *)

(** A [datetime] is its wall-clock fields, counted in microseconds from an
    arbitrary midnight, with the UTC offset (microseconds) of the zone
    attached to it, if any.  [dt_util.now()] always carries a zone.

    A zone is stood for by one UTC offset: a [tzinfo] object is known by its
    offset only, and keeps it.  That is what a fixed-offset zone is, and what
    a zone with daylight saving is on a day on which its offset does not
    change.  Python compares two datetimes that carry the same zone object
    by their wall-clock fields; between two times of one offset the
    comparison of [instant]s made here is that comparison.  So for times
    without a zone, which get the zone of [now], the test of line 484 and
    the wall-clock time handed to the host are the code's own on any day.
    On the day of a change of offset the real instant of such a time need
    not be the one [instant] gives: nothing below is said about it. *)

Definition MINUTE : Z := 60000000.
Definition DAY : Z := 86400000000.

Record datetime := { naive : Z; tzinfo : option Z }.

Record aware := { wall : Z; utcoffset : Z }.

(** [prayer_time.replace(tzinfo=now.tzinfo)] when [prayer_time.tzinfo is None]. *)
Definition localize (now : aware) (prayer_time : datetime) : aware :=
  match tzinfo prayer_time with
  | None => {| wall := naive prayer_time; utcoffset := utcoffset now |}
  | Some z => {| wall := naive prayer_time; utcoffset := z |}
  end.

(** [d - timedelta(minutes=m)] and [d + timedelta(...)]: wall-clock arithmetic. *)
Definition sub_minutes (d : aware) (m : Z) : aware :=
  {| wall := (wall d - m * MINUTE)%Z; utcoffset := utcoffset d |}.

Definition add_minutes (d : aware) (m : Z) : aware :=
  {| wall := (wall d + m * MINUTE)%Z; utcoffset := utcoffset d |}.

(** [a > b] on zone-carrying datetimes compares the instants. *)
Definition instant (d : aware) : Z := (wall d - utcoffset d)%Z.

Definition dt_gt (a b : aware) : bool := (instant b <? instant a)%Z.

(** [(now + timedelta(days=1)).replace(hour=0, minute=1, second=0, microsecond=0)] *)
Definition tomorrow_0001 (now : aware) : aware :=
  {| wall := ((wall now + DAY) / DAY * DAY + MINUTE)%Z; utcoffset := utcoffset now |}.

Definition date (d : aware) : Z := (wall d / DAY)%Z.
Definition time_of_day (d : aware) : Z := (wall d mod DAY)%Z.

(** ** Data model *)

(** One entry of [coordinator.data.prayers], a dict with these three keys. *)
Record Prayer := { name : string; time : datetime; enabled : bool }.

(** [coordinator.data] *)
Record PrayerData := { prayers : list Prayer; played_today : gset string }.

(** The merged configuration [{**entry.data, **entry.options}], one field per
    key that the code looks up; [None] when the key is absent. *)
Record ConfigEntry := {
  CONF_PLAYBACK_MODE : option string;
  CONF_MEDIA_PLAYER : option string;
  CONF_NOTIFY_SERVICE : option string;
  CONF_EXTERNAL_URL : option string;
  CONF_OFFSET_MINUTES : option Z }.

(** The constants imported from [.const], whose values the code only compares
    or passes on. *)
Record Const := {
  DEFAULT_OFFSET_MINUTES : Z;
  PLAYBACK_MEDIA_PLAYER : string;
  PLAYBACK_ANDROID_VLC : string }.

(** The closures handed to [async_track_point_in_time]. *)
Inductive Action :=
| _midnight_refresh_cb
| _prayer_callback_cb (prayer_name : string)
| _reset_playing_cb (prayer_name : string).

Record Timer := { action : Action; point_in_time : aware }.

Definition is_wakeup (t : Timer) : bool :=
  match action t with
  | _midnight_refresh_cb | _prayer_callback_cb _ => true
  | _reset_playing_cb _ => false
  end.

Definition is_reset (t : Timer) : bool := negb (is_wakeup t).

Inductive ServiceCall :=
| media_player_play_media (entity_id media_content_id : string)
| notify_command_screen_on (notify_service : string)
| notify_command_activity (notify_service intent_uri : string)
| media_player_media_stop (entity_id : string)
| notify_command_media (notify_service : string).

Inductive Effect :=
| played_today_add (prayer_name : string)
| async_call (c : ServiceCall)
| async_set_updated_data
| async_refresh_task.

Record Store := {
  coordinator_data : option PrayerData;
  is_playing : bool;
  currently_playing : option string;
  is_downloading : bool;
  audio_file : option string;
  fajr_audio_file : option string;
  unsub_timer : option nat;
  playback_reset_unsub : option nat }.

Record Hass := {
  data : option Store;
  timers : gmap nat Timer;
  next_handle : nat;
  journal : list Effect }.

Inductive UrlRequest := url_prefer_internal | url_prefer_external | url_default.

Record Env := {
  const : Const;
  now : aware;
  path_exists : string → bool;
  get_url : UrlRequest → option string;
  call_succeeds : ServiceCall → bool }.

(** ** Store and host primitives *)

Definition set_coordinator_data (d : option PrayerData) (s : Store) : Store :=
  {| coordinator_data := d; is_playing := is_playing s;
     currently_playing := currently_playing s; is_downloading := is_downloading s;
     audio_file := audio_file s; fajr_audio_file := fajr_audio_file s;
     unsub_timer := unsub_timer s; playback_reset_unsub := playback_reset_unsub s |}.

Definition set_playing (b : bool) (n : option string) (s : Store) : Store :=
  {| coordinator_data := coordinator_data s; is_playing := b;
     currently_playing := n; is_downloading := is_downloading s;
     audio_file := audio_file s; fajr_audio_file := fajr_audio_file s;
     unsub_timer := unsub_timer s; playback_reset_unsub := playback_reset_unsub s |}.

Definition set_audio_file (f : option string) (s : Store) : Store :=
  {| coordinator_data := coordinator_data s; is_playing := is_playing s;
     currently_playing := currently_playing s; is_downloading := is_downloading s;
     audio_file := f; fajr_audio_file := fajr_audio_file s;
     unsub_timer := unsub_timer s; playback_reset_unsub := playback_reset_unsub s |}.

Definition set_fajr_audio_file (f : option string) (s : Store) : Store :=
  {| coordinator_data := coordinator_data s; is_playing := is_playing s;
     currently_playing := currently_playing s; is_downloading := is_downloading s;
     audio_file := audio_file s; fajr_audio_file := f;
     unsub_timer := unsub_timer s; playback_reset_unsub := playback_reset_unsub s |}.

Definition set_unsub_timer (h : option nat) (s : Store) : Store :=
  {| coordinator_data := coordinator_data s; is_playing := is_playing s;
     currently_playing := currently_playing s; is_downloading := is_downloading s;
     audio_file := audio_file s; fajr_audio_file := fajr_audio_file s;
     unsub_timer := h; playback_reset_unsub := playback_reset_unsub s |}.

Definition set_playback_reset_unsub (h : option nat) (s : Store) : Store :=
  {| coordinator_data := coordinator_data s; is_playing := is_playing s;
     currently_playing := currently_playing s; is_downloading := is_downloading s;
     audio_file := audio_file s; fajr_audio_file := fajr_audio_file s;
     unsub_timer := unsub_timer s; playback_reset_unsub := h |}.

(** [coordinator.data.played_today.add(prayer_name)] *)
Definition add_played (prayer_name : string) (s : Store) : Store :=
  match coordinator_data s with
  | None => s
  | Some d =>
      set_coordinator_data
        (Some {| prayers := prayers d;
                 played_today := {[prayer_name]} ∪ played_today d |}) s
  end.

Definition set_data (s : option Store) (hass : Hass) : Hass :=
  {| data := s; timers := timers hass; next_handle := next_handle hass;
     journal := journal hass |}.

Definition emit (e : Effect) (hass : Hass) : Hass :=
  {| data := data hass; timers := timers hass; next_handle := next_handle hass;
     journal := journal hass ++ [e] |}.

(** Calling the function returned by [async_track_point_in_time]. *)
Definition unsub (h : nat) (hass : Hass) : Hass :=
  {| data := data hass; timers := delete h (timers hass);
     next_handle := next_handle hass; journal := journal hass |}.

(** [async_track_point_in_time(hass, action, point_in_time)]: the new handle
    is [next_handle hass]. *)
Definition async_track_point_in_time (hass : Hass) (a : Action) (t : aware) : Hass :=
  {| data := data hass;
     timers := <[next_handle hass := {| action := a; point_in_time := t |}]> (timers hass);
     next_handle := S (next_handle hass); journal := journal hass |}.

(** [if coordinator.data: coordinator.async_set_updated_data(coordinator.data)] *)
Definition notify_listeners (s : Store) (hass : Hass) : Hass :=
  match coordinator_data s with
  | Some _ => emit async_set_updated_data hass
  | None => hass
  end.

(** Python truthiness of an optional string ([None] and [""] are falsy). *)
Definition truthy (o : option string) : bool :=
  match o with
  | Some s => negb (bool_decide (s = ""))
  | None => false
  end.

(** ** Scheduling (lines 451-531) *)

(** The [for prayer in coordinator.data.prayers] loop, with its two
    [continue]s and its [break]. *)
Fixpoint find_next_prayer (offset_minutes : Z) (now : aware)
    (played_today : gset string) (prayers : list Prayer) : option Prayer :=
  match prayers with
  | [] => None
  | prayer :: rest =>
      if negb (enabled prayer) then
        find_next_prayer offset_minutes now played_today rest
      else if bool_decide (name prayer ∈ played_today) then
        find_next_prayer offset_minutes now played_today rest
      else
        let prayer_time := localize now (time prayer) in
        let target_time := sub_minutes prayer_time offset_minutes in
        if dt_gt target_time now then Some prayer
        else find_next_prayer offset_minutes now played_today rest
  end.

Definition _schedule_next_prayer (env : Env) (hass : Hass) (entry : ConfigEntry) : Hass :=
  match data hass with
  | None => hass
  | Some store =>
      (* Cancel existing timer *)
      let '(hass, store) :=
        match unsub_timer store with
        | Some h =>
            let store := set_unsub_timer None store in
            (set_data (Some store) (unsub h hass), store)
        | None => (hass, store)
        end in
      match coordinator_data store with
      | None => hass
      | Some d =>
          let offset_minutes :=
            default (DEFAULT_OFFSET_MINUTES (const env)) (CONF_OFFSET_MINUTES entry) in
          let now := now env in
          match find_next_prayer offset_minutes now (played_today d) (prayers d) with
          | None =>
              (* No more prayers today, schedule a refresh at midnight *)
              let tomorrow := tomorrow_0001 now in
              let h := next_handle hass in
              let hass := async_track_point_in_time hass _midnight_refresh_cb tomorrow in
              set_data (Some (set_unsub_timer (Some h) store)) hass
          | Some next_prayer =>
              let prayer_time := localize now (time next_prayer) in
              let target_time := sub_minutes prayer_time offset_minutes in
              let h := next_handle hass in
              let hass :=
                async_track_point_in_time hass
                  (_prayer_callback_cb (name next_prayer)) target_time in
              set_data (Some (set_unsub_timer (Some h) store)) hass
          end
      end
  end.

(** ** Playback (lines 259-445) *)

(** [os.path.basename]: what follows the last ["/"]. *)
Fixpoint basename_from (tail p : string) : string :=
  match p with
  | EmptyString => tail
  | String c rest =>
      if Ascii.eqb c "/"%char then basename_from rest rest
      else basename_from tail rest
  end.

Definition basename (p : string) : string := basename_from p p.

(** [s.rstrip("/")] *)
Fixpoint rstrip_slash (s : string) : string :=
  match s with
  | EmptyString => EmptyString
  | String c rest =>
      let r := rstrip_slash rest in
      if bool_decide (r = "") && Ascii.eqb c "/"%char then "" else String c r
  end.

(** How a call of [_play_azan] ended: the [return] or [raise] it left by. *)
Inductive Exit :=
| return_no_store            (* line 263 *)
| return_duplicate           (* line 271 *)
| return_no_audio            (* line 285 *)
| raise_no_url               (* [get_url(hass)] raising at line 295 or 303 *)
| return_no_media_player     (* line 323 *)
| return_no_notify_service   (* line 339 *)
| return_failed              (* line 373, from the [except] clause *)
| completed.                 (* line 395 *)

(** Lines 278-281. *)
Definition pick_audio_file (store : Store) (prayer_name : string) : option string :=
  if bool_decide (prayer_name = "Fajr") && truthy (fajr_audio_file store)
  then fajr_audio_file store
  else audio_file store.

(** Lines 289-303; [None] when the last [get_url] raises. *)
Definition build_base_url (env : Env) (entry : ConfigEntry) (playback_mode : string)
  : option string :=
  if bool_decide (playback_mode = PLAYBACK_MEDIA_PLAYER (const env)) then
    match get_url env url_prefer_internal with
    | Some u => Some u
    | None => get_url env url_default
    end
  else
    let base_url := rstrip_slash (default "" (CONF_EXTERNAL_URL entry)) in
    if bool_decide (base_url = "") then
      match get_url env url_prefer_external with
      | Some u => Some u
      | None => get_url env url_default
      end
    else Some base_url.

(** The awaited [hass.services.async_call]s of a [try] block, in order; the
    first one that raises ends the block.  The boolean tells whether all
    of them returned. *)
Fixpoint await_calls (env : Env) (calls : list ServiceCall) (hass : Hass) : Hass * bool :=
  match calls with
  | [] => (hass, true)
  | c :: rest =>
      let hass := emit (async_call c) hass in
      if call_succeeds env c then await_calls env rest hass else (hass, false)
  end.

(** Lines 267-273, the guard: [None] is the [return] of line 271; otherwise
    the state to go on with, the name marked as played when it is a real one
    and a table is loaded. *)
Definition claim_played (hass : Hass) (store : Store) (prayer_name : string)
  : option (Hass * Store) :=
  if bool_decide (prayer_name ≠ "Test") then
    match coordinator_data store with
    | Some d =>
        if bool_decide (prayer_name ∈ played_today d) then None
        else
          let store := add_played prayer_name store in
          Some (emit (played_today_add prayer_name) (set_data (Some store) hass), store)
    | None => Some (hass, store)
    end
  else Some (hass, store).

(** Lines 318-366: the calls that the [try] block awaits, or the [return]
    taken inside it before any call. *)
Definition playback_calls (env : Env) (entry : ConfigEntry) (playback_mode media_url : string)
  : list ServiceCall + Exit :=
  if bool_decide (playback_mode = PLAYBACK_MEDIA_PLAYER (const env)) then
    if negb (truthy (CONF_MEDIA_PLAYER entry)) then inr return_no_media_player
    else inl [media_player_play_media (default "" (CONF_MEDIA_PLAYER entry)) media_url]
  else
    if negb (truthy (CONF_NOTIFY_SERVICE entry)) then inr return_no_notify_service
    else
      let notify_service := default "" (CONF_NOTIFY_SERVICE entry) in
      inl [notify_command_screen_on notify_service;
           notify_command_activity notify_service media_url].

Definition _play_azan_exit (env : Env) (hass : Hass) (entry : ConfigEntry)
    (prayer_name : string) : Hass * Exit :=
  match data hass with
  | None => (hass, return_no_store)
  | Some store =>
      match claim_played hass store prayer_name with
      | None => (hass, return_duplicate)
      | Some (hass, store) =>
          let playback_mode :=
            default (PLAYBACK_MEDIA_PLAYER (const env)) (CONF_PLAYBACK_MODE entry) in
          (* Pick the right audio file *)
          let audio_file := pick_audio_file store prayer_name in
          if negb (truthy audio_file) || negb (path_exists env (default "" audio_file))
          then (hass, return_no_audio)
          else
            let filename := basename (default "" audio_file) in
            match build_base_url env entry playback_mode with
            | None => (hass, raise_no_url)
            | Some base_url =>
                let media_url := base_url ++ "/local/azan/" ++ filename in
                (* Mark as playing *)
                let store := set_playing true (Some prayer_name) store in
                let hass := notify_listeners store (set_data (Some store) hass) in
                match playback_calls env entry playback_mode media_url with
                | inr early => (hass, early)
                | inl calls =>
                    let '(hass, ok) := await_calls env calls hass in
                    if negb ok then
                      (* except Exception *)
                      let store := set_playing false None store in
                      (notify_listeners store (set_data (Some store) hass), return_failed)
                    else
                      (* Reset playing state after 5 minutes *)
                      let hass :=
                        match playback_reset_unsub store with
                        | Some h => unsub h hass
                        | None => hass
                        end in
                      let h := next_handle hass in
                      let hass :=
                        async_track_point_in_time hass (_reset_playing_cb prayer_name)
                          (add_minutes (now env) 5) in
                      let hass :=
                        set_data (Some (set_playback_reset_unsub (Some h) store)) hass in
                      (* Schedule next prayer after this one *)
                      (_schedule_next_prayer env hass entry, completed)
                end
            end
      end
  end.

Definition _play_azan (env : Env) (hass : Hass) (entry : ConfigEntry)
    (prayer_name : string) : Hass :=
  fst (_play_azan_exit env hass entry prayer_name).

(** The closure [_reset_playing] armed at line 390, bound to [prayer_name]. *)
Definition _reset_playing (hass : Hass) (prayer_name : string) : Hass :=
  match data hass with
  | None => hass
  | Some store =>
      if bool_decide (currently_playing store = Some prayer_name) then
        let store := set_playing false None store in
        notify_listeners store (set_data (Some store) hass)
      else hass
  end.

Definition _stop_playback (env : Env) (hass : Hass) (entry : ConfigEntry) : Hass :=
  match data hass with
  | None => hass
  | Some store =>
      let store := set_playing false None store in
      let hass := set_data (Some store) hass in
      let playback_mode :=
        default (PLAYBACK_ANDROID_VLC (const env)) (CONF_PLAYBACK_MODE entry) in
      (* a raising call is logged and swallowed by [except Exception] *)
      let hass :=
        if bool_decide (playback_mode = PLAYBACK_MEDIA_PLAYER (const env)) then
          if truthy (CONF_MEDIA_PLAYER entry)
          then emit (async_call (media_player_media_stop
                                   (default "" (CONF_MEDIA_PLAYER entry)))) hass
          else hass
        else
          if truthy (CONF_NOTIFY_SERVICE entry)
          then emit (async_call (notify_command_media
                                   (default "" (CONF_NOTIFY_SERVICE entry)))) hass
          else hass in
      (* Trigger sensor update *)
      notify_listeners store hass
  end.

(** ** Timer callbacks and service handlers *)

(** The closure [_prayer_callback] armed at line 529, bound to [next_prayer]. *)
Definition _prayer_callback (env : Env) (hass : Hass) (entry : ConfigEntry)
    (prayer_name : string) : Hass :=
  match data hass with
  | None => hass
  | Some store =>
      match coordinator_data store with
      | Some d =>
          if bool_decide (prayer_name ∈ played_today d)
          then _schedule_next_prayer env hass entry
          else _play_azan env hass entry prayer_name
      | None => _play_azan env hass entry prayer_name
      end
  end.

(** The closure [_midnight_refresh] armed at line 501: the refresh is only
    started ([hass.async_create_task]); the reschedule runs at once. *)
Definition _midnight_refresh (env : Env) (hass : Hass) (entry : ConfigEntry) : Hass :=
  _schedule_next_prayer env (emit async_refresh_task hass) entry.

(** The host fires an armed timer: the timer is gone, its closure runs. *)
Definition fire (env : Env) (hass : Hass) (entry : ConfigEntry) (h : nat) : Hass :=
  match timers hass !! h with
  | None => hass
  | Some t =>
      let hass := unsub h hass in
      match action t with
      | _midnight_refresh_cb => _midnight_refresh env hass entry
      | _prayer_callback_cb prayer_name => _prayer_callback env hass entry prayer_name
      | _reset_playing_cb prayer_name => _reset_playing hass prayer_name
      end
  end.

(** Modelled from the spec: [coordinator.async_refresh()] lives in
    [coordinator.py]; per the spec the provider either delivers a fresh table,
    which replaces the current one wholesale, or fails, and the previous table
    is retained. *)
Definition async_refresh (fetched : option PrayerData) (hass : Hass) : Hass :=
  match data hass, fetched with
  | Some store, Some d => set_data (Some (set_coordinator_data (Some d) store)) hass
  | _, _ => hass
  end.

Definition handle_play_azan := _play_azan.

Definition handle_stop_playback := _stop_playback.

Definition handle_refresh_times (env : Env) (hass : Hass) (entry : ConfigEntry)
    (fetched : option PrayerData) : Hass :=
  match data hass with
  | None => hass
  | Some _ => _schedule_next_prayer env (async_refresh fetched hass) entry
  end.

(** ** Life cycle of one entry *)

(** The store written by [async_setup_entry] (lines 58-67), once the first
    refresh has delivered [first]. *)
Definition initial_store (first : PrayerData) : Store :=
  {| coordinator_data := Some first; is_playing := false; currently_playing := None;
     is_downloading := false; audio_file := None; fajr_audio_file := None;
     unsub_timer := None; playback_reset_unsub := None |}.

Definition async_setup_entry (env : Env) (entry : ConfigEntry) (first : PrayerData) : Hass :=
  _schedule_next_prayer env
    {| data := Some (initial_store first); timers := ∅; next_handle := 0; journal := [] |}
    entry.

(** Lines 131-154; [unloaded] is what [async_unload_platforms] answers. *)
Definition async_unload_entry (hass : Hass) (unloaded : bool) : Hass :=
  match data hass with
  | None => hass
  | Some store =>
      let hass := match unsub_timer store with Some h => unsub h hass | None => hass end in
      let hass :=
        match playback_reset_unsub store with Some h => unsub h hass | None => hass end in
      if unloaded then set_data None hass else hass
  end.

(** What can happen to a set-up entry: the three services, a timer firing,
    the refresh started at midnight delivering, the background download
    storing a path (lines 91 and 101), and the unload. *)
Inductive Op :=
| play_azan (prayer : string)
| stop_playback
| refresh_times (fetched : option PrayerData)
| timer_fires (h : nat)
| refresh_task_done (fetched : option PrayerData)
| azan_downloaded (path : string)
| fajr_downloaded (path : string)
| unload_entry (unloaded : bool).

Definition run (env : Env) (hass : Hass) (entry : ConfigEntry) (op : Op) : Hass :=
  match op with
  | play_azan prayer => handle_play_azan env hass entry prayer
  | stop_playback => handle_stop_playback env hass entry
  | refresh_times fetched => handle_refresh_times env hass entry fetched
  | timer_fires h => fire env hass entry h
  | refresh_task_done fetched => async_refresh fetched hass
  | azan_downloaded path => set_data (set_audio_file (Some path) <$> data hass) hass
  | fajr_downloaded path => set_data (set_fajr_audio_file (Some path) <$> data hass) hass
  | unload_entry unloaded => async_unload_entry hass unloaded
  end.

(** The states an entry can be in; the outside world may answer differently
    at every step. *)
Inductive reachable (entry : ConfigEntry) : Hass → Prop :=
| reachable_setup env first :
    reachable entry (async_setup_entry env entry first)
| reachable_run env hass op :
    reachable entry hass → reachable entry (run env hass entry op).

(** ** The claims' vocabulary *)

(** The zone a scheduled time is read in: its own, else the local one. *)
Definition zone_of (now : aware) (t : datetime) : Z := default (utcoffset now) (tzinfo t).

(** scheduled_time minus offset, as a wall-clock reading and as an instant. *)
Definition target_wall (offset_minutes : Z) (p : Prayer) : Z :=
  (naive (time p) - offset_minutes * MINUTE)%Z.

Definition target_instant (offset_minutes : Z) (now : aware) (p : Prayer) : Z :=
  (target_wall offset_minutes p - zone_of now (time p))%Z.

(** An event qualifies: enabled, not yet played, and its offset-adjusted time
    lies after [now]. *)
Definition eligible (offset_minutes : Z) (now : aware) (played : gset string)
    (p : Prayer) : Prop :=
  enabled p = true ∧ (name p ∉ played) ∧ (instant now < target_instant offset_minutes now p)%Z.

Definition offset_of (env : Env) (entry : ConfigEntry) : Z :=
  default (DEFAULT_OFFSET_MINUTES (const env)) (CONF_OFFSET_MINUTES entry).

(** The timers left once the handle kept in a store slot has been called. *)
Definition cancelled (slot : option nat) (m : gmap nat Timer) : gmap nat Timer :=
  match slot with
  | Some h => delete h m
  | None => m
  end.

(** Playback status [Playing(X)]. *)
Definition playing (store : Store) (X : string) : Prop :=
  is_playing store = true ∧ currently_playing store = Some X.

(** What a call appended to the journal. *)
Definition issued (before after : Hass) : list Effect :=
  drop (length (journal before)) (journal after).

Definition is_call (e : Effect) : bool :=
  match e with
  | async_call _ => true
  | _ => false
  end.

(** The timer that [_schedule_next_prayer] arms, given what the loop found. *)
Definition wakeup_for (env : Env) (entry : ConfigEntry) (found : option Prayer) : Timer :=
  match found with
  | None => {| action := _midnight_refresh_cb; point_in_time := tomorrow_0001 (now env) |}
  | Some p =>
      {| action := _prayer_callback_cb (name p);
         point_in_time :=
           sub_minutes (localize (now env) (time p)) (offset_of env entry) |}
  end.

(** ** Invariants of the timer bookkeeping *)

(** The two handle slots of the store. *)
Definition slots (hass : Hass) : option (option nat * option nat) :=
  (λ store, (unsub_timer store, playback_reset_unsub store)) <$> data hass.

(** Nothing about timers changed between two states. *)
Definition same_timers (hass' hass : Hass) : Prop :=
  slots hass' = slots hass ∧ timers hass' = timers hass
  ∧ next_handle hass' = next_handle hass.

(** Every pending timer is the one whose handle sits in the slot of its
    kind, and handles are handed out in increasing order. *)
Definition tracked (hass : Hass) : Prop :=
  ∀ h t, timers hass !! h = Some t →
    (h < next_handle hass)%nat
    ∧ ∃ w r, slots hass = Some (w, r) ∧ (if is_wakeup t then w else r) = Some h.

(** The two playback fields of the store. *)
Definition status (hass : Hass) : option (bool * option string) :=
  (λ store, (is_playing store, currently_playing store)) <$> data hass.

(** [is_playing] and [currently_playing] are written together. *)
Definition coherent (hass : Hass) : Prop :=
  ∀ b c, status hass = Some (b, c) → (b = true ↔ is_Some c).

(** The pending timers of one kind. *)
Definition armed (kind : Timer → bool) (hass : Hass) : list (nat * Timer) :=
  filter (λ ht, kind ht.2 = true) (map_to_list (timers hass)).

(** Lines 386-392: cancel the reset handle held, arm a reset timer bound to
    [prayer_name], keep its handle. *)
Definition rearm_reset (env : Env) (hass : Hass) (store : Store) (prayer_name : string)
  : Hass :=
  {| data := Some (set_playback_reset_unsub (Some (next_handle hass)) store);
     timers :=
       <[next_handle hass :=
           {| action := _reset_playing_cb prayer_name;
              point_in_time := add_minutes (now env) 5 |}]>
         (cancelled (playback_reset_unsub store) (timers hass));
     next_handle := S (next_handle hass);
     journal := journal hass |}.

(** ** Vocabulary for the playback claims *)

(** The table currently loaded. *)
Definition table (hass : Hass) : option PrayerData := data hass ≫= coordinator_data.

(** The calls of a [try] block that are issued: all up to and including the
    first one that raises. *)
Fixpoint attempted (env : Env) (calls : list ServiceCall) : list ServiceCall :=
  match calls with
  | [] => []
  | c :: rest => c :: (if call_succeeds env c then attempted env rest else [])
  end.

Definition is_claim (e : Effect) : bool :=
  match e with
  | played_today_add _ => true
  | _ => false
  end.

(** The URL a playback call hands to the device. *)
Definition media_url_of (c : ServiceCall) : option string :=
  match c with
  | media_player_play_media _ u | notify_command_activity _ u => Some u
  | _ => None
  end.

(** A device is configured for the playback mode in force. *)
Definition sink_configured (env : Env) (entry : ConfigEntry) : bool :=
  if bool_decide (default (PLAYBACK_MEDIA_PLAYER (const env)) (CONF_PLAYBACK_MODE entry)
                  = PLAYBACK_MEDIA_PLAYER (const env))
  then truthy (CONF_MEDIA_PLAYER entry)
  else truthy (CONF_NOTIFY_SERVICE entry).

(** Nothing stands in the way of playing [prayer_name]: its audio file is
    stored and on disk, a base URL can be had, a device is configured. *)
Definition can_play (env : Env) (entry : ConfigEntry) (store : Store) (prayer_name : string)
  : bool :=
  truthy (pick_audio_file store prayer_name)
  && path_exists env (default "" (pick_audio_file store prayer_name))
  && bool_decide (is_Some (build_base_url env entry
       (default (PLAYBACK_MEDIA_PLAYER (const env)) (CONF_PLAYBACK_MODE entry))))
  && sink_configured env entry.

(** The selection as the claim words it, to be compared with lines 278-281:
    the Fajr file exactly when the name is "Fajr" and a Fajr file has been
    stored, the general azan file otherwise.  A slot holds a file when it
    holds a path that is not empty. *)
Definition selected_audio (store : Store) (prayer_name : string) : option string :=
  match fajr_audio_file store with
  | Some fajr =>
      if decide (prayer_name = "Fajr" ∧ fajr ≠ "") then Some fajr else audio_file store
  | None => audio_file store
  end.

(** ** A concrete household

    Media-player mode, ten minutes of lead, times without a zone, one day's
    table; the clock readings are those of the spec's scenarios. *)

Definition clock (h m : Z) : Z := ((h * 60 + m) * MINUTE)%Z.

Module Scenario.

Definition consts : Const :=
  {| DEFAULT_OFFSET_MINUTES := 0;
     PLAYBACK_MEDIA_PLAYER := "media_player";
     PLAYBACK_ANDROID_VLC := "android_vlc" |}.

Definition entry : ConfigEntry :=
  {| CONF_PLAYBACK_MODE := Some "media_player";
     CONF_MEDIA_PLAYER := Some "media_player.hall";
     CONF_NOTIFY_SERVICE := None;
     CONF_EXTERNAL_URL := None;
     CONF_OFFSET_MINUTES := Some 10%Z |}.

(** The same household with no media player chosen. *)
Definition entry_no_player : ConfigEntry :=
  {| CONF_PLAYBACK_MODE := Some "media_player";
     CONF_MEDIA_PLAYER := None;
     CONF_NOTIFY_SERVICE := None;
     CONF_EXTERNAL_URL := None;
     CONF_OFFSET_MINUTES := Some 10%Z |}.

(** The world at [h:m], every file present, the service calls answering
    [sink_ok]. *)
Definition env_at (h m : Z) (sink_ok : bool) : Env :=
  {| const := consts;
     now := {| wall := clock h m; utcoffset := 0 |};
     path_exists := λ _, true;
     get_url := λ _, Some "http://ha.local:8123";
     call_succeeds := λ _, sink_ok |}.

Definition prayer_at (n : string) (h m : Z) : Prayer :=
  {| name := n; time := {| naive := clock h m; tzinfo := None |}; enabled := true |}.

Definition morning : PrayerData :=
  {| prayers := [prayer_at "Fajr" 5 0; prayer_at "Dhuhr" 12 0]; played_today := ∅ |}.

Definition evening : PrayerData :=
  {| prayers := [prayer_at "Maghrib" 18 0; prayer_at "Isha" 19 30]; played_today := ∅ |}.

Definition all_played : PrayerData :=
  {| prayers := [prayer_at "Fajr" 5 0; prayer_at "Dhuhr" 12 0];
     played_today := {["Fajr"; "Dhuhr"]} |}.

(** The table of the day after: Fajr at 05:00 and Dhuhr at 12:00 of that day. *)
Definition tomorrow : PrayerData :=
  {| prayers := [prayer_at "Fajr" 29 0; prayer_at "Dhuhr" 36 0]; played_today := ∅ |}.

(** A freshly written store, before the first call of [_schedule_next_prayer]. *)
Definition fresh (d : PrayerData) : Hass :=
  {| data := Some (initial_store d); timers := ∅; next_handle := 0; journal := [] |}.

(** Set up at [h:m] with table [d], then the azan audio is stored. *)
Definition ready (h m : Z) (e : ConfigEntry) (d : PrayerData) : Hass :=
  run (env_at h m true) (async_setup_entry (env_at h m true) e d) e
    (azan_downloaded "/config/www/azan/azan.mp3").

End Scenario.

(** ** Vocabulary for the further properties *)

(** The table lists its events in the order in which they fall due. *)
Definition chronological (offset_minutes : Z) (now : aware) (l : list Prayer) : Prop :=
  StronglySorted
    (λ p q, (target_instant offset_minutes now p ≤ target_instant offset_minutes now q)%Z) l.

(** The handles kept in the store were handed out earlier. *)
Definition issued_handles (hass : Hass) : Prop :=
  ∀ w r, slots hass = Some (w, r) →
    (∀ h, w = Some h → (h < next_handle hass)%nat)
    ∧ (∀ h, r = Some h → (h < next_handle hass)%nat).

(** The operations that neither replace the table nor drop the store. *)
Definition keeps_table (op : Op) : bool :=
  match op with
  | refresh_times (Some _) | refresh_task_done (Some _) | unload_entry true => false
  | _ => true
  end.

(** A run of operations, each in the world of its moment. *)
Definition runs (steps : list (Env * Op)) (hass : Hass) (entry : ConfigEntry) : Hass :=
  foldl (λ hass step, run step.1 hass entry step.2) hass steps.

(** Same events, nothing unplayed again. *)
Definition table_grows (hass hass' : Hass) : Prop :=
  ∀ d, table hass = Some d →
    ∃ d', table hass' = Some d' ∧ prayers d' = prayers d
          ∧ played_today d ⊆ played_today d'.

(** The service calls among some journal entries, in order. *)
Definition calls_of (l : list Effect) : list ServiceCall :=
  omap (λ e, match e with async_call c => Some c | _ => None end) l.

(** The playback mode in force in [_play_azan] (line 276) and in
    [_stop_playback] (line 408). *)
Definition play_mode (env : Env) (entry : ConfigEntry) : string :=
  default (PLAYBACK_MEDIA_PLAYER (const env)) (CONF_PLAYBACK_MODE entry).

Definition stop_mode (env : Env) (entry : ConfigEntry) : string :=
  default (PLAYBACK_ANDROID_VLC (const env)) (CONF_PLAYBACK_MODE entry).

(** More households: one that plays through VLC on a phone, and one whose
    configuration names a media player and a phone but no playback mode. *)
Module Household.

Definition vlc : ConfigEntry :=
  {| CONF_PLAYBACK_MODE := Some "android_vlc";
     CONF_MEDIA_PLAYER := None;
     CONF_NOTIFY_SERVICE := Some "mobile_app_phone";
     CONF_EXTERNAL_URL := Some "https://home.example.org/";
     CONF_OFFSET_MINUTES := None |}.

Definition no_mode : ConfigEntry :=
  {| CONF_PLAYBACK_MODE := None;
     CONF_MEDIA_PLAYER := Some "media_player.hall";
     CONF_NOTIFY_SERVICE := Some "mobile_app_phone";
     CONF_EXTERNAL_URL := None;
     CONF_OFFSET_MINUTES := None |}.

(** The world at [h:m] in which only the wake-screen command raises. *)
Definition screen_off_at (h m : Z) : Env :=
  {| const := Scenario.consts;
     now := {| wall := clock h m; utcoffset := 0 |};
     path_exists := λ _, true;
     get_url := λ _, Some "http://ha.local:8123";
     call_succeeds := λ c, match c with notify_command_screen_on _ => false | _ => true end |}.

End Household.

(** The last character of a string, and a run of [k] slashes. *)
Fixpoint last_char (s : string) : option ascii :=
  match s with
  | EmptyString => None
  | String c EmptyString => Some c
  | String _ rest => last_char rest
  end.

Fixpoint slashes (k : nat) : string :=
  match k with
  | O => EmptyString
  | S k => String "/"%char (slashes k)
  end.

(** ** The background download (lines 78-112)

    The task runs beside everything else; between its steps, which the
    awaited executor jobs separate, other operations of the entry may run.
    What [_download_audio] answers is taken as given: a path, or [None] when
    it raises. *)

(** The two keys of the merged configuration that the task looks up. *)
Record AudioConfig := { CONF_AZAN_URL : option string; CONF_FAJR_URL : option string }.

Definition set_is_downloading (b : bool) (s : Store) : Store :=
  {| coordinator_data := coordinator_data s; is_playing := is_playing s;
     currently_playing := currently_playing s; is_downloading := b;
     audio_file := audio_file s; fajr_audio_file := fajr_audio_file s;
     unsub_timer := unsub_timer s; playback_reset_unsub := playback_reset_unsub s |}.

(** Lines 82-84. *)
Definition download_begins (hass : Hass) : Hass :=
  match data hass with
  | None => hass
  | Some store =>
      let store := set_is_downloading true store in
      notify_listeners store (set_data (Some store) hass)
  end.

(** Lines 86-94: the azan job has answered. *)
Definition azan_job_done (audio : AudioConfig) (answer : option string) (hass : Hass) : Hass :=
  match data hass with
  | None => hass
  | Some store =>
      if truthy (CONF_AZAN_URL audio) then
        match answer with
        | Some path => set_data (Some (set_audio_file (Some path) store)) hass
        | None => hass
        end
      else hass
  end.

(** Lines 96-104: the Fajr job has answered. *)
Definition fajr_job_done (audio : AudioConfig) (answer : option string) (hass : Hass) : Hass :=
  match data hass with
  | None => hass
  | Some store =>
      if truthy (CONF_FAJR_URL audio) then
        match answer with
        | Some path => set_data (Some (set_fajr_audio_file (Some path) store)) hass
        | None => hass
        end
      else hass
  end.

(** Lines 106-108. *)
Definition download_ends (hass : Hass) : Hass :=
  match data hass with
  | None => hass
  | Some store =>
      let store := set_is_downloading false store in
      notify_listeners store (set_data (Some store) hass)
  end.

(** The task with nothing running in between. *)
Definition _download_audio_background (audio : AudioConfig) (azan fajr : option string)
    (hass : Hass) : Hass :=
  download_ends (fajr_job_done audio fajr (azan_job_done audio azan (download_begins hass))).

(** The download flag and the two stored files. *)
Definition audio_of (hass : Hass) : option (bool * option string * option string) :=
  (λ store, (is_downloading store, audio_file store, fajr_audio_file store)) <$> data hass.

(** The operations that are not part of the download and do not drop the
    store. *)
Definition keeps_audio (op : Op) : bool :=
  match op with
  | azan_downloaded _ | fajr_downloaded _ | unload_entry true => false
  | _ => true
  end.

(** What a job leaves in a file slot. *)
Definition stored (url answer old : option string) : option string :=
  if truthy url then match answer with Some path => Some path | None => old end else old.

(** ** Several entries and the services (lines 57-58, 118, 147-152, 537-561)

    [hass.data[DOMAIN]] maps entry ids to stores, and the service registry
    holds the handlers; a handler is a closure over the [entry] it was
    registered for.  Each entry keeps its own state as before, its store
    being what [hass.data[DOMAIN].get(entry_id)] answers. *)

Record Domain := {
  entries : gmap string Hass;
  services : gmap string (string * ConfigEntry) }.

(** What a caller hands to one of the three services. *)
Inductive ServiceRequest :=
| request_play_azan (prayer : option string)
| request_stop_playback
| request_refresh_times (fetched : option PrayerData).

Definition service_of (req : ServiceRequest) : string :=
  match req with
  | request_play_azan _ => "play_azan"
  | request_stop_playback => "stop_playback"
  | request_refresh_times _ => "refresh_times"
  end.

(** Lines 40-46: the prayer defaults to "Test" and must be one of six names;
    [None] when the schema rejects the call. *)
Definition SERVICE_PLAY_SCHEMA (prayer : option string) : option string :=
  let prayer := default "Test" prayer in
  if bool_decide (prayer ∈ ["Fajr"; "Dhuhr"; "Asr"; "Maghrib"; "Isha"; "Test"])
  then Some prayer else None.

(** [if not hass.data[DOMAIN]] *)
Definition no_store_left (m : gmap string Hass) : bool :=
  bool_decide (map_Forall (λ _ h, data h = None) m).

(** [if not hass.services.has_service(DOMAIN, name): async_register(...)] *)
Definition register (name eid : string) (entry : ConfigEntry)
    (svcs : gmap string (string * ConfigEntry)) : gmap string (string * ConfigEntry) :=
  match svcs !! name with
  | Some _ => svcs
  | None => <[name := (eid, entry)]> svcs
  end.

Definition _register_services (eid : string) (entry : ConfigEntry)
    (svcs : gmap string (string * ConfigEntry)) : gmap string (string * ConfigEntry) :=
  register "refresh_times" eid entry
    (register "stop_playback" eid entry (register "play_azan" eid entry svcs)).

Definition remove_services (svcs : gmap string (string * ConfigEntry))
  : gmap string (string * ConfigEntry) :=
  delete "refresh_times" (delete "stop_playback" (delete "play_azan" svcs)).

Module Domain.

(** [async_setup_entry] as a whole: the store is written and scheduled, then
    the services are registered. *)
Definition async_setup_entry (env : Env) (eid : string) (entry : ConfigEntry)
    (first : PrayerData) (dom : Domain) : Domain :=
  {| entries := <[eid := async_setup_entry env entry first]> (entries dom);
     services := _register_services eid entry (services dom) |}.

(** [async_unload_entry] as a whole: timers cancelled, and when the
    platforms unloaded the store is dropped and, if no store is left, the
    services are removed. *)
Definition async_unload_entry (eid : string) (unloaded : bool) (dom : Domain) : Domain :=
  let entries' := alter (λ h, async_unload_entry h unloaded) eid (entries dom) in
  {| entries := entries';
     services :=
       if unloaded && no_store_left entries' then remove_services (services dom)
       else services dom |}.

(** A service is called: [None] when it is not registered or the schema
    rejects the data; otherwise its handler runs on the entry it closes
    over. *)
Definition call (env : Env) (req : ServiceRequest) (dom : Domain) : option Domain :=
  match services dom !! service_of req with
  | None => None
  | Some (eid, entry) =>
      let run_handler (handler : Hass → Hass) :=
        {| entries := alter handler eid (entries dom); services := services dom |} in
      match req with
      | request_play_azan prayer =>
          match SERVICE_PLAY_SCHEMA prayer with
          | Some prayer => Some (run_handler (λ h, handle_play_azan env h entry prayer))
          | None => None
          end
      | request_stop_playback =>
          Some (run_handler (λ h, handle_stop_playback env h entry))
      | request_refresh_times fetched =>
          Some (run_handler (λ h, handle_refresh_times env h entry fetched))
      end
  end.

End Domain.

(** ** The audio file on disk (lines 160-210)

    [_download_audio] up to its fallback.  What pathlib, [str.strip] and
    [shutil] do is taken from an [Os] record; the download with yt-dlp and
    what follows it (lines 212-253) is taken as given.  The disk is the
    regular files by the path pathlib prints for them, with their text;
    directories are not tracked, so [mkdir] changes nothing, and reading
    and writing succeed. *)

Record Os := {
  (** [str(Path(hass.config.path( *parts )))] *)
  config_path : list string → string;
  (** [str(Path(s))] *)
  path_of : string → string;
  (** [str(Path(d) / leaf)] *)
  child : string → string → string;
  (** [s.strip()] *)
  strip : string → string;
  (** [shutil.copyfile] raising for a reason other than source and target
      being the same file *)
  copy_fails : string → string → bool;
  (** lines 212-253 on [url], [name] and the disk: what is returned, [None]
      when it raises, and the disk afterwards *)
  yt_dlp_fallback : string → string → gmap string string → option string * gmap string string }.

(** Lines 183-193, in the order in which they are appended. *)
Definition candidates (os : Os) (url : string) : list string :=
  [path_of os url; config_path os [url]; config_path os ["media"; url];
   config_path os ["www"; url]; config_path os ["www"; "azan"; url]].

(** Lines 195-199: the first candidate that exists and is a file. *)
Fixpoint first_file (disk : gmap string string) (cs : list string) : option string :=
  match cs with
  | [] => None
  | c :: rest => if bool_decide (is_Some (disk !! c)) then Some c else first_file disk rest
  end.

(** [shutil.copyfile(src, dst)]: [None] when it raises. *)
Definition copyfile (os : Os) (src dst : string) (disk : gmap string string)
  : option (gmap string string) :=
  if bool_decide (src = dst) then None
  else if copy_fails os src dst then None
  else match disk !! src with
       | Some text => Some (<[dst := text]> disk)
       | None => None
       end.

Definition out_path (os : Os) (name : string) : string :=
  child os (config_path os ["www"; "azan"]) (name ++ ".mp3").

Definition marker_path (os : Os) (name : string) : string :=
  child os (config_path os ["www"; "azan"]) ("." ++ name ++ ".url").

(** Lines 174-179: the cache check. *)
Definition cached (os : Os) (disk : gmap string string) (url name : string) : bool :=
  match disk !! out_path os name, disk !! marker_path os name with
  | Some _, Some text => bool_decide (strip os text = url)
  | _, _ => false
  end.

(** The path returned, [None] when the call raises, and the disk afterwards. *)
Definition _download_audio (os : Os) (disk : gmap string string) (url name : string)
  : option string * gmap string string :=
  if cached os disk url name then (Some (out_path os name), disk)
  else
    match first_file disk (candidates os url) with
    | Some local_source =>
        match copyfile os local_source (out_path os name) disk with
        | Some disk =>
            (Some (out_path os name), <[marker_path os name := local_source]> disk)
        | None => (None, disk)
        end
    | None => yt_dlp_fallback os url name disk
    end.

(** A configuration directory [/config] with plain path handling, on which
    copying works and the download always raises. *)
Module Posix.

Definition join (parts : list string) : string :=
  foldl (λ acc part, acc ++ "/" ++ part) "/config" parts.

Definition os : Os :=
  {| config_path := join;
     path_of := λ s, s;
     child := λ d leaf, d ++ "/" ++ leaf;
     strip := λ s, s;
     copy_fails := λ _ _, false;
     yt_dlp_fallback := λ _ _ disk, (None, disk) |}.

End Posix.


(** ** Proof steps used more than once *)

(** Closes the side conditions of a path that issues no service call. *)
Ltac no_calls :=
  repeat split; auto; try done; try (by repeat constructor);
  try (intros ? ? ? _ Hin; by apply elem_of_nil in Hin).

(** * Scheduling lemmas *)

Lemma eligible_iff off now played p :
  eligible off now played p ↔
  enabled p = true ∧ (name p ∉ played) ∧
  dt_gt (sub_minutes (localize now (time p)) off) now = true.
Proof.
  unfold eligible, target_instant, target_wall, zone_of, dt_gt, instant,
    sub_minutes, localize.
  destruct (tzinfo (time p)); simpl; rewrite Z.ltb_lt; intuition lia.
Qed.

Lemma find_next_prayer_skip off now played p rest :
  ¬ eligible off now played p →
  find_next_prayer off now played (p :: rest) = find_next_prayer off now played rest.
Proof.
  rewrite eligible_iff. intros Hno. simpl.
  destruct (enabled p); simpl; [|done].
  case_bool_decide; [done|].
  destruct (dt_gt _ now) eqn:Hgt; [|done].
  exfalso. apply Hno. done.
Qed.

Lemma find_next_prayer_take off now played p rest :
  eligible off now played p →
  find_next_prayer off now played (p :: rest) = Some p.
Proof.
  rewrite eligible_iff. intros (He & Hp & Hgt). simpl.
  rewrite He. simpl. rewrite bool_decide_eq_false_2 by done. by rewrite Hgt.
Qed.

Lemma find_next_prayer_first off now played (before after : list Prayer) p :
  Forall (λ q, ¬ eligible off now played q) before →
  eligible off now played p →
  find_next_prayer off now played (before ++ p :: after)%list = Some p.
Proof.
  induction 1 as [|q before Hq _ IH]; intros Hp.
  - by apply find_next_prayer_take.
  - rewrite <- app_comm_cons, find_next_prayer_skip by done. by apply IH.
Qed.

Lemma find_next_prayer_none off now played l :
  Forall (λ q, ¬ eligible off now played q) l →
  find_next_prayer off now played l = None.
Proof.
  induction 1 as [|q l Hq _ IH]; [done|].
  by rewrite find_next_prayer_skip.
Qed.

Lemma tomorrow_0001_date now : date (tomorrow_0001 now) = (date now + 1)%Z.
Proof.
  unfold date, tomorrow_0001, DAY, MINUTE. simpl.
  rewrite Z.div_add_l by lia.
  replace (wall now + 86400000000)%Z with (wall now + 1 * 86400000000)%Z by lia.
  rewrite Z.div_add by lia. rewrite (Z.div_small 60000000) by lia. lia.
Qed.

Lemma tomorrow_0001_time now : time_of_day (tomorrow_0001 now) = MINUTE.
Proof.
  unfold time_of_day, tomorrow_0001, DAY, MINUTE. simpl.
  rewrite Z.add_comm, Z.mod_add by lia. by apply Z.mod_small.
Qed.

Lemma schedule_next_prayer_loaded env hass entry store d :
  data hass = Some store →
  coordinator_data store = Some d →
  _schedule_next_prayer env hass entry =
  {| data := Some (set_unsub_timer (Some (next_handle hass)) store);
     timers :=
       <[next_handle hass :=
           wakeup_for env entry
             (find_next_prayer (offset_of env entry) (now env) (played_today d) (prayers d))]>
         (cancelled (unsub_timer store) (timers hass));
     next_handle := S (next_handle hass);
     journal := journal hass |}.
Proof.
  intros Hs Hd. unfold _schedule_next_prayer, offset_of, wakeup_for. rewrite Hs.
  destruct (unsub_timer store) as [h0|] eqn:Hu; simpl; rewrite Hd;
    destruct (find_next_prayer _ _ _ _); simpl; try done.
  all: unfold async_track_point_in_time, set_data; simpl; by rewrite ?Hs.
Qed.

Lemma schedule_next_prayer_journal env hass entry :
  journal (_schedule_next_prayer env hass entry) = journal hass.
Proof.
  unfold _schedule_next_prayer.
  destruct (data hass) as [store|]; [|done].
  destruct (unsub_timer store); simpl;
    destruct (coordinator_data store); simpl; try done;
    by destruct (find_next_prayer _ _ _ _).
Qed.

(** * Claims about [_schedule_next_prayer] *)

(** C3.  With a table loaded, [_schedule_next_prayer] walks the event list in
    order and takes the first event that is enabled, not in [played_today],
    and whose scheduled time minus the offset lies after [now], a scheduled
    time without a zone being read in the zone of [now] for both the
    subtraction and the comparison (see [eligible]).  It cancels the handle
    it held and arms one timer at scheduled time minus offset, in that zone,
    bound to the event's name; the new handle is kept in [unsub_timer]. *)
Theorem C3_schedule_arms_first_eligible env hass entry store d
    (before after : list Prayer) (p : Prayer) :
  data hass = Some store →
  coordinator_data store = Some d →
  prayers d = (before ++ p :: after)%list →
  Forall (λ q, ¬ eligible (offset_of env entry) (now env) (played_today d) q) before →
  eligible (offset_of env entry) (now env) (played_today d) p →
  let hass' := _schedule_next_prayer env hass entry in
  let h := next_handle hass in
  timers hass' =
    <[h := {| action := _prayer_callback_cb (name p);
              point_in_time :=
                {| wall := (naive (time p) - offset_of env entry * MINUTE)%Z;
                   utcoffset := zone_of (now env) (time p) |} |}]>
      (cancelled (unsub_timer store) (timers hass))
  ∧ unsub_timer <$> data hass' = Some (Some h).
Proof.
  intros Hs Hd Hl Hbefore Hp. simpl.
  rewrite (schedule_next_prayer_loaded _ _ _ _ _ Hs Hd), Hl.
  rewrite (find_next_prayer_first _ _ _ _ after _ Hbefore Hp). simpl.
  split; [|done]. do 2 f_equal.
  unfold sub_minutes, localize, zone_of. by destruct (tzinfo (time p)).
Qed.

(** Scenario A: Fajr at 05:00 and Dhuhr at 12:00, ten minutes of lead, now
    04:00: the timer is armed at 04:50 and bound to Fajr. *)
Lemma C3_scenario_A :
  let hass' :=
    _schedule_next_prayer (Scenario.env_at 4 0 true)
      (Scenario.fresh Scenario.morning) Scenario.entry in
  timers hass' =
    <[0%nat := {| action := _prayer_callback_cb "Fajr";
                  point_in_time := {| wall := clock 4 50; utcoffset := 0 |} |}]> ∅
  ∧ unsub_timer <$> data hass' = Some (Some 0%nat).
Proof.
  apply (C3_schedule_arms_first_eligible (Scenario.env_at 4 0 true)
           (Scenario.fresh Scenario.morning) Scenario.entry
           (initial_store Scenario.morning) Scenario.morning
           [] [Scenario.prayer_at "Dhuhr" 12 0] (Scenario.prayer_at "Fajr" 5 0)
           eq_refl eq_refl eq_refl).
  - constructor.
  - split; [reflexivity|]. split; [apply not_elem_of_empty|]. reflexivity.
Defined.

(** * The timer bookkeeping *)

Lemma same_timers_refl hass : same_timers hass hass.
Proof. by repeat split. Qed.

Lemma same_timers_trans h3 h2 h1 :
  same_timers h3 h2 → same_timers h2 h1 → same_timers h3 h1.
Proof. intros (?&?&?) (?&?&?). repeat split; congruence. Qed.

Lemma same_timers_tracked hass' hass :
  same_timers hass' hass → tracked hass → tracked hass'.
Proof.
  intros (Hs & Ht & Hn) Htr h t. rewrite Ht, Hs, Hn. apply Htr.
Qed.

Lemma same_timers_emit e hass : same_timers (emit e hass) hass.
Proof. by repeat split. Qed.

Lemma same_timers_notify store hass : same_timers (notify_listeners store hass) hass.
Proof. unfold notify_listeners. destruct (coordinator_data store); by repeat split. Qed.

Lemma same_timers_set_playing b n store hass :
  data hass = Some store →
  same_timers (set_data (Some (set_playing b n store)) hass) hass.
Proof. intros Hs. unfold same_timers, slots. rewrite Hs. by repeat split. Qed.

Lemma same_timers_add_played n store hass :
  data hass = Some store →
  same_timers (set_data (Some (add_played n store)) hass) hass.
Proof.
  intros Hs. unfold same_timers, slots, add_played. rewrite Hs.
  destruct (coordinator_data store); by repeat split.
Qed.

Lemma await_calls_same_timers env calls hass :
  same_timers (await_calls env calls hass).1 hass.
Proof.
  revert hass. induction calls as [|c calls IH]; intros hass; simpl.
  - apply same_timers_refl.
  - destruct (call_succeeds env c).
    + eapply same_timers_trans; [apply IH | apply same_timers_emit].
    + apply same_timers_emit.
Qed.

Lemma await_calls_data env calls hass :
  data (await_calls env calls hass).1 = data hass.
Proof.
  revert hass. induction calls as [|c calls IH]; intros hass; simpl; [done|].
  destruct (call_succeeds env c); [by rewrite IH | done].
Qed.

Lemma tracked_unsub h hass :
  tracked hass → tracked (unsub h hass).
Proof.
  intros Htr h' t. simpl. rewrite lookup_delete_Some. intros [_ Hl]. by apply Htr.
Qed.

(** Cancel-then-arm on the wake-up slot keeps the bookkeeping exact. *)
Lemma tracked_rearm_wakeup hass store t j :
  tracked hass → data hass = Some store → is_wakeup t = true →
  tracked
    {| data := Some (set_unsub_timer (Some (next_handle hass)) store);
       timers := <[next_handle hass := t]> (cancelled (unsub_timer store) (timers hass));
       next_handle := S (next_handle hass);
       journal := j |}.
Proof.
  intros Htr Hs Hw h t'. unfold slots. simpl. rewrite lookup_insert_Some.
  intros [[<- <-]|[Hne Hl]].
  - split; [lia|]. eexists _, _. split; [done|]. by rewrite Hw.
  - assert (timers hass !! h = Some t') as Hold.
    { unfold cancelled in Hl. destruct (unsub_timer store); [|done].
      by apply lookup_delete_Some in Hl as [_ ?]. }
    destruct (Htr _ _ Hold) as (Hlt & w & r & Hsl & Hslot).
    unfold slots in Hsl. rewrite Hs in Hsl. simpl in Hsl. simplify_eq.
    split; [lia|]. eexists _, _. split; [done|].
    destruct (is_wakeup t'); [|done].
    unfold cancelled in Hl. rewrite Hslot in Hl. by rewrite lookup_delete_eq in Hl.
Qed.

(** The same for the reset slot. *)
Lemma tracked_rearm_reset env hass store n :
  tracked hass → data hass = Some store → tracked (rearm_reset env hass store n).
Proof.
  intros Htr Hs h t'. unfold rearm_reset, slots. simpl. rewrite lookup_insert_Some.
  intros [[<- <-]|[Hne Hl]].
  - split; [lia|]. eexists _, _. split; [done|]. done.
  - assert (timers hass !! h = Some t') as Hold.
    { unfold cancelled in Hl. destruct (playback_reset_unsub store); [|done].
      by apply lookup_delete_Some in Hl as [_ ?]. }
    destruct (Htr _ _ Hold) as (Hlt & w & r & Hsl & Hslot).
    unfold slots in Hsl. rewrite Hs in Hsl. simpl in Hsl. simplify_eq.
    split; [lia|]. eexists _, _. split; [done|].
    destruct (is_wakeup t'); [done|].
    unfold cancelled in Hl. rewrite Hslot in Hl. by rewrite lookup_delete_eq in Hl.
Qed.

Lemma wakeup_for_is_wakeup env entry found : is_wakeup (wakeup_for env entry found) = true.
Proof. by destruct found. Qed.

Lemma tracked_schedule_next_prayer env hass entry :
  tracked hass → tracked (_schedule_next_prayer env hass entry).
Proof.
  intros Htr.
  destruct (data hass) as [store|] eqn:Hs.
  - destruct (coordinator_data store) as [d|] eqn:Hd.
    + rewrite (schedule_next_prayer_loaded _ _ _ _ _ Hs Hd).
      apply tracked_rearm_wakeup; [done..|apply wakeup_for_is_wakeup].
    + unfold _schedule_next_prayer. rewrite Hs.
      destruct (unsub_timer store) as [h0|] eqn:Hu; simpl; rewrite Hd; [|done].
      intros h t. unfold slots. simpl. rewrite lookup_delete_Some. intros [Hne Hl].
      destruct (Htr _ _ Hl) as (Hlt & w & r & Hsl & Hslot).
      unfold slots in Hsl. rewrite Hs in Hsl. simpl in Hsl. simplify_eq.
      split; [done|]. eexists _, _. split; [done|].
      destruct (is_wakeup t); [congruence | done].
  - unfold _schedule_next_prayer. by rewrite Hs.
Qed.

(** * The paths through [_play_azan] *)

Lemma claim_played_None hass store n :
  claim_played hass store n = None →
  n ≠ "Test" ∧ ∃ d, coordinator_data store = Some d ∧ n ∈ played_today d.
Proof.
  unfold claim_played. case_bool_decide as Hn; [|done].
  destruct (coordinator_data store) as [d|]; [|done].
  case_bool_decide; [|done]. intros _. eauto.
Qed.

Lemma claim_played_Some hass store n hass1 store1 :
  claim_played hass store n = Some (hass1, store1) →
  (hass1 = hass ∧ store1 = store ∧ (n = "Test" ∨ coordinator_data store = None))
  ∨ (n ≠ "Test" ∧ store1 = add_played n store
     ∧ hass1 = emit (played_today_add n) (set_data (Some store1) hass)
     ∧ ∃ d, coordinator_data store = Some d ∧ n ∉ played_today d).
Proof.
  unfold claim_played. case_bool_decide as Hn.
  - destruct (coordinator_data store) as [d|] eqn:Hd.
    + case_bool_decide; [done|]. intros [= <- <-]. right. eauto 10.
    + intros [= <- <-]. left. eauto.
  - intros [= <- <-]. left. split; [done|]. split; [done|]. left.
    by destruct (decide (n = "Test")).
Qed.

(** One case per way out of [_play_azan], with the state it leaves. *)
Lemma play_azan_inv env hass entry n (P : Hass * Exit → Prop) :
  (data hass = None → P (hass, return_no_store)) →
  (∀ store, data hass = Some store → claim_played hass store n = None →
     P (hass, return_duplicate)) →
  (∀ store hass1 store1,
     data hass = Some store → claim_played hass store n = Some (hass1, store1) →
     truthy (pick_audio_file store1 n) = false
     ∨ path_exists env (default "" (pick_audio_file store1 n)) = false →
     P (hass1, return_no_audio)) →
  (∀ store hass1 store1,
     data hass = Some store → claim_played hass store n = Some (hass1, store1) →
     truthy (pick_audio_file store1 n) = true →
     path_exists env (default "" (pick_audio_file store1 n)) = true →
     build_base_url env entry
       (default (PLAYBACK_MEDIA_PLAYER (const env)) (CONF_PLAYBACK_MODE entry)) = None →
     P (hass1, raise_no_url)) →
  (∀ store hass1 store1 base_url,
     data hass = Some store → claim_played hass store n = Some (hass1, store1) →
     truthy (pick_audio_file store1 n) = true →
     path_exists env (default "" (pick_audio_file store1 n)) = true →
     let playback_mode :=
       default (PLAYBACK_MEDIA_PLAYER (const env)) (CONF_PLAYBACK_MODE entry) in
     build_base_url env entry playback_mode = Some base_url →
     let media_url :=
       base_url ++ "/local/azan/" ++ basename (default "" (pick_audio_file store1 n)) in
     let store2 := set_playing true (Some n) store1 in
     let hass2 := notify_listeners store2 (set_data (Some store2) hass1) in
     match playback_calls env entry playback_mode media_url with
     | inr early => P (hass2, early)
     | inl calls =>
         let hass3 := (await_calls env calls hass2).1 in
         if (await_calls env calls hass2).2
         then P (_schedule_next_prayer env (rearm_reset env hass3 store2 n) entry, completed)
         else
           let store4 := set_playing false None store2 in
           P (notify_listeners store4 (set_data (Some store4) hass3), return_failed)
     end) →
  P (_play_azan_exit env hass entry n).
Proof.
  intros Hnone Hdup Haudio Hurl Hgo. unfold _play_azan_exit.
  destruct (data hass) as [store|] eqn:Hs; [|by apply Hnone].
  destruct (claim_played hass store n) as [[hass1 store1]|] eqn:Hc; [|by eapply Hdup].
  destruct (truthy (pick_audio_file store1 n)) eqn:Ht; simpl;
    [|eapply Haudio; eauto].
  destruct (path_exists env _) eqn:Hex; simpl; [|eapply Haudio; eauto].
  destruct (build_base_url env entry _) as [base_url|] eqn:Hb; [|eapply Hurl; eauto].
  specialize (Hgo store hass1 store1 base_url eq_refl Hc Ht Hex Hb). simpl in Hgo.
  destruct (playback_calls env entry _ _) as [calls|early]; [|done].
  destruct (await_calls env calls _) as [hass3 ok] eqn:Haw. simpl in Hgo.
  destruct ok; simpl; [|done].
  replace (set_data _ (async_track_point_in_time _ _ _))
    with (rearm_reset env hass3 (set_playing true (Some n) store1) n); [done|].
  unfold rearm_reset. simpl. by destruct (playback_reset_unsub store1).
Qed.

Lemma notify_listeners_data store hass : data (notify_listeners store hass) = data hass.
Proof. unfold notify_listeners. by destruct (coordinator_data store). Qed.

Lemma claim_played_data hass store n hass1 store1 :
  data hass = Some store →
  claim_played hass store n = Some (hass1, store1) →
  data hass1 = Some store1 ∧ same_timers hass1 hass ∧ status hass1 = status hass.
Proof.
  intros Hs Hc.
  destruct (claim_played_Some _ _ _ _ _ Hc) as [(-> & -> & _)|(_ & -> & -> & _)].
  - split; [done|]. split; [apply same_timers_refl | done].
  - split; [done|]. split.
    + eapply same_timers_trans; [apply same_timers_emit|by apply same_timers_add_played].
    + unfold status, add_played. simpl. rewrite Hs. by destruct (coordinator_data store).
Qed.

Lemma tracked_play_azan env hass entry n :
  tracked hass → tracked (_play_azan env hass entry n).
Proof.
  intros Htr. unfold _play_azan.
  apply (play_azan_inv env hass entry n (λ r, tracked r.1)); simpl; try done.
  - intros store hass1 store1 Hs Hc _.
    destruct (claim_played_data _ _ _ _ _ Hs Hc) as (_ & Hsame & _).
    by eapply same_timers_tracked.
  - intros store hass1 store1 Hs Hc _ _ _.
    destruct (claim_played_data _ _ _ _ _ Hs Hc) as (_ & Hsame & _).
    by eapply same_timers_tracked.
  - intros store hass1 store1 base_url Hs Hc _ _ _.
    destruct (claim_played_data _ _ _ _ _ Hs Hc) as (Hs1 & Hsame & _).
    set (store2 := set_playing true (Some n) store1).
    set (hass2 := notify_listeners store2 (set_data (Some store2) hass1)).
    assert (tracked hass2) as Htr2.
    { eapply same_timers_tracked; [|exact Htr].
      eapply same_timers_trans; [apply same_timers_notify|].
      eapply same_timers_trans; [by apply same_timers_set_playing | done]. }
    assert (data hass2 = Some store2) as Hs2.
    { unfold hass2. by rewrite notify_listeners_data. }
    destruct (playback_calls env entry _ _) as [calls|early]; [|done].
    pose proof (await_calls_same_timers env calls hass2) as Hsame3.
    pose proof (await_calls_data env calls hass2) as Hs3. rewrite Hs2 in Hs3.
    destruct (await_calls env calls hass2) as [hass3 ok]. simpl in *.
    assert (tracked hass3) as Htr3 by by eapply same_timers_tracked.
    destruct ok; simpl.
    + apply tracked_schedule_next_prayer. by apply tracked_rearm_reset.
    + eapply same_timers_tracked; [|exact Htr3].
      eapply same_timers_trans; [apply same_timers_notify|].
      by apply same_timers_set_playing.
Qed.

Lemma tracked_stop_playback env hass entry :
  tracked hass → tracked (_stop_playback env hass entry).
Proof.
  intros Htr. unfold _stop_playback.
  destruct (data hass) as [store|] eqn:Hs; [|done].
  eapply same_timers_tracked; [|exact Htr].
  eapply same_timers_trans; [apply same_timers_notify|].
  assert (same_timers (set_data (Some (set_playing false None store)) hass) hass)
    by by apply same_timers_set_playing.
  repeat case_match; try done;
    (eapply same_timers_trans; [apply same_timers_emit | done]).
Qed.

Lemma tracked_reset_playing hass n :
  tracked hass → tracked (_reset_playing hass n).
Proof.
  intros Htr. unfold _reset_playing.
  destruct (data hass) as [store|] eqn:Hs; [|done].
  case_bool_decide; [|done].
  eapply same_timers_tracked; [|exact Htr].
  eapply same_timers_trans; [apply same_timers_notify|].
  by apply same_timers_set_playing.
Qed.

Lemma same_timers_async_refresh fetched hass : same_timers (async_refresh fetched hass) hass.
Proof.
  unfold async_refresh, same_timers, slots.
  destruct (data hass) as [store|] eqn:Hs; destruct fetched; simpl; by rewrite ?Hs.
Qed.

Lemma tracked_prayer_callback env hass entry n :
  tracked hass → tracked (_prayer_callback env hass entry n).
Proof.
  intros Htr. unfold _prayer_callback.
  repeat case_match; try done;
    by (apply tracked_schedule_next_prayer || apply tracked_play_azan).
Qed.

Lemma tracked_fire env hass entry h :
  tracked hass → tracked (fire env hass entry h).
Proof.
  intros Htr. unfold fire, _midnight_refresh.
  destruct (timers hass !! h) as [t|]; [|done].
  pose proof (tracked_unsub h _ Htr) as Htr'.
  destruct (action t).
  - apply tracked_schedule_next_prayer.
    eapply same_timers_tracked; [apply same_timers_emit | done].
  - by apply tracked_prayer_callback.
  - by apply tracked_reset_playing.
Qed.

Lemma tracked_unload hass unloaded :
  tracked hass → tracked (async_unload_entry hass unloaded).
Proof.
  intros Htr. unfold async_unload_entry.
  destruct (data hass) as [store|] eqn:Hs; [|done].
  set (hass1 := match unsub_timer store with Some h => unsub h hass | None => hass end).
  set (hass2 := match playback_reset_unsub store with Some h => unsub h hass1 | None => hass1 end).
  assert (tracked hass2) as Htr2.
  { unfold hass2, hass1. repeat case_match; repeat apply tracked_unsub; done. }
  destruct unloaded; [|done].
  intros h t Hl. exfalso. simpl in Hl.
  assert (timers hass !! h = Some t ∧ unsub_timer store ≠ Some h
          ∧ playback_reset_unsub store ≠ Some h) as (Hold & Hw & Hr).
  { unfold hass2, hass1 in Hl.
    destruct (unsub_timer store) as [hw|], (playback_reset_unsub store) as [hr|];
      simpl in Hl; repeat (apply lookup_delete_Some in Hl as [? Hl]);
      (split; [done|split; congruence]). }
  destruct (Htr _ _ Hold) as (_ & w & r & Hsl & Hslot).
  unfold slots in Hsl. rewrite Hs in Hsl. simpl in Hsl. simplify_eq.
  by destruct (is_wakeup t).
Qed.

Lemma tracked_setup env entry first : tracked (async_setup_entry env entry first).
Proof.
  apply tracked_schedule_next_prayer. intros h t Hl. simpl in Hl.
  by rewrite lookup_empty in Hl.
Qed.

Lemma tracked_run env hass entry op :
  tracked hass → tracked (run env hass entry op).
Proof.
  intros Htr. destruct op; simpl.
  - by apply tracked_play_azan.
  - by apply tracked_stop_playback.
  - unfold handle_refresh_times. destruct (data hass); [|done].
    apply tracked_schedule_next_prayer.
    eapply same_timers_tracked; [apply same_timers_async_refresh | done].
  - by apply tracked_fire.
  - eapply same_timers_tracked; [apply same_timers_async_refresh | done].
  - eapply same_timers_tracked; [|exact Htr].
    unfold same_timers, slots. simpl. by destruct (data hass).
  - eapply same_timers_tracked; [|exact Htr].
    unfold same_timers, slots. simpl. by destruct (data hass).
  - by apply tracked_unload.
Qed.

Lemma reachable_tracked entry hass : reachable entry hass → tracked hass.
Proof.
  induction 1 as [env first|env hass op _ IH].
  - apply tracked_setup.
  - by apply tracked_run.
Qed.

Lemma armed_lookup kind hass h t :
  (h, t) ∈ armed kind hass ↔ kind t = true ∧ timers hass !! h = Some t.
Proof. unfold armed. by rewrite list_elem_of_filter, elem_of_map_to_list. Qed.

Lemma tracked_at_most_one kind hass :
  tracked hass →
  (∀ t t', kind t = true → kind t' = true → is_wakeup t = is_wakeup t') →
  (length (armed kind hass) ≤ 1)%nat.
Proof.
  intros Htr Hkind.
  assert (NoDup (armed kind hass)) as Hnd
    by (apply NoDup_filter, NoDup_map_to_list).
  pose proof (armed_lookup kind hass) as Hin.
  destruct (armed kind hass) as [|[h1 t1] [|[h2 t2] l]]; simpl; [lia..|].
  exfalso.
  destruct (proj1 (Hin h1 t1)) as [Hk1 Hl1]; [apply elem_of_cons; by left|].
  destruct (proj1 (Hin h2 t2)) as [Hk2 Hl2];
    [apply elem_of_cons; right; apply elem_of_cons; by left|].
  destruct (Htr _ _ Hl1) as (_ & w & r & Hsl & Hslot1).
  destruct (Htr _ _ Hl2) as (_ & w' & r' & Hsl' & Hslot2).
  rewrite Hsl in Hsl'. simplify_eq.
  rewrite (Hkind t1 t2 Hk1 Hk2) in Hslot1.
  assert (h1 = h2) as -> by (destruct (is_wakeup t2); congruence).
  assert (t1 = t2) as -> by congruence.
  apply NoDup_cons in Hnd as [Hnotin _]. apply Hnotin. apply elem_of_cons. by left.
Qed.

(** * Claims about the timers *)

(** C7.  In every state reached from the set-up of an entry by service calls
    (play, stop, refresh), timer firings, a started refresh delivering, the
    download storing a file, or the unload, at most one wake-up timer and at
    most one playback-reset timer are pending: a timer is only ever armed
    after the handle held in its slot has been called (see
    [schedule_next_prayer_loaded] and [rearm_reset]). *)
Theorem C7_at_most_one_timer_of_each_kind entry hass :
  reachable entry hass →
  (length (armed is_wakeup hass) ≤ 1)%nat ∧ (length (armed is_reset hass) ≤ 1)%nat.
Proof.
  intros Hr. apply reachable_tracked in Hr.
  split; apply tracked_at_most_one; try done.
  - intros t t' Ht Ht'. congruence.
  - unfold is_reset. intros t t'. by destruct (is_wakeup t), (is_wakeup t').
Qed.

(** A reachable state with both kinds of timer pending: set up at 17:00,
    audio stored, then a manual Test playback at 17:50. *)
Lemma C7_after_test_playback :
  let hass :=
    run (Scenario.env_at 17 50 true)
      (Scenario.ready 17 0 Scenario.entry Scenario.evening) Scenario.entry
      (play_azan "Test") in
  (length (armed is_wakeup hass) ≤ 1)%nat ∧ (length (armed is_reset hass) ≤ 1)%nat.
Proof.
  apply (C7_at_most_one_timer_of_each_kind Scenario.entry).
  unfold Scenario.ready. do 2 apply reachable_run. apply reachable_setup.
Defined.

(** * The playback status *)

Lemma status_schedule_next_prayer env hass entry :
  status (_schedule_next_prayer env hass entry) = status hass.
Proof.
  unfold _schedule_next_prayer, status.
  destruct (data hass) as [store|] eqn:Hs; [|by rewrite Hs].
  destruct (unsub_timer store); simpl;
    destruct (coordinator_data store); simpl; rewrite ?Hs; try done;
    by destruct (find_next_prayer _ _ _ _).
Qed.

Lemma status_set_playing b c store hass :
  status (set_data (Some (set_playing b c store)) hass) = Some (b, c).
Proof. done. Qed.

Lemma status_notify store hass : status (notify_listeners store hass) = status hass.
Proof. unfold status. by rewrite notify_listeners_data. Qed.

(** Where a call of [_play_azan] can leave the playback status. *)
Lemma status_play_azan env hass entry n :
  let r := _play_azan_exit env hass entry n in
  match r.2 with
  | return_no_store | return_duplicate | return_no_audio | raise_no_url =>
      status r.1 = status hass
  | return_no_media_player | return_no_notify_service | completed =>
      status r.1 = Some (true, Some n)
  | return_failed => status r.1 = Some (false, None)
  end.
Proof.
  apply (play_azan_inv env hass entry n
           (λ r, match r.2 with
                 | return_no_store | return_duplicate | return_no_audio | raise_no_url =>
                     status r.1 = status hass
                 | return_no_media_player | return_no_notify_service | completed =>
                     status r.1 = Some (true, Some n)
                 | return_failed => status r.1 = Some (false, None)
                 end)); simpl; try done.
  - intros store hass1 store1 Hs Hc _. by destruct (claim_played_data _ _ _ _ _ Hs Hc) as (_&_&?).
  - intros store hass1 store1 Hs Hc _ _ _.
    by destruct (claim_played_data _ _ _ _ _ Hs Hc) as (_&_&?).
  - intros store hass1 store1 base_url Hs Hc _ _ _.
    unfold playback_calls.
    repeat case_match; simplify_eq; simpl;
      rewrite ?status_schedule_next_prayer, ?status_notify; done.
Qed.

Lemma coherent_status hass' hass :
  status hass' = status hass → coherent hass → coherent hass'.
Proof. intros Hst Hco b c. rewrite Hst. apply Hco. Qed.

Lemma coherent_busy hass n : status hass = Some (true, Some n) → coherent hass.
Proof. intros Hst b c. rewrite Hst. intros [= <- <-]. split; eauto. Qed.

Lemma coherent_idle hass : status hass = Some (false, None) → coherent hass.
Proof.
  intros Hst b c. rewrite Hst. intros [= <- <-].
  split; [done|]. by intros [? ?].
Qed.

Lemma coherent_play_azan env hass entry n :
  coherent hass → coherent (_play_azan env hass entry n).
Proof.
  intros Hco. unfold _play_azan.
  pose proof (status_play_azan env hass entry n) as Hst. simpl in Hst.
  destruct (_play_azan_exit env hass entry n).2;
    eauto using coherent_status, coherent_busy, coherent_idle.
Qed.

Lemma coherent_reset_playing hass n : coherent hass → coherent (_reset_playing hass n).
Proof.
  intros Hco. unfold _reset_playing.
  destruct (data hass) as [store|]; [|done]. case_bool_decide; [|done].
  apply coherent_idle. by rewrite status_notify.
Qed.

Lemma coherent_stop_playback env hass entry :
  coherent hass → coherent (_stop_playback env hass entry).
Proof.
  intros Hco. unfold _stop_playback.
  destruct (data hass) as [store|]; [|done].
  apply coherent_idle. rewrite status_notify. by repeat case_match.
Qed.

Lemma status_async_refresh fetched hass : status (async_refresh fetched hass) = status hass.
Proof.
  unfold async_refresh, status.
  destruct (data hass) as [store|] eqn:Hs; destruct fetched; simpl; by rewrite ?Hs.
Qed.

Lemma coherent_run env hass entry op : coherent hass → coherent (run env hass entry op).
Proof.
  intros Hco. destruct op; simpl.
  - by apply coherent_play_azan.
  - by apply coherent_stop_playback.
  - unfold handle_refresh_times. destruct (data hass) eqn:Hs; [|done].
    eapply coherent_status; [|exact Hco].
    by rewrite status_schedule_next_prayer, status_async_refresh.
  - unfold fire, _midnight_refresh, _prayer_callback.
    destruct (timers hass !! h) as [t|]; [|done].
    assert (coherent (unsub h hass)) as Hco' by done.
    destruct (action t).
    + eapply coherent_status; [|exact Hco']. by rewrite status_schedule_next_prayer.
    + repeat case_match; try done.
      * eapply coherent_status; [|exact Hco']. by rewrite status_schedule_next_prayer.
      * by apply coherent_play_azan.
      * by apply coherent_play_azan.
    + by apply coherent_reset_playing.
  - eapply coherent_status; [apply status_async_refresh | done].
  - eapply coherent_status; [|exact Hco]. unfold status. simpl. by destruct (data hass).
  - eapply coherent_status; [|exact Hco]. unfold status. simpl. by destruct (data hass).
  - unfold async_unload_entry. destruct (data hass) as [store|] eqn:Hs; [|done].
    destruct unloaded.
    + intros b c. unfold status. by repeat case_match.
    + eapply coherent_status; [|exact Hco]. unfold status. by repeat case_match.
Qed.

Lemma reachable_coherent entry hass : reachable entry hass → coherent hass.
Proof.
  induction 1 as [env first|env hass op _ IH].
  - apply coherent_idle. unfold async_setup_entry. by rewrite status_schedule_next_prayer.
  - by apply coherent_run.
Qed.

(** C8.  In a reachable state whose playback status is not Playing(X), the
    callback of a reset timer bound to X changes nothing: the state after
    [_reset_playing] is the state before it; and when the host fires such a
    timer, all that happens is that the timer itself is gone. *)
Theorem C8_stale_reset_is_noop entry hass X :
  reachable entry hass →
  (∀ store, data hass = Some store → ¬ playing store X) →
  _reset_playing hass X = hass
  ∧ ∀ env h t,
      timers hass !! h = Some t → action t = _reset_playing_cb X →
      fire env hass entry h = unsub h hass.
Proof.
  intros Hr Hnot.
  assert (∀ hass', data hass' = data hass → _reset_playing hass' X = hass') as Hnoop.
  { intros hass' Hd. unfold _reset_playing. rewrite Hd.
    destruct (data hass) as [store|] eqn:Hs; [|done].
    case_bool_decide as Hcur; [|done].
    exfalso. apply (Hnot store eq_refl). split; [|done].
    apply (reachable_coherent _ _ Hr _ (currently_playing store)).
    - unfold status. by rewrite Hs.
    - by rewrite Hcur. }
  split; [by apply Hnoop|].
  intros env h t Hl Ha. unfold fire. rewrite Hl, Ha. by apply Hnoop.
Qed.

(** C8 at work: a Test playback at 17:50 arms reset timer 1; playback is
    stopped a minute later; when timer 1 then fires, nothing changes. *)
Lemma C8_reset_after_stop :
  let hass :=
    run (Scenario.env_at 17 51 true)
      (run (Scenario.env_at 17 50 true)
         (Scenario.ready 17 0 Scenario.entry Scenario.evening) Scenario.entry
         (play_azan "Test"))
      Scenario.entry stop_playback in
  _reset_playing hass "Test" = hass
  ∧ fire (Scenario.env_at 17 55 true) hass Scenario.entry 1 = unsub 1 hass.
Proof.
  intros hass.
  destruct (C8_stale_reset_is_noop Scenario.entry hass "Test") as [Hnoop Hfire].
  - unfold hass, Scenario.ready. do 3 apply reachable_run. apply reachable_setup.
  - intros store Hs [Hp _]. vm_compute in Hs. injection Hs as <-. discriminate Hp.
  - split; [exact Hnoop|]. eapply Hfire; reflexivity.
Defined.

(** * The journal and the table along [_play_azan] *)

Lemma issued_app hass hass' suffix :
  journal hass' = (journal hass ++ suffix)%list → issued hass hass' = suffix.
Proof. intros Hj. unfold issued. rewrite Hj. by rewrite drop_app_length. Qed.

Lemma journal_notify store hass :
  journal (notify_listeners store hass) =
    (journal hass ++ match coordinator_data store with
                    | Some _ => [async_set_updated_data]
                    | None => []
                    end)%list.
Proof.
  unfold notify_listeners. destruct (coordinator_data store); simpl; [done|].
  by rewrite app_nil_r.
Qed.

Lemma await_calls_journal env calls hass :
  journal (await_calls env calls hass).1 =
    (journal hass ++ (async_call <$> attempted env calls))%list.
Proof.
  revert hass. induction calls as [|c calls IH]; intros hass; simpl.
  - by rewrite app_nil_r.
  - destruct (call_succeeds env c); simpl; [|done].
    rewrite IH. simpl. by rewrite <- app_assoc.
Qed.

Lemma await_calls_failed env calls hass :
  (await_calls env calls hass).2 = false →
  ∃ c, c ∈ attempted env calls ∧ call_succeeds env c = false.
Proof.
  revert hass. induction calls as [|c calls IH]; intros hass; simpl; [done|].
  destruct (call_succeeds env c) eqn:Hc.
  - intros Hf. destruct (IH _ Hf) as (c' & Hin & Hc'). exists c'.
    split; [by apply elem_of_cons; right | done].
  - intros _. exists c. split; [by apply elem_of_cons; left | done].
Qed.

Lemma await_calls_ok env calls hass :
  (await_calls env calls hass).2 = true →
  Forall (λ c, call_succeeds env c = true) (attempted env calls).
Proof.
  revert hass. induction calls as [|c calls IH]; intros hass; simpl; [done|].
  destruct (call_succeeds env c) eqn:Hc; [|done].
  intros Hok. constructor; [done|]. by eapply IH.
Qed.

Lemma attempted_subset env calls c : c ∈ attempted env calls → c ∈ calls.
Proof.
  induction calls as [|c' calls IH]; simpl; [done|].
  rewrite !elem_of_cons. intros [->|Hin]; [by left|].
  right. destruct (call_succeeds env c'); [by apply IH | by apply elem_of_nil in Hin].
Qed.

Lemma table_notify store hass : table (notify_listeners store hass) = table hass.
Proof. unfold table. by rewrite notify_listeners_data. Qed.

Lemma table_schedule_next_prayer env hass entry :
  table (_schedule_next_prayer env hass entry) = table hass.
Proof.
  unfold _schedule_next_prayer, table.
  destruct (data hass) as [store|] eqn:Hs; [|by rewrite Hs].
  destruct (unsub_timer store); simpl;
    destruct (coordinator_data store) eqn:Hd; simpl; rewrite ?Hs; simpl; try done;
    by destruct (find_next_prayer _ _ _ _).
Qed.

Lemma claim_played_journal hass store n hass1 store1 :
  claim_played hass store n = Some (hass1, store1) →
  (journal hass1 = journal hass ∧ coordinator_data store1 = coordinator_data store
   ∧ (n = "Test" ∨ coordinator_data store = None))
  ∨ (journal hass1 = (journal hass ++ [played_today_add n])%list
     ∧ n ≠ "Test"
     ∧ ∃ d, coordinator_data store = Some d ∧ (n ∉ played_today d)
            ∧ coordinator_data store1 =
                Some {| prayers := prayers d; played_today := {[n]} ∪ played_today d |}).
Proof.
  intros Hc.
  destruct (claim_played_Some _ _ _ _ _ Hc) as [(-> & -> & Hwhy)|(Hn & -> & -> & d & Hd & Hnot)].
  - by left.
  - right. split; [done|]. split; [done|]. exists d. split; [done|]. split; [done|].
    unfold add_played. by rewrite Hd.
Qed.

Lemma no_claim_notify store :
  Forall (λ e, is_claim e = false)
    (match coordinator_data store with
     | Some _ => [async_set_updated_data]
     | None => []
     end).
Proof. destruct (coordinator_data store); repeat constructor. Qed.

Lemma no_claim_calls (calls : list ServiceCall) :
  Forall (λ e, is_claim e = false) (async_call <$> calls).
Proof. apply Forall_fmap, Forall_true. done. Qed.

(** Past the guard, [_play_azan] leaves the table alone and journals no
    further claim. *)
Lemma play_azan_frame env hass entry n :
  let r := _play_azan_exit env hass entry n in
  match data hass with
  | None => r.1 = hass
  | Some store =>
      match claim_played hass store n with
      | None => r.1 = hass
      | Some (hass1, store1) =>
          table r.1 = coordinator_data store1
          ∧ ∃ rest, journal r.1 = (journal hass1 ++ rest)%list
                    ∧ Forall (λ e, is_claim e = false) rest
      end
  end.
Proof.
  apply (play_azan_inv env hass entry n
    (λ r, match data hass with
          | None => r.1 = hass
          | Some store =>
              match claim_played hass store n with
              | None => r.1 = hass
              | Some (hass1, store1) =>
                  table r.1 = coordinator_data store1
                  ∧ ∃ rest, journal r.1 = (journal hass1 ++ rest)%list
                            ∧ Forall (λ e, is_claim e = false) rest
              end
          end)); simpl.
  - by intros ->.
  - by intros store -> ->.
  - intros store hass1 store1 Hs Hc _. rewrite Hs, Hc.
    destruct (claim_played_data _ _ _ _ _ Hs Hc) as (Hs1 & _).
    split; [unfold table; by rewrite Hs1|]. exists []. by rewrite app_nil_r.
  - intros store hass1 store1 Hs Hc _ _ _. rewrite Hs, Hc.
    destruct (claim_played_data _ _ _ _ _ Hs Hc) as (Hs1 & _).
    split; [unfold table; by rewrite Hs1|]. exists []. by rewrite app_nil_r.
  - intros store hass1 store1 base_url Hs Hc _ _ _. rewrite Hs, Hc.
    set (store2 := set_playing true (Some n) store1).
    set (hass2 := notify_listeners store2 (set_data (Some store2) hass1)).
    assert (journal hass2 =
              (journal hass1 ++ match coordinator_data store1 with
                                | Some _ => [async_set_updated_data]
                                | None => []
                                end)%list) as Hj2
      by (unfold hass2; rewrite journal_notify; done).
    destruct (playback_calls env entry _ _) as [calls|early].
    + pose proof (await_calls_journal env calls hass2) as Hj3.
      pose proof (await_calls_data env calls hass2) as Hs3.
      destruct (await_calls env calls hass2) as [hass3 ok]. simpl in *.
      rewrite Hj2 in Hj3.
      unfold hass2 in Hs3. rewrite notify_listeners_data in Hs3. simpl in Hs3.
      destruct ok; simpl.
      * split; [by rewrite table_schedule_next_prayer|].
        rewrite schedule_next_prayer_journal. simpl. rewrite Hj3, <- app_assoc.
        eexists. split; [done|].
        apply Forall_app. split; [apply no_claim_notify | apply no_claim_calls].
      * split; [by rewrite table_notify|].
        rewrite journal_notify. simpl. rewrite Hj3, <- !app_assoc.
        eexists. split; [done|].
        rewrite !Forall_app.
        split; [apply no_claim_notify|]. split; [apply no_claim_calls|].
        apply (no_claim_notify store1).
    + simpl. split; [unfold hass2; by rewrite table_notify|].
      rewrite Hj2. eexists. split; [done|]. apply no_claim_notify.
Qed.

Lemma play_azan_duplicate env hass entry n :
  (_play_azan_exit env hass entry n).2 = return_duplicate →
  ∃ store, data hass = Some store ∧ claim_played hass store n = None.
Proof.
  apply (play_azan_inv env hass entry n
    (λ r, r.2 = return_duplicate →
          ∃ store, data hass = Some store ∧ claim_played hass store n = None));
    simpl; try done.
  - eauto.
  - intros store hass1 store1 base_url _ _ _ _ _. unfold playback_calls.
    repeat case_match; simplify_eq; done.
Qed.

(** When nothing stands in the way, a call that gets past the guard issues
    a service call. *)
Lemma play_azan_attempts env hass entry n store hass1 store1 :
  data hass = Some store →
  claim_played hass store n = Some (hass1, store1) →
  can_play env entry store1 n = true →
  ∃ c, async_call c ∈ issued hass (_play_azan_exit env hass entry n).1.
Proof.
  intros Hs Hc Hcan.
  assert (∃ pre, journal hass1 = (journal hass ++ pre)%list) as [pre Hpre].
  { destruct (claim_played_journal _ _ _ _ _ Hc) as [(Hj&_)|(Hj&_)].
    - exists []. by rewrite app_nil_r.
    - eauto. }
  unfold can_play, sink_configured in Hcan.
  apply andb_prop in Hcan as [Hcan Hsink]. apply andb_prop in Hcan as [Hcan Hurl].
  apply andb_prop in Hcan as [Htruthy Hexists].
  apply bool_decide_eq_true in Hurl as [base Hurl].
  unfold _play_azan_exit. rewrite Hs, Hc, Htruthy, Hexists, Hurl. simpl.
  set (media_url := base ++ _).
  set (store2 := set_playing true (Some n) store1).
  set (hass2 := notify_listeners store2 (set_data (Some store2) hass1)).
  assert (∃ c calls, playback_calls env entry
            (default (PLAYBACK_MEDIA_PLAYER (const env)) (CONF_PLAYBACK_MODE entry))
            media_url = inl (c :: calls)) as (c & calls & ->).
  { unfold playback_calls. case_bool_decide; rewrite Hsink; simpl; eauto. }
  exists c.
  pose proof (await_calls_journal env (c :: calls) hass2) as Hj3.
  assert (∃ pre2, journal hass2 = (journal hass ++ pre2)%list) as [pre2 Hj2].
  { unfold hass2. rewrite journal_notify. simpl. rewrite Hpre, <- app_assoc. eauto. }
  rewrite Hj2, <- app_assoc in Hj3.
  assert (async_call c ∈ async_call <$> attempted env (c :: calls)) as Hin
    by (simpl; apply elem_of_cons; by left).
  destruct (await_calls env (c :: calls) hass2) as [hass3 ok]. cbn [fst] in Hj3.
  destruct ok; cbn [negb fst].
  - erewrite issued_app.
    2:{ rewrite schedule_next_prayer_journal. simpl.
        destruct (playback_reset_unsub store1); exact Hj3. }
    rewrite elem_of_app. by right.
  - erewrite issued_app.
    2:{ rewrite journal_notify. cbn [journal set_data]. rewrite Hj3, <- app_assoc. done. }
    rewrite !elem_of_app. eauto.
Qed.

(** * Claims about [_play_azan] *)

(** C2.  With a table loaded: (a) for a real name already in [played_today]
    the call returns at once, state and journal untouched; (b) for a real
    name not yet in it, the first thing the call does is add the name to
    [played_today] (every service call it issues comes later, and no
    second claim), and the name is in the table afterwards; (c) for "Test"
    the guard lets the call through with the state as it was, the call never
    ends as a duplicate, the table is the same afterwards, no claim is
    journalled, and whenever nothing stands in the way of playback a
    service call is issued, whatever [played_today] holds. *)
Theorem C2_dedup_guard env hass entry store d n :
  data hass = Some store →
  coordinator_data store = Some d →
  let r := _play_azan_exit env hass entry n in
  (n ≠ "Test" → n ∈ played_today d → r = (hass, return_duplicate))
  ∧ (n ≠ "Test" → n ∉ played_today d →
       (∃ rest, issued hass r.1 = played_today_add n :: rest
                ∧ Forall (λ e, is_claim e = false) rest)
       ∧ played_today <$> table r.1 = Some ({[n]} ∪ played_today d))
  ∧ (n = "Test" →
       claim_played hass store n = Some (hass, store)
       ∧ r.2 ≠ return_duplicate
       ∧ table r.1 = Some d
       ∧ Forall (λ e, is_claim e = false) (issued hass r.1)
       ∧ (can_play env entry store n = true → ∃ c, async_call c ∈ issued hass r.1)).
Proof.
  intros Hs Hd r.
  pose proof (play_azan_frame env hass entry n) as Hframe. simpl in Hframe.
  rewrite Hs in Hframe. fold r in Hframe.
  split; [|split].
  - intros Hn Hin. unfold r, _play_azan_exit, claim_played.
    by rewrite Hs, Hd, !bool_decide_eq_true_2 by done.
  - intros Hn Hnot.
    destruct (claim_played hass store n) as [[hass1 store1]|] eqn:Hc.
    + destruct Hframe as (Ht & rest & Hj & Hrest).
      destruct (claim_played_journal _ _ _ _ _ Hc)
        as [(_ & _ & [?|?])|(Hj1 & _ & d' & Hd' & _ & Hd1)]; [done|congruence|].
      rewrite Hd in Hd'. injection Hd' as <-.
      split.
      * exists rest. split; [|done]. apply issued_app.
        by rewrite Hj, Hj1, <- app_assoc.
      * by rewrite Ht, Hd1.
    + apply claim_played_None in Hc as (_ & d' & Hd' & Hin). congruence.
  - intros ->.
    assert (claim_played hass store "Test" = Some (hass, store)) as Hc.
    { unfold claim_played. by rewrite bool_decide_eq_false_2 by (by intros []). }
    rewrite Hc in Hframe. destruct Hframe as (Ht & rest & Hj & Hrest).
    split; [done|]. split.
    { intros Hdup. apply play_azan_duplicate in Hdup as (store' & Hs' & Hc').
      congruence. }
    split; [congruence|]. split.
    { by rewrite (issued_app _ _ _ Hj). }
    intros Hcan. by eapply play_azan_attempts.
Qed.

Lemma claim_played_pick hass store n hass1 store1 :
  claim_played hass store n = Some (hass1, store1) →
  pick_audio_file store1 n = pick_audio_file store n.
Proof.
  intros Hc.
  destruct (claim_played_Some _ _ _ _ _ Hc) as [(_ & -> & _)|(_ & -> & _)]; [done|].
  unfold pick_audio_file, add_played. by destruct (coordinator_data store).
Qed.

Lemma no_call_notify store :
  Forall (λ e, is_call e = false)
    (match coordinator_data store with
     | Some _ => [async_set_updated_data]
     | None => []
     end).
Proof. destruct (coordinator_data store); repeat constructor. Qed.

Lemma playback_calls_url env entry mode media_url calls c u :
  playback_calls env entry mode media_url = inl calls →
  c ∈ calls → media_url_of c = Some u → u = media_url.
Proof.
  unfold playback_calls. repeat case_match; intros [= <-]; rewrite ?elem_of_cons;
    intros Hin; repeat destruct Hin as [->|Hin]; try (by apply elem_of_nil in Hin);
    simpl; congruence.
Qed.

(** The service calls of one call of [_play_azan]: what the journal gains is
    some bookkeeping, then the calls, then some bookkeeping. *)
Lemma play_azan_calls env hass entry n :
  let r := _play_azan_exit env hass entry n in
  ∃ pre calls post,
    journal r.1 = (journal hass ++ pre ++ (async_call <$> calls) ++ post)%list
    ∧ Forall (λ e, is_call e = false) pre
    ∧ Forall (λ e, is_call e = false) post
    ∧ (r.2 = return_failed ∨ r.2 = completed ∨ calls = [])
    ∧ (r.2 = return_failed → ∃ c, c ∈ calls ∧ call_succeeds env c = false)
    ∧ (r.2 = completed → Forall (λ c, call_succeeds env c = true) calls)
    ∧ (∀ store c u,
         data hass = Some store → c ∈ calls → media_url_of c = Some u →
         ∃ base file,
           pick_audio_file store n = Some file
           ∧ u = base ++ "/local/azan/" ++ basename file).
Proof.
  apply (play_azan_inv env hass entry n
    (λ r, ∃ pre calls post,
       journal r.1 = (journal hass ++ pre ++ (async_call <$> calls) ++ post)%list
       ∧ Forall (λ e, is_call e = false) pre
       ∧ Forall (λ e, is_call e = false) post
       ∧ (r.2 = return_failed ∨ r.2 = completed ∨ calls = [])
       ∧ (r.2 = return_failed → ∃ c, c ∈ calls ∧ call_succeeds env c = false)
       ∧ (r.2 = completed → Forall (λ c, call_succeeds env c = true) calls)
       ∧ (∀ store c u,
            data hass = Some store → c ∈ calls → media_url_of c = Some u →
            ∃ base file,
              pick_audio_file store n = Some file
              ∧ u = base ++ "/local/azan/" ++ basename file))); simpl.
  - intros _. exists [], [], []. simpl. rewrite app_nil_r. no_calls.
  - intros store _ _. exists [], [], []. simpl. rewrite app_nil_r. no_calls.
  - intros store hass1 store1 _ Hc _.
    destruct (claim_played_journal _ _ _ _ _ Hc) as [(Hj&_)|(Hj&_)];
      [exists []|exists [played_today_add n]]; exists [], []; simpl;
      rewrite Hj, ?app_nil_r; no_calls.
  - intros store hass1 store1 _ Hc _ _ _.
    destruct (claim_played_journal _ _ _ _ _ Hc) as [(Hj&_)|(Hj&_)];
      [exists []|exists [played_today_add n]]; exists [], []; simpl;
      rewrite Hj, ?app_nil_r; no_calls.
  - intros store hass1 store1 base_url Hs Hc Htruthy _ _.
    set (media_url := base_url ++ _).
    set (store2 := set_playing true (Some n) store1).
    set (hass2 := notify_listeners store2 (set_data (Some store2) hass1)).
    assert (∃ pre, journal hass2 = (journal hass ++ pre)%list
                   ∧ Forall (λ e, is_call e = false) pre) as (pre & Hj2 & Hpre).
    { unfold hass2. rewrite journal_notify. simpl.
      destruct (claim_played_journal _ _ _ _ _ Hc) as [(Hj&_)|(Hj&_)]; rewrite Hj.
      - eexists. split; [done|]. apply (no_call_notify store1).
      - rewrite <- app_assoc. eexists. split; [done|].
        constructor; [done|]. apply (no_call_notify store1). }
    destruct (playback_calls env entry _ media_url) as [calls|early] eqn:Hcalls.
    + pose proof (await_calls_journal env calls hass2) as Hj3.
      pose proof (await_calls_failed env calls hass2) as Hfail.
      pose proof (await_calls_ok env calls hass2) as Hok.
      destruct (await_calls env calls hass2) as [hass3 ok]. cbn [fst snd] in *.
      rewrite Hj2, <- app_assoc in Hj3.
      assert (∀ store' c u,
                data hass = Some store' → c ∈ attempted env calls →
                media_url_of c = Some u →
                ∃ base file,
                  pick_audio_file store' n = Some file
                  ∧ u = base ++ "/local/azan/" ++ basename file) as Hurl.
      { intros store' c u Hs' Hin Hu. rewrite Hs in Hs'. injection Hs' as <-.
        apply attempted_subset in Hin.
        rewrite (playback_calls_url _ _ _ _ _ _ _ Hcalls Hin Hu).
        rewrite <- (claim_played_pick _ _ _ _ _ Hc).
        destruct (pick_audio_file store1 n) as [file|] eqn:Hp; [|done].
        by exists base_url, file. }
      destruct ok.
      * exists pre, (attempted env calls), []. cbn [fst snd].
        rewrite schedule_next_prayer_journal. cbn [journal rearm_reset].
        rewrite app_nil_r. no_calls.
      * exists pre, (attempted env calls),
          (match coordinator_data store1 with
           | Some _ => [async_set_updated_data]
           | None => []
           end). cbn [fst snd].
        rewrite journal_notify. cbn [journal set_data]. rewrite Hj3, <- !app_assoc.
        repeat split; auto; try done. apply (no_call_notify store1).
    + exists pre, [], []. cbn [fst snd]. simpl. rewrite Hj2, app_nil_r.
      no_calls. unfold playback_calls in Hcalls. repeat case_match; by simplify_eq.
Qed.

Lemma issued_calls hass hass' pre calls post c :
  journal hass' = (journal hass ++ pre ++ (async_call <$> calls) ++ post)%list →
  Forall (λ e, is_call e = false) pre →
  Forall (λ e, is_call e = false) post →
  async_call c ∈ issued hass hass' ↔ c ∈ calls.
Proof.
  intros Hj Hpre Hpost. rewrite (issued_app _ _ _ Hj), !elem_of_app.
  rewrite Forall_forall in Hpre, Hpost. split.
  - intros [Hin|[Hin|Hin]].
    + by apply Hpre in Hin.
    + apply list_elem_of_fmap in Hin as (c' & [= ->] & Hin). done.
    + by apply Hpost in Hin.
  - intros Hin. right; left. by apply list_elem_of_fmap_2.
Qed.

Lemma calls_of_app l1 l2 : calls_of (l1 ++ l2) = (calls_of l1 ++ calls_of l2)%list.
Proof. apply omap_app. Qed.

Lemma calls_of_no_call l : Forall (λ e, is_call e = false) l → calls_of l = [].
Proof.
  induction 1 as [|e l He _ IH]; [done|].
  unfold calls_of in *. simpl. by destruct e.
Qed.

Lemma calls_of_calls (calls : list ServiceCall) : calls_of (async_call <$> calls) = calls.
Proof.
  induction calls as [|c calls IH]; [done|].
  unfold calls_of in *. simpl. by f_equal.
Qed.

Lemma calls_of_issued hass hass' pre calls post :
  journal hass' = (journal hass ++ pre ++ (async_call <$> calls) ++ post)%list →
  Forall (λ e, is_call e = false) pre →
  Forall (λ e, is_call e = false) post →
  calls_of (issued hass hass') = calls.
Proof.
  intros Hj Hpre Hpost. rewrite (issued_app _ _ _ Hj), !calls_of_app.
  rewrite (calls_of_no_call _ Hpre), (calls_of_no_call _ Hpost), calls_of_calls.
  by rewrite app_nil_r.
Qed.

Lemma await_calls_snd env calls hass :
  (await_calls env calls hass).2 = forallb (call_succeeds env) calls.
Proof.
  revert hass. induction calls as [|c calls IH]; intros hass; simpl; [done|].
  destruct (call_succeeds env c); [apply IH | done].
Qed.

Lemma elem_of_calls_of l c : c ∈ calls_of l ↔ async_call c ∈ l.
Proof.
  unfold calls_of. rewrite list_elem_of_omap. split.
  - intros (e & Hin & He). destruct e; simplify_eq. done.
  - intros Hin. by exists (async_call c).
Qed.

(** Lines 278-281 make the selection that the claim words. *)
Lemma pick_audio_file_selected store n :
  pick_audio_file store n = selected_audio store n.
Proof.
  unfold pick_audio_file, selected_audio, truthy.
  destruct (fajr_audio_file store) as [fajr|]; [|by rewrite andb_false_r].
  case_bool_decide as Hn; simpl.
  - case_bool_decide as Hf; simpl.
    + rewrite decide_False; [done|]. by intros [_ ?].
    + by rewrite decide_True.
  - rewrite decide_False; [done|]. by intros [? _].
Qed.

(** What one call of [_play_azan] on a loaded entry issues, and why: either
    no service call, for one of the reasons listed, or the calls of the
    [try] block, built on the URL of the file picked, up to the first that
    raises. *)
Lemma play_azan_plays env hass entry n store :
  data hass = Some store →
  let r := _play_azan_exit env hass entry n in
  (calls_of (issued hass r.1) = []
   ∧ (r.2 = return_duplicate
      ∨ truthy (pick_audio_file store n) = false
      ∨ path_exists env (default "" (pick_audio_file store n)) = false
      ∨ build_base_url env entry (play_mode env entry) = None
      ∨ sink_configured env entry = false))
  ∨ ∃ file base calls,
      pick_audio_file store n = Some file
      ∧ build_base_url env entry (play_mode env entry) = Some base
      ∧ playback_calls env entry (play_mode env entry)
          (base ++ "/local/azan/" ++ basename file) = inl calls
      ∧ calls ≠ []
      ∧ calls_of (issued hass r.1) = attempted env calls
      ∧ r.2 = if forallb (call_succeeds env) calls then completed else return_failed.
Proof.
  intros Hs.
  apply (play_azan_inv env hass entry n
    (λ r, (calls_of (issued hass r.1) = []
           ∧ (r.2 = return_duplicate
              ∨ truthy (pick_audio_file store n) = false
              ∨ path_exists env (default "" (pick_audio_file store n)) = false
              ∨ build_base_url env entry (play_mode env entry) = None
              ∨ sink_configured env entry = false))
          ∨ ∃ file base calls,
              pick_audio_file store n = Some file
              ∧ build_base_url env entry (play_mode env entry) = Some base
              ∧ playback_calls env entry (play_mode env entry)
                  (base ++ "/local/azan/" ++ basename file) = inl calls
              ∧ calls ≠ []
              ∧ calls_of (issued hass r.1) = attempted env calls
              ∧ r.2 = if forallb (call_succeeds env) calls
                      then completed else return_failed)); simpl.
  - by rewrite Hs.
  - intros store' _ _. left. split; [|by left].
    by rewrite (issued_app _ _ []) by by rewrite app_nil_r.
  - intros store' hass1 store1 Hs' Hc Hmissing. left.
    rewrite Hs in Hs'. injection Hs' as <-.
    rewrite (claim_played_pick _ _ _ _ _ Hc) in Hmissing. split.
    + destruct (claim_played_journal _ _ _ _ _ Hc) as [(Hj&_)|(Hj&_)].
      * by rewrite (issued_app _ _ []) by by rewrite app_nil_r.
      * by rewrite (issued_app _ _ _ Hj).
    + right. destruct Hmissing; [by left | right; by left].
  - intros store' hass1 store1 _ Hc _ _ Hb. left. split.
    + destruct (claim_played_journal _ _ _ _ _ Hc) as [(Hj&_)|(Hj&_)].
      * by rewrite (issued_app _ _ []) by by rewrite app_nil_r.
      * by rewrite (issued_app _ _ _ Hj).
    + do 3 right. by left.
  - intros store' hass1 store1 base_url Hs' Hc Htruthy _ Hb.
    rewrite Hs in Hs'. injection Hs' as <-.
    rewrite (claim_played_pick _ _ _ _ _ Hc) in *.
    destruct (pick_audio_file store n) as [file|] eqn:Hpick; [|done]. simpl.
    set (media_url := base_url ++ _).
    set (store2 := set_playing true (Some n) store1).
    set (hass2 := notify_listeners store2 (set_data (Some store2) hass1)).
    assert (∃ pre, journal hass2 = (journal hass ++ pre)%list
                   ∧ Forall (λ e, is_call e = false) pre) as (pre & Hj2 & Hpre).
    { unfold hass2. rewrite journal_notify. simpl.
      destruct (claim_played_journal _ _ _ _ _ Hc) as [(Hj&_)|(Hj&_)]; rewrite Hj.
      - eexists. split; [done|]. apply (no_call_notify store1).
      - rewrite <- app_assoc. eexists. split; [done|].
        constructor; [done|]. apply (no_call_notify store1). }
    fold (play_mode env entry) in *.
    destruct (playback_calls env entry (play_mode env entry) media_url)
      as [calls|early] eqn:Hcalls.
    + assert (calls ≠ []) as Hne
        by (unfold playback_calls in Hcalls; repeat case_match; by simplify_eq).
      pose proof (await_calls_journal env calls hass2) as Hj3.
      pose proof (await_calls_snd env calls hass2) as Hok.
      destruct (await_calls env calls hass2) as [hass3 ok]. cbn [fst snd] in *.
      rewrite Hj2, <- app_assoc in Hj3. subst ok.
      destruct (forallb (call_succeeds env) calls) eqn:Hall; cbn [fst snd];
        right; exists file, base_url, calls; rewrite ?Hall;
        (split; [done|]); (split; [done|]); (split; [done|]); (split; [done|]).
      * split; [|done]. apply (calls_of_issued _ _ pre _ []); [|done|done].
        rewrite schedule_next_prayer_journal. cbn [journal rearm_reset].
        by rewrite app_nil_r.
      * split; [|done]. eapply (calls_of_issued _ _ pre); [|done|].
        -- rewrite journal_notify. cbn [journal set_data]. rewrite Hj3, <- !app_assoc.
           done.
        -- apply (no_call_notify store1).
    + left. cbn [fst snd]. split.
      * rewrite (issued_app _ _ _ Hj2). by apply calls_of_no_call.
      * do 4 right. unfold playback_calls, sink_configured in *.
        fold (play_mode env entry). repeat case_match; simplify_eq; by apply negb_true_iff.
Qed.

Lemma table_Some hass d :
  table hass = Some d → ∃ store, data hass = Some store ∧ coordinator_data store = Some d.
Proof. unfold table. destruct (data hass) as [store|]; [eauto|done]. Qed.

(** A real name is in [played_today] after any call that was not turned away
    as a duplicate. *)
Lemma play_azan_keeps_claim env hass entry n d :
  n ≠ "Test" → table hass = Some d →
  (_play_azan_exit env hass entry n).2 ≠ return_duplicate →
  played_today <$> table (_play_azan_exit env hass entry n).1
    = Some ({[n]} ∪ played_today d).
Proof.
  intros Hn Ht Hexit. apply table_Some in Ht as (store & Hs & Hd).
  pose proof (play_azan_frame env hass entry n) as Hframe. simpl in Hframe.
  rewrite Hs in Hframe.
  destruct (claim_played hass store n) as [[hass1 store1]|] eqn:Hc.
  - destruct Hframe as (Ht & _).
    destruct (claim_played_journal _ _ _ _ _ Hc)
      as [(_ & _ & [?|?])|(_ & _ & d' & Hd' & _ & Hd1)]; [done|congruence|].
    rewrite Ht, Hd1. simpl. congruence.
  - exfalso. apply Hexit. unfold _play_azan_exit. by rewrite Hs, Hc.
Qed.

(** C4.  When a service call that [_play_azan] issued for playback raises,
    the call ends in its [except] clause and the playback status afterwards
    is Idle ([is_playing] false, [currently_playing] None); and for a real
    name with a table loaded the name is in [played_today] afterwards, next
    to everything that was there before. *)
Theorem C4_failed_playback_goes_idle_keeps_claim env hass entry n c :
  let r := _play_azan_exit env hass entry n in
  async_call c ∈ issued hass r.1 →
  call_succeeds env c = false →
  r.2 = return_failed
  ∧ status r.1 = Some (false, None)
  ∧ (n ≠ "Test" → ∀ d, table hass = Some d →
       played_today <$> table r.1 = Some ({[n]} ∪ played_today d)).
Proof.
  intros r Hin Hc.
  assert (r.2 = return_failed) as Hfailed.
  { destruct (play_azan_calls env hass entry n)
      as (pre & calls & post & Hj & Hpre & Hpost & Hexit & _ & Hok & _).
    apply (issued_calls _ _ _ _ _ _ Hj Hpre Hpost) in Hin.
    destruct Hexit as [?|[Hdone| ->]]; [done| |by apply elem_of_nil in Hin].
    specialize (Hok Hdone). rewrite Forall_forall in Hok.
    apply Hok in Hin. congruence. }
  split; [done|]. split.
  - pose proof (status_play_azan env hass entry n) as Hst. simpl in Hst.
    fold r in Hst. by rewrite Hfailed in Hst.
  - intros Hn d Hd. apply play_azan_keeps_claim; [done..|].
    fold r. by rewrite Hfailed.
Qed.

(** C10.  For a call of [_play_azan] on a loaded entry, let the selected file
    be the Fajr file when the name is "Fajr" and a Fajr file is stored, and
    the general azan file otherwise ([selected_audio]).  (a) Every playback
    URL the call hands to a device is the base URL followed by
    "/local/azan/" and the base name of the selected file.  (b) If the call
    is not turned away as a duplicate, the selected file is stored and on
    disk, a base URL can be had and a device is configured, then the call
    does issue playback: the service calls it makes are those of the mode in
    force, built on the URL of the selected file, up to the first that
    raises, and there is at least one.  (c) If the call is not turned away
    as a duplicate and the selected file is unset or not on disk, the call
    returns at line 285: no service call is issued, the playback status and
    the timers are as before, and for a real name with a table loaded the
    name stays in [played_today]. *)
Theorem C10_audio_selection env hass entry store n :
  data hass = Some store →
  let r := _play_azan_exit env hass entry n in
  let selected := selected_audio store n in
  (∀ c u, async_call c ∈ issued hass r.1 → media_url_of c = Some u →
     ∃ base file, selected = Some file
                  ∧ build_base_url env entry (play_mode env entry) = Some base
                  ∧ u = base ++ "/local/azan/" ++ basename file)
  ∧ (r.2 ≠ return_duplicate →
     ∀ file base,
       selected = Some file → file ≠ "" → path_exists env file = true →
       build_base_url env entry (play_mode env entry) = Some base →
       sink_configured env entry = true →
       ∃ calls,
         playback_calls env entry (play_mode env entry)
           (base ++ "/local/azan/" ++ basename file) = inl calls
         ∧ calls_of (issued hass r.1) = attempted env calls
         ∧ calls_of (issued hass r.1) ≠ []
         ∧ (r.2 = completed ∨ r.2 = return_failed))
  ∧ (r.2 ≠ return_duplicate →
     truthy selected = false ∨ path_exists env (default "" selected) = false →
     r.2 = return_no_audio
     ∧ Forall (λ e, is_call e = false) (issued hass r.1)
     ∧ status r.1 = status hass
     ∧ same_timers r.1 hass
     ∧ (n ≠ "Test" → ∀ d, table hass = Some d →
          played_today <$> table r.1 = Some ({[n]} ∪ played_today d))).
Proof.
  intros Hs r selected.
  pose proof (pick_audio_file_selected store n) as Hpick. fold selected in Hpick.
  pose proof (play_azan_plays env hass entry n store Hs) as Hplays.
  cbn zeta in Hplays. fold r in Hplays.
  split; [|split].
  - intros c u Hin Hu. apply elem_of_calls_of in Hin.
    destruct Hplays as [[Hnone _]|(file & base & calls & Hp & Hb & Hcalls & _ & Hissued & _)].
    + rewrite Hnone in Hin. by apply elem_of_nil in Hin.
    + rewrite Hissued in Hin. apply attempted_subset in Hin.
      exists base, file. split; [congruence|]. split; [done|].
      by eapply playback_calls_url.
  - intros Hexit file base Hsel Hfile Hex Hb Hsink.
    destruct Hplays
      as [[_ Hwhy]|(file' & base' & calls & Hp & Hb' & Hcalls & Hne & Hissued & Hend)].
    + exfalso. rewrite Hpick, Hsel in Hwhy. simpl in Hwhy.
      destruct Hwhy as [?|[Ht|[?|[?|?]]]]; try congruence.
      unfold truthy in Ht. by rewrite bool_decide_eq_false_2 in Ht.
    + assert (file' = file) as -> by congruence.
      assert (base' = base) as -> by congruence.
      exists calls. split; [done|]. split; [done|]. split.
      * rewrite Hissued. destruct calls; [done|]. simpl. done.
      * rewrite Hend. destruct (forallb _ _); [by left | by right].
  - intros Hexit Hmissing. rewrite <- Hpick in Hmissing.
    assert (r.2 = return_no_audio ∧
            ∃ hass1 store1, claim_played hass store n = Some (hass1, store1)
                            ∧ r.1 = hass1) as (Hno & hass1 & store1 & Hc & Hr).
    { unfold r, _play_azan_exit in *. rewrite Hs in *.
      destruct (claim_played hass store n) as [[hass1 store1]|] eqn:Hc; [|done].
      rewrite (claim_played_pick _ _ _ _ _ Hc).
      destruct Hmissing as [->| ->]; simpl; rewrite ?orb_true_r; eauto. }
    destruct (claim_played_data _ _ _ _ _ Hs Hc) as (_ & Hsame & Hst).
    split; [done|]. rewrite Hr. split; [|split; [done|split; [done|]]].
    + destruct (claim_played_journal _ _ _ _ _ Hc) as [(Hj&_)|(Hj&_)].
      * rewrite (issued_app _ _ []); [done|]. by rewrite app_nil_r.
      * rewrite (issued_app _ _ _ Hj). by repeat constructor.
    + intros Hn d Hd. rewrite <- Hr. by apply play_azan_keeps_claim.
Qed.

(** Scenario D: "Fajr" is triggered twice.  The first call claims the name
    before anything else; the second finds it claimed and changes nothing. *)
Lemma C2_scenario_D :
  let env := Scenario.env_at 4 50 true in
  let hass0 := Scenario.ready 4 0 Scenario.entry Scenario.morning in
  let hass1 := _play_azan env hass0 Scenario.entry "Fajr" in
  (∃ rest, issued hass0 hass1 = played_today_add "Fajr" :: rest
           ∧ Forall (λ e, is_claim e = false) rest)
  ∧ _play_azan_exit env hass1 Scenario.entry "Fajr" = (hass1, return_duplicate).
Proof.
  intros env hass0 hass1. split.
  - eapply (C2_dedup_guard env hass0 Scenario.entry _ Scenario.morning "Fajr");
      [reflexivity | reflexivity | done | apply not_elem_of_empty].
  - eapply (C2_dedup_guard env hass1 Scenario.entry _
              {| prayers := prayers Scenario.morning; played_today := {["Fajr"]} |} "Fajr");
      [vm_compute; reflexivity | vm_compute; reflexivity | done
      | simpl; by apply elem_of_singleton].
Defined.

(** Scenario E, first half: the play call for Maghrib raises; the status is
    Idle afterwards and Maghrib stays in [played_today]. *)
Lemma C4_scenario_E :
  let hass0 := Scenario.ready 17 0 Scenario.entry Scenario.evening in
  let r := _play_azan_exit (Scenario.env_at 17 50 false) hass0 Scenario.entry "Maghrib" in
  r.2 = return_failed
  ∧ status r.1 = Some (false, None)
  ∧ played_today <$> table r.1 = Some ({["Maghrib"]} ∪ ∅).
Proof.
  intros hass0 r.
  destruct (C4_failed_playback_goes_idle_keeps_claim
              (Scenario.env_at 17 50 false) hass0 Scenario.entry "Maghrib"
              (media_player_play_media "media_player.hall"
                 "http://ha.local:8123/local/azan/azan.mp3"))
    as (Hfailed & Hidle & Hkept).
  - vm_compute. repeat constructor.
  - reflexivity.
  - split; [exact Hfailed|]. split; [exact Hidle|].
    apply (Hkept ltac:(done) Scenario.evening). reflexivity.
Defined.

(** Fajr is due at 04:50.  With the azan file and the Fajr file both stored,
    the player is handed the Fajr file, and for Dhuhr the azan file; with no
    audio stored yet, the call for Fajr returns without playing and the
    status stays Idle. *)
Lemma C10_fajr_with_and_without_audio :
  let env := Scenario.env_at 4 50 true in
  let bare := async_setup_entry (Scenario.env_at 4 0 true) Scenario.entry Scenario.morning in
  let hass0 :=
    run env (Scenario.ready 4 0 Scenario.entry Scenario.morning) Scenario.entry
      (fajr_downloaded "/config/www/azan/fajr_azan.mp3") in
  calls_of (issued hass0 (_play_azan_exit env hass0 Scenario.entry "Fajr").1)
    = [media_player_play_media "media_player.hall"
         "http://ha.local:8123/local/azan/fajr_azan.mp3"]
  ∧ calls_of (issued hass0 (_play_azan_exit env hass0 Scenario.entry "Dhuhr").1)
    = [media_player_play_media "media_player.hall"
         "http://ha.local:8123/local/azan/azan.mp3"]
  ∧ (_play_azan_exit env bare Scenario.entry "Fajr").2 = return_no_audio
  ∧ Forall (λ e, is_call e = false)
      (issued bare (_play_azan_exit env bare Scenario.entry "Fajr").1)
  ∧ status (_play_azan_exit env bare Scenario.entry "Fajr").1 = Some (false, None).
Proof.
  intros env bare hass0.
  destruct (C10_audio_selection env hass0 Scenario.entry _ "Fajr" eq_refl)
    as (_ & Hfajr & _).
  destruct (Hfajr ltac:(vm_compute; discriminate)
              "/config/www/azan/fajr_azan.mp3" "http://ha.local:8123"
              eq_refl ltac:(discriminate) eq_refl eq_refl eq_refl)
    as (calls1 & Hcalls1 & Hissued1 & _).
  destruct (C10_audio_selection env hass0 Scenario.entry _ "Dhuhr" eq_refl)
    as (_ & Hdhuhr & _).
  destruct (Hdhuhr ltac:(vm_compute; discriminate)
              "/config/www/azan/azan.mp3" "http://ha.local:8123"
              eq_refl ltac:(discriminate) eq_refl eq_refl eq_refl)
    as (calls2 & Hcalls2 & Hissued2 & _).
  destruct (C10_audio_selection env bare Scenario.entry _ "Fajr" eq_refl)
    as (_ & _ & Hmissing).
  destruct (Hmissing ltac:(vm_compute; discriminate) ltac:(by left))
    as (Hexit & Hquiet & Hstatus & _).
  injection Hcalls1 as <-. injection Hcalls2 as <-.
  split; [exact Hissued1|]. split; [exact Hissued2|].
  split; [exact Hexit|]. split; [exact Hquiet | exact Hstatus].
Defined.

(** * Claims about [_stop_playback] *)

(** C5, as the code has it.  Every call of [_stop_playback] on a loaded entry
    sets the playback status to Idle and changes nothing else in the store;
    no timer is cancelled and none is armed, so the pending wake-up timer and
    the pending playback-reset timer both stay as they were, and
    [played_today] is not modified. *)
Theorem C5_stop_goes_idle_touches_no_timer env hass entry store :
  data hass = Some store →
  let hass' := _stop_playback env hass entry in
  data hass' = Some (set_playing false None store)
  ∧ status hass' = Some (false, None)
  ∧ table hass' = table hass
  ∧ slots hass' = slots hass
  ∧ timers hass' = timers hass
  ∧ next_handle hass' = next_handle hass
  ∧ Forall (λ e, is_claim e = false) (issued hass hass').
Proof.
  intros Hs. simpl. unfold _stop_playback. rewrite Hs.
  set (store' := set_playing false None store).
  set (hass1 := set_data (Some store') hass).
  set (hass2 := if bool_decide _ then _ else _).
  assert (data hass2 = Some store' ∧ timers hass2 = timers hass
          ∧ next_handle hass2 = next_handle hass
          ∧ ∃ calls, journal hass2 = (journal hass ++ (async_call <$> calls))%list)
    as (Hs2 & Ht2 & Hn2 & calls & Hj2).
  { unfold hass2. repeat case_match; repeat split; simpl;
      ((by exists []; rewrite app_nil_r) || (by eexists [_])). }
  rewrite notify_listeners_data, Hs2.
  split; [done|].
  unfold status, table, slots. rewrite notify_listeners_data, Hs2, Hs.
  do 3 (split; [done|]).
  destruct (same_timers_notify store' hass2) as (_ & -> & ->).
  do 2 (split; [done|]).
  erewrite issued_app.
  2:{ rewrite journal_notify, Hj2, <- app_assoc. done. }
  apply Forall_app. split; [apply no_claim_calls | apply (no_claim_notify store)].
Qed.

(** A Test playback at 17:50 leaves wake-up timer 2 and reset timer 1
    pending; a stop a minute later leaves both where they were. *)
Lemma C5_stop_after_test :
  let hass :=
    _play_azan (Scenario.env_at 17 50 true)
      (Scenario.ready 17 0 Scenario.entry Scenario.evening) Scenario.entry "Test" in
  let hass' := _stop_playback (Scenario.env_at 17 51 true) hass Scenario.entry in
  status hass' = Some (false, None) ∧ timers hass' = timers hass.
Proof.
  intros hass hass'.
  assert (∃ store, data hass = Some store) as [store Hs]
    by (eexists; vm_compute; reflexivity).
  destruct (C5_stop_goes_idle_touches_no_timer
              (Scenario.env_at 17 51 true) hass Scenario.entry store Hs)
    as (_ & Hidle & _ & _ & Htimers & _).
  split; [exact Hidle | exact Htimers].
Defined.

(** C5 as stated fails: after the same Test playback, reset timer 1 is
    pending, and it is still pending once [_stop_playback] has returned. *)
Lemma C5_stop_leaves_reset_timer_armed :
  let hass :=
    _play_azan (Scenario.env_at 17 50 true)
      (Scenario.ready 17 0 Scenario.entry Scenario.evening) Scenario.entry "Test" in
  let hass' := _stop_playback (Scenario.env_at 17 51 true) hass Scenario.entry in
  playback_reset_unsub <$> data hass = Some (Some 1%nat)
  ∧ armed is_reset hass'
    = [(1%nat, {| action := _reset_playing_cb "Test";
                  point_in_time := {| wall := clock 17 55; utcoffset := 0 |} |})]
  ∧ ¬ (armed is_reset hass' = []).
Proof.
  intros hass hass'.
  assert (armed is_reset hass'
          = [(1%nat, {| action := _reset_playing_cb "Test";
                        point_in_time := {| wall := clock 17 55; utcoffset := 0 |} |})])
    as Harmed by (vm_compute; reflexivity).
  split; [vm_compute; reflexivity|]. split; [exact Harmed|].
  rewrite Harmed. discriminate.
Qed.

(** * Where the code falls short of the claims *)

(** C1 on the code.  Maghrib is due and its wake-up timer 0 fires.  When the
    play call raises, Maghrib is marked played, the status is Idle and no
    timer at all is pending afterwards: [_play_azan] has returned at line 373
    without reaching [_schedule_next_prayer].  The same happens at line 285
    when no audio file is stored. *)
Lemma C1_failed_attempt_arms_no_timer :
  let failing := Scenario.env_at 17 50 false in
  let hass0 := Scenario.ready 17 0 Scenario.entry Scenario.evening in
  let bare := async_setup_entry (Scenario.env_at 17 0 true) Scenario.entry Scenario.evening in
  (action <$> timers hass0 !! 0%nat = Some (_prayer_callback_cb "Maghrib")
   ∧ (_play_azan_exit failing (unsub 0 hass0) Scenario.entry "Maghrib").2 = return_failed
   ∧ played_today <$> table (fire failing hass0 Scenario.entry 0) = Some {["Maghrib"]}
   ∧ timers (fire failing hass0 Scenario.entry 0) = ∅)
  ∧ ((_play_azan_exit failing (unsub 0 bare) Scenario.entry "Maghrib").2 = return_no_audio
     ∧ timers (fire failing bare Scenario.entry 0) = ∅).
Proof. vm_compute. repeat split; reflexivity. Qed.

(** C6 on the code.  With no media player configured, a Test trigger returns
    at line 323: no service call was issued and no reset timer is pending,
    yet the status is left at Playing("Test"). *)
Lemma C6_no_media_player_leaves_playing :
  let hass0 := Scenario.ready 17 0 Scenario.entry_no_player Scenario.evening in
  let r := _play_azan_exit (Scenario.env_at 17 30 true) hass0
             Scenario.entry_no_player "Test" in
  status hass0 = Some (false, None)
  ∧ r.2 = return_no_media_player
  ∧ issued hass0 r.1 = [async_set_updated_data]
  ∧ armed is_reset r.1 = []
  ∧ status r.1 = Some (true, Some "Test").
Proof. vm_compute. repeat split; reflexivity. Qed.

(** C9 on the code.  The entry is set up at 23:00, when both events of the
    evening table are past: rollover timer 0 is armed for 00:01 of the next
    day, bound to [_midnight_refresh], as the claim says.  When it fires at
    00:01 the refresh is only started (line 498) and the reschedule of line
    499 runs at once, on the table of the day before: nothing in it
    qualifies, and the rollover of the day after is armed.  When the refresh
    then delivers the table of the new day, nothing reschedules: the table
    lists Fajr at 05:00, and the only wake-up pending is still that
    rollover.  [handle_refresh_times], in the same state and with the same
    table delivered, awaits the refresh before it reschedules (lines
    551-552), and arms Fajr at 04:50. *)
Lemma C9_rollover_reschedules_before_the_refresh :
  let at_0001 := Scenario.env_at 24 1 true in
  let hass0 :=
    async_setup_entry (Scenario.env_at 23 0 true) Scenario.entry Scenario.evening in
  let hass1 := fire at_0001 hass0 Scenario.entry 0 in
  let hass2 := run at_0001 hass1 Scenario.entry (refresh_task_done (Some Scenario.tomorrow)) in
  let sibling := handle_refresh_times at_0001 hass0 Scenario.entry (Some Scenario.tomorrow) in
  armed is_wakeup hass0
    = [(0%nat, {| action := _midnight_refresh_cb;
                  point_in_time := {| wall := clock 24 1; utcoffset := 0 |} |})]
  ∧ issued hass0 hass1 = [async_refresh_task]
  ∧ table hass1 = Some Scenario.evening
  ∧ armed is_wakeup hass1
    = [(1%nat, {| action := _midnight_refresh_cb;
                  point_in_time := {| wall := clock 48 1; utcoffset := 0 |} |})]
  ∧ table hass2 = Some Scenario.tomorrow
  ∧ armed is_wakeup hass2 = armed is_wakeup hass1
  ∧ table sibling = Some Scenario.tomorrow
  ∧ armed is_wakeup sibling
    = [(1%nat, {| action := _prayer_callback_cb "Fajr";
                  point_in_time := {| wall := clock 28 50; utcoffset := 0 |} |})].
Proof. vm_compute. repeat split; reflexivity. Qed.

(** * Further properties of the scheduler *)

Lemma find_next_prayer_inv off now played l :
  match find_next_prayer off now played l with
  | Some p =>
      ∃ before after,
        l = (before ++ p :: after)%list
        ∧ Forall (λ q, ¬ eligible off now played q) before
        ∧ eligible off now played p
  | None => Forall (λ q, ¬ eligible off now played q) l
  end.
Proof.
  induction l as [|q l IH]; [by constructor|].
  destruct (decide (enabled q = true ∧ (name q ∉ played)
                    ∧ dt_gt (sub_minutes (localize now (time q)) off) now = true))
    as [Hq|Hq].
  - apply eligible_iff in Hq. rewrite (find_next_prayer_take _ _ _ _ _ Hq).
    exists [], l. split; [done|]. split; [constructor | done].
  - rewrite <- eligible_iff in Hq. rewrite (find_next_prayer_skip _ _ _ _ _ Hq).
    destruct (find_next_prayer off now played l) as [p|].
    + destruct IH as (before & after & -> & Hbefore & Hp).
      exists (q :: before), after. split; [done|]. split; [by constructor | done].
    + by constructor.
Qed.

(** X1.  What the loop of [_schedule_next_prayer] returns is always right:
    an event it returns is in the list, qualifies, and no event listed
    before it qualifies; and when it returns nothing, no listed event
    qualifies.  So no timer is ever bound to a disabled, already played or
    past event, and the rollover is never chosen while an event qualifies. *)
Theorem X1_loop_returns_only_first_eligible off now played l :
  match find_next_prayer off now played l with
  | Some p =>
      ∃ before after,
        l = (before ++ p :: after)%list
        ∧ Forall (λ q, ¬ eligible off now played q) before
        ∧ eligible off now played p
  | None => Forall (λ q, ¬ eligible off now played q) l
  end.
Proof. apply find_next_prayer_inv. Qed.

Lemma tomorrow_0001_later now : (instant now < instant (tomorrow_0001 now))%Z.
Proof.
  unfold instant, tomorrow_0001, DAY, MINUTE. simpl.
  pose proof (Z.mul_div_le (wall now + 86400000000) 86400000000 ltac:(lia)).
  pose proof (Z.mod_pos_bound (wall now + 86400000000) 86400000000 ltac:(lia)).
  pose proof (Z.div_mod (wall now + 86400000000) 86400000000 ltac:(lia)).
  lia.
Qed.

Lemma wakeup_for_later env entry d :
  (instant (now env) <
   instant (point_in_time
              (wakeup_for env entry
                 (find_next_prayer (offset_of env entry) (now env)
                    (played_today d) (prayers d)))))%Z.
Proof.
  pose proof (find_next_prayer_inv (offset_of env entry) (now env)
                (played_today d) (prayers d)) as Hinv.
  destruct (find_next_prayer _ _ _ _) as [p|]; simpl.
  - destruct Hinv as (_ & _ & _ & _ & Hp). apply eligible_iff in Hp as (_ & _ & Hgt).
    unfold dt_gt in Hgt. by apply Z.ltb_lt in Hgt.
  - apply tomorrow_0001_later.
Qed.

Lemma wakeup_for_local env entry d :
  Forall (λ p, tzinfo (time p) = None) (prayers d) →
  utcoffset (point_in_time
               (wakeup_for env entry
                  (find_next_prayer (offset_of env entry) (now env)
                     (played_today d) (prayers d))))
  = utcoffset (now env).
Proof.
  intros Hlocal.
  pose proof (find_next_prayer_inv (offset_of env entry) (now env)
                (played_today d) (prayers d)) as Hinv.
  destruct (find_next_prayer _ _ _ _) as [p|]; simpl; [|done].
  destruct Hinv as (before & after & Hl & _ & _).
  rewrite Forall_forall in Hlocal.
  unfold localize. rewrite (Hlocal p); [done|].
  rewrite Hl. apply elem_of_app. right. apply elem_of_cons. by left.
Qed.

(** X2.  With a table loaded whose times carry no zone, the wake-up timer
    that [_schedule_next_prayer] arms, for an event or for the rollover, is
    set in the zone of [now] to a wall-clock reading strictly later than
    that of [now], whatever the offset: the scheduler never arms a wake-up
    at or before the present reading of the local clock. *)
Theorem X2_wakeup_reads_later_than_now env hass entry store d :
  data hass = Some store →
  coordinator_data store = Some d →
  Forall (λ p, tzinfo (time p) = None) (prayers d) →
  ∃ t, timers (_schedule_next_prayer env hass entry) !! next_handle hass = Some t
       ∧ is_wakeup t = true
       ∧ utcoffset (point_in_time t) = utcoffset (now env)
       ∧ (wall (now env) < wall (point_in_time t))%Z.
Proof.
  intros Hs Hd Hlocal. rewrite (schedule_next_prayer_loaded _ _ _ _ _ Hs Hd). simpl.
  eexists. split; [apply lookup_insert_eq|].
  split; [apply wakeup_for_is_wakeup|].
  pose proof (wakeup_for_local env entry d Hlocal) as Hzone.
  pose proof (wakeup_for_later env entry d) as Hlater.
  split; [exact Hzone|]. unfold instant in Hlater. lia.
Qed.

(** At 04:00 with Fajr at 05:00 and ten minutes of lead, the timer armed
    reads later than 04:00. *)
Lemma X2_morning :
  ∃ t, timers (_schedule_next_prayer (Scenario.env_at 4 0 true)
                 (Scenario.fresh Scenario.morning) Scenario.entry) !! 0%nat = Some t
       ∧ is_wakeup t = true
       ∧ utcoffset (point_in_time t) = 0%Z
       ∧ (clock 4 0 < wall (point_in_time t))%Z.
Proof.
  apply (X2_wakeup_reads_later_than_now (Scenario.env_at 4 0 true)
           (Scenario.fresh Scenario.morning) Scenario.entry
           (initial_store Scenario.morning) Scenario.morning eq_refl eq_refl).
  by repeat constructor.
Defined.

(** X3.  When the table lists its events in the order in which they fall due,
    the event the loop returns is the earliest of all that qualify: no
    qualifying event of the table is due before it. *)
Theorem X3_chronological_table_gives_earliest off now played l p :
  chronological off now l →
  find_next_prayer off now played l = Some p →
  ∀ q, q ∈ l → eligible off now played q →
       (target_instant off now p ≤ target_instant off now q)%Z.
Proof.
  intros Hsorted Hfind q Hq Helig.
  pose proof (find_next_prayer_inv off now played l) as Hinv. rewrite Hfind in Hinv.
  destruct Hinv as (before & after & -> & Hbefore & _).
  apply elem_of_app in Hq as [Hq|Hq].
  - rewrite Forall_forall in Hbefore. by destruct (Hbefore q Hq).
  - apply StronglySorted_app_1_r in Hsorted.
    apply StronglySorted_cons in Hsorted as [Hall _].
    apply elem_of_cons in Hq as [->|Hq]; [lia|].
    rewrite Forall_forall in Hall. by apply Hall.
Qed.

(** Fajr before Dhuhr, nothing played, 04:00: Fajr is returned, and Dhuhr,
    which qualifies too, is not due before it. *)
Lemma X3_morning :
  (target_instant 10 {| wall := clock 4 0; utcoffset := 0 |} (Scenario.prayer_at "Fajr" 5 0)
   ≤ target_instant 10 {| wall := clock 4 0; utcoffset := 0 |}
       (Scenario.prayer_at "Dhuhr" 12 0))%Z.
Proof.
  apply (X3_chronological_table_gives_earliest 10
           {| wall := clock 4 0; utcoffset := 0 |} ∅ (prayers Scenario.morning)).
  - repeat constructor. vm_compute. discriminate.
  - reflexivity.
  - apply elem_of_cons. right. apply elem_of_cons. by left.
  - split; [reflexivity|]. split; [apply not_elem_of_empty | reflexivity].
Defined.

Lemma armed_nil kind hass :
  (∀ h t, timers hass !! h = Some t → kind t = false) → armed kind hass = [].
Proof.
  intros Hnone. destruct (armed kind hass) as [|[h t] l] eqn:Harmed; [done|].
  assert ((h, t) ∈ armed kind hass) as Hin by (rewrite Harmed; apply elem_of_cons; by left).
  apply armed_lookup in Hin as [Hk Hl]. apply Hnone in Hl. congruence.
Qed.

Lemma armed_singleton kind hass h t :
  (length (armed kind hass) ≤ 1)%nat →
  timers hass !! h = Some t → kind t = true →
  armed kind hass = [(h, t)].
Proof.
  intros Hlen Hl Hk.
  assert ((h, t) ∈ armed kind hass) as Hin by by apply armed_lookup.
  destruct (armed kind hass) as [|x [|y l]]; simpl in Hlen.
  - by apply elem_of_nil in Hin.
  - apply elem_of_cons in Hin as [->|Hin]; [done|]. by apply elem_of_nil in Hin.
  - lia.
Qed.

Lemma schedule_next_prayer_unloaded env hass entry store :
  data hass = Some store →
  coordinator_data store = None →
  _schedule_next_prayer env hass entry =
  {| data := Some (set_unsub_timer None store);
     timers := cancelled (unsub_timer store) (timers hass);
     next_handle := next_handle hass;
     journal := journal hass |}.
Proof.
  intros Hs Hd. unfold _schedule_next_prayer. rewrite Hs.
  destruct (unsub_timer store) as [h0|] eqn:Hu; simpl; rewrite Hd; [done|].
  destruct hass as [dat tm nh jr]. simpl in *. subst dat.
  destruct store. simpl in *. by subst.
Qed.

(** X4.  With a store but no table loaded, [_schedule_next_prayer] calls the
    handle it holds and arms nothing: afterwards no wake-up timer is
    pending, the wake-up slot is empty, no handle was handed out and nothing
    was journalled. *)
Theorem X4_no_table_cancels_and_arms_nothing env hass entry store :
  tracked hass →
  data hass = Some store →
  coordinator_data store = None →
  let hass' := _schedule_next_prayer env hass entry in
  armed is_wakeup hass' = []
  ∧ unsub_timer <$> data hass' = Some None
  ∧ next_handle hass' = next_handle hass
  ∧ journal hass' = journal hass.
Proof.
  intros Htr Hs Hd hass'.
  assert (tracked hass') as Htr' by by apply tracked_schedule_next_prayer.
  unfold hass' in *. rewrite (schedule_next_prayer_unloaded _ _ _ _ Hs Hd) in *.
  split; [|done].
  apply armed_nil. intros h t Hl.
  destruct (Htr' _ _ Hl) as (_ & w & r & Hsl & Hslot).
  unfold slots in Hsl. simpl in Hsl. injection Hsl as <- <-.
  by destruct (is_wakeup t).
Qed.

(** A store whose table has not arrived yet, holding wake-up timer 0. *)
Lemma X4_table_missing :
  let hass :=
    {| data := Some (set_unsub_timer (Some 0%nat)
                       (set_coordinator_data None (initial_store Scenario.morning)));
       timers := {[ 0%nat := {| action := _midnight_refresh_cb;
                               point_in_time := {| wall := clock 24 1; utcoffset := 0 |} |} ]};
       next_handle := 1; journal := [] |} in
  armed is_wakeup (_schedule_next_prayer (Scenario.env_at 4 0 true) hass Scenario.entry) = [].
Proof.
  intros hass.
  eapply (X4_no_table_cancels_and_arms_nothing (Scenario.env_at 4 0 true) hass
            Scenario.entry _ _ eq_refl eq_refl).
  Unshelve.
  intros h t Hl. unfold hass in Hl. simpl in Hl.
  apply lookup_singleton_Some in Hl as [<- <-]. split; [simpl; lia|].
  by exists (Some 0%nat), None.
Defined.

(** X5.  In a reachable state with a table loaded, once
    [_schedule_next_prayer] has returned exactly one wake-up timer is
    pending: the one it has just armed, whose handle it keeps in
    [unsub_timer]. *)
Theorem X5_schedule_leaves_exactly_one_wakeup env hass entry d :
  reachable entry hass →
  table hass = Some d →
  let hass' := _schedule_next_prayer env hass entry in
  ∃ t, armed is_wakeup hass' = [(next_handle hass, t)]
       ∧ unsub_timer <$> data hass' = Some (Some (next_handle hass)).
Proof.
  intros Hr Ht hass'. apply table_Some in Ht as (store & Hs & Hd).
  assert (tracked hass') as Htr'
    by (apply tracked_schedule_next_prayer; by eapply reachable_tracked).
  unfold hass' in *. rewrite (schedule_next_prayer_loaded _ _ _ _ _ Hs Hd) in *.
  eexists. split; [|done].
  apply armed_singleton.
  - apply tracked_at_most_one; [done|congruence].
  - simpl. apply lookup_insert_eq.
  - apply wakeup_for_is_wakeup.
Qed.

(** After a Test playback at 17:50 the state holds wake-up timer 2; a
    reschedule at 18:00 leaves exactly one wake-up timer, with handle 3. *)
Lemma X5_reschedule_after_test :
  let hass :=
    run (Scenario.env_at 17 50 true)
      (Scenario.ready 17 0 Scenario.entry Scenario.evening) Scenario.entry
      (play_azan "Test") in
  ∃ t, armed is_wakeup (_schedule_next_prayer (Scenario.env_at 18 0 true) hass Scenario.entry)
       = [(3%nat, t)].
Proof.
  intros hass.
  destruct (X5_schedule_leaves_exactly_one_wakeup (Scenario.env_at 18 0 true) hass
              Scenario.entry Scenario.evening) as (t & Harmed & _).
  - unfold hass, Scenario.ready. do 2 apply reachable_run. apply reachable_setup.
  - vm_compute. reflexivity.
  - exists t. exact Harmed.
Defined.

(** * Further invariants *)

(** What is preserved by doing nothing to the timers, by the two
    cancel-then-arm sites, by calling a handle and by the unload is
    preserved by [_play_azan] and by every operation. *)
Lemma play_azan_preserves (I : Hass → Prop) env hass entry n :
  (∀ hass' hass, same_timers hass' hass → I hass → I hass') →
  (∀ hass store, I hass → data hass = Some store → I (rearm_reset env hass store n)) →
  (∀ hass, I hass → I (_schedule_next_prayer env hass entry)) →
  I hass → I (_play_azan env hass entry n).
Proof.
  intros Hframe Hreset Hsched HI. unfold _play_azan.
  apply (play_azan_inv env hass entry n (λ r, I r.1)); simpl; try done.
  - intros store hass1 store1 Hs Hc _.
    destruct (claim_played_data _ _ _ _ _ Hs Hc) as (_ & Hsame & _). eauto.
  - intros store hass1 store1 Hs Hc _ _ _.
    destruct (claim_played_data _ _ _ _ _ Hs Hc) as (_ & Hsame & _). eauto.
  - intros store hass1 store1 base_url Hs Hc _ _ _.
    destruct (claim_played_data _ _ _ _ _ Hs Hc) as (Hs1 & Hsame & _).
    set (store2 := set_playing true (Some n) store1).
    set (hass2 := notify_listeners store2 (set_data (Some store2) hass1)).
    assert (I hass2) as HI2.
    { eapply Hframe; [|exact HI].
      eapply same_timers_trans; [apply same_timers_notify|].
      eapply same_timers_trans; [by apply same_timers_set_playing | done]. }
    assert (data hass2 = Some store2) as Hs2
      by (unfold hass2; by rewrite notify_listeners_data).
    destruct (playback_calls env entry _ _) as [calls|early]; [|done].
    pose proof (await_calls_same_timers env calls hass2) as Hsame3.
    pose proof (await_calls_data env calls hass2) as Hs3. rewrite Hs2 in Hs3.
    destruct (await_calls env calls hass2) as [hass3 ok]. simpl in *.
    assert (I hass3) as HI3 by eauto.
    destruct ok; simpl.
    + apply Hsched. by apply Hreset.
    + eapply Hframe; [|exact HI3].
      eapply same_timers_trans; [apply same_timers_notify|].
      by apply same_timers_set_playing.
Qed.

Lemma same_timers_stop_playback env hass entry :
  same_timers (_stop_playback env hass entry) hass.
Proof.
  unfold _stop_playback.
  destruct (data hass) as [store|] eqn:Hs; [|apply same_timers_refl].
  eapply same_timers_trans; [apply same_timers_notify|].
  assert (same_timers (set_data (Some (set_playing false None store)) hass) hass)
    by by apply same_timers_set_playing.
  repeat case_match; try done;
    (eapply same_timers_trans; [apply same_timers_emit | done]).
Qed.

Lemma same_timers_reset_playing hass n : same_timers (_reset_playing hass n) hass.
Proof.
  unfold _reset_playing.
  destruct (data hass) as [store|] eqn:Hs; [|apply same_timers_refl].
  case_bool_decide; [|apply same_timers_refl].
  eapply same_timers_trans; [apply same_timers_notify|].
  by apply same_timers_set_playing.
Qed.

Lemma run_preserves (I : Hass → Prop) entry :
  (∀ hass' hass, same_timers hass' hass → I hass → I hass') →
  (∀ env hass store n, I hass → data hass = Some store → I (rearm_reset env hass store n)) →
  (∀ env hass, I hass → I (_schedule_next_prayer env hass entry)) →
  (∀ h hass, I hass → I (unsub h hass)) →
  (∀ hass unloaded, I hass → I (async_unload_entry hass unloaded)) →
  ∀ env hass op, I hass → I (run env hass entry op).
Proof.
  intros Hframe Hreset Hsched Hunsub Hunload env hass op HI.
  assert (∀ env hass n, I hass → I (_play_azan env hass entry n)) as Hplay.
  { intros env' hass' n HI'. apply play_azan_preserves; eauto. }
  destruct op; simpl.
  - by apply Hplay.
  - eapply Hframe; [apply same_timers_stop_playback | done].
  - unfold handle_refresh_times. destruct (data hass); [|done].
    apply Hsched. eapply Hframe; [apply same_timers_async_refresh | done].
  - unfold fire, _midnight_refresh, _prayer_callback.
    destruct (timers hass !! h) as [t|]; [|done].
    pose proof (Hunsub h _ HI) as HI'.
    destruct (action t).
    + apply Hsched. eapply Hframe; [apply same_timers_emit | done].
    + repeat case_match; try done; by (apply Hsched || apply Hplay).
    + eapply Hframe; [apply same_timers_reset_playing | done].
  - eapply Hframe; [apply same_timers_async_refresh | done].
  - eapply Hframe; [|exact HI]. unfold same_timers, slots. simpl. by destruct (data hass).
  - eapply Hframe; [|exact HI]. unfold same_timers, slots. simpl. by destruct (data hass).
  - by apply Hunload.
Qed.

Lemma issued_handles_later hass' hass :
  slots hass' = slots hass → (next_handle hass ≤ next_handle hass')%nat →
  issued_handles hass → issued_handles hass'.
Proof.
  intros Hsl Hn HI w r Hwr. rewrite Hsl in Hwr. destruct (HI _ _ Hwr) as [Hw Hr].
  split; intros h Hh; [apply Hw in Hh | apply Hr in Hh]; lia.
Qed.

Lemma issued_handles_schedule_next_prayer env hass entry :
  issued_handles hass → issued_handles (_schedule_next_prayer env hass entry).
Proof.
  intros HI.
  destruct (data hass) as [store|] eqn:Hs.
  - assert (slots hass = Some (unsub_timer store, playback_reset_unsub store)) as Hsl
      by (unfold slots; by rewrite Hs).
    destruct (HI _ _ Hsl) as [_ Hr].
    destruct (coordinator_data store) as [d|] eqn:Hd.
    + rewrite (schedule_next_prayer_loaded _ _ _ _ _ Hs Hd).
      intros w r. unfold slots. simpl. intros [= <- <-].
      split; intros h Hh; [injection Hh as <-; lia | apply Hr in Hh; lia].
    + rewrite (schedule_next_prayer_unloaded _ _ _ _ Hs Hd).
      intros w r. unfold slots. simpl. intros [= <- <-].
      split; intros h Hh; [done | by apply Hr].
  - unfold _schedule_next_prayer. by rewrite Hs.
Qed.

Lemma issued_handles_run env hass entry op :
  issued_handles hass → issued_handles (run env hass entry op).
Proof.
  apply run_preserves.
  - intros hass1 hass0 (Hsl & _ & Hn). apply issued_handles_later; [done|lia].
  - intros env' hass0 store n HI Hs w r. unfold slots. simpl. intros [= <- <-].
    assert (slots hass0 = Some (unsub_timer store, playback_reset_unsub store)) as Hsl
      by (unfold slots; by rewrite Hs).
    destruct (HI _ _ Hsl) as [Hw _].
    split; intros h Hh; [apply Hw in Hh; lia | injection Hh as <-; lia].
  - intros. by apply issued_handles_schedule_next_prayer.
  - intros h hass0. by apply issued_handles_later.
  - intros hass0 unloaded HI. unfold async_unload_entry.
    destruct (data hass0) as [store|] eqn:Hs; [|done].
    destruct unloaded.
    + intros w r. unfold slots. by repeat case_match.
    + eapply issued_handles_later; [| |exact HI]; by repeat case_match.
Qed.

Lemma reachable_issued_handles entry hass : reachable entry hass → issued_handles hass.
Proof.
  induction 1 as [env first|env hass op _ IH].
  - apply issued_handles_schedule_next_prayer. intros w r. unfold slots. simpl.
    intros [= <- <-]. by split.
  - by apply issued_handles_run.
Qed.

(** * The table across operations *)

Lemma table_grows_refl hass : table_grows hass hass.
Proof. intros d Hd. by exists d. Qed.

Lemma table_grows_same hass hass' : table hass' = table hass → table_grows hass hass'.
Proof. intros Ht d Hd. exists d. by rewrite Ht. Qed.

Lemma table_grows_trans h1 h2 h3 :
  table_grows h1 h2 → table_grows h2 h3 → table_grows h1 h3.
Proof.
  intros H12 H23 d Hd. destruct (H12 d Hd) as (d2 & Hd2 & Hp2 & Hs2).
  destruct (H23 d2 Hd2) as (d3 & Hd3 & Hp3 & Hs3).
  exists d3. split; [done|]. split; [congruence | by etrans].
Qed.

Lemma table_stop_playback env hass entry : table (_stop_playback env hass entry) = table hass.
Proof.
  unfold _stop_playback, table.
  destruct (data hass) as [store|] eqn:Hs; [|by rewrite Hs].
  rewrite notify_listeners_data. by repeat case_match.
Qed.

Lemma table_reset_playing hass n : table (_reset_playing hass n) = table hass.
Proof.
  unfold _reset_playing, table.
  destruct (data hass) as [store|] eqn:Hs; [|by rewrite Hs].
  case_bool_decide; [|by rewrite Hs]. by rewrite notify_listeners_data.
Qed.

(** What one call of [_play_azan] does to the table: nothing, or it adds
    the name. *)
Lemma play_azan_table env hass entry n d :
  table hass = Some d →
  ∃ d', table (_play_azan env hass entry n) = Some d'
        ∧ prayers d' = prayers d
        ∧ (played_today d' = played_today d
           ∨ (n ≠ "Test" ∧ played_today d' = {[n]} ∪ played_today d)).
Proof.
  intros Ht. pose proof Ht as Ht'. apply table_Some in Ht' as (store & Hs & Hd).
  pose proof (play_azan_frame env hass entry n) as Hframe. simpl in Hframe.
  rewrite Hs in Hframe. unfold _play_azan.
  destruct (claim_played hass store n) as [[hass1 store1]|] eqn:Hc.
  - destruct Hframe as (-> & _).
    destruct (claim_played_journal _ _ _ _ _ Hc)
      as [(_ & -> & _)|(_ & Hn & d0 & Hd0 & _ & ->)].
    + exists d. eauto.
    + rewrite Hd in Hd0. injection Hd0 as <-. eexists. split; [done|]. eauto.
  - rewrite Hframe. exists d. eauto.
Qed.

Lemma table_grows_play_azan env hass entry n :
  table_grows hass (_play_azan env hass entry n).
Proof.
  intros d Hd. destruct (play_azan_table env hass entry n d Hd) as (d' & Hd' & Hp & Hpl).
  exists d'. split; [done|]. split; [done|].
  destruct Hpl as [->|[_ ->]]; [done | apply union_subseteq_r].
Qed.

Lemma table_grows_run env hass entry op :
  keeps_table op = true → table_grows hass (run env hass entry op).
Proof.
  intros Hkeep. destruct op; simpl.
  - apply table_grows_play_azan.
  - apply table_grows_same, table_stop_playback.
  - destruct fetched; [done|]. unfold handle_refresh_times, async_refresh.
    destruct (data hass) eqn:Hs; rewrite ?Hs; [|apply table_grows_refl].
    apply table_grows_same, table_schedule_next_prayer.
  - unfold fire, _midnight_refresh, _prayer_callback.
    destruct (timers hass !! h) as [t|]; [|apply table_grows_refl].
    destruct (action t).
    + apply table_grows_same. by rewrite table_schedule_next_prayer.
    + change (table_grows (unsub h hass)
                (match data (unsub h hass) with
                 | Some store =>
                     match coordinator_data store with
                     | Some d =>
                         if bool_decide (prayer_name ∈ played_today d)
                         then _schedule_next_prayer env (unsub h hass) entry
                         else _play_azan env (unsub h hass) entry prayer_name
                     | None => _play_azan env (unsub h hass) entry prayer_name
                     end
                 | None => unsub h hass
                 end)).
      repeat case_match;
        first [apply table_grows_refl | apply table_grows_play_azan
              | apply table_grows_same, table_schedule_next_prayer].
    + apply table_grows_same. by rewrite table_reset_playing.
  - destruct fetched; [done|]. unfold async_refresh.
    destruct (data hass); apply table_grows_refl.
  - apply table_grows_same. unfold table. simpl. by destruct (data hass).
  - apply table_grows_same. unfold table. simpl. by destruct (data hass).
  - destruct unloaded; [done|]. apply table_grows_same.
    unfold async_unload_entry, table.
    destruct (data hass) as [store|] eqn:Hs; [|by rewrite Hs].
    destruct (unsub_timer store), (playback_reset_unsub store); simpl; by rewrite Hs.
Qed.

Lemma table_grows_runs steps hass entry :
  Forall (λ step : Env * Op, keeps_table step.2 = true) steps →
  table_grows hass (runs steps hass entry).
Proof.
  intros Hkeep. revert hass.
  induction Hkeep as [|[env op] steps Hop _ IH]; intros hass; [apply table_grows_refl|].
  simpl. eapply table_grows_trans; [by apply table_grows_run | apply IH].
Qed.

Lemma play_azan_turned_away env hass entry n d :
  n ≠ "Test" → table hass = Some d → n ∈ played_today d →
  _play_azan_exit env hass entry n = (hass, return_duplicate).
Proof.
  intros Hn Ht Hin. apply table_Some in Ht as (store & Hs & Hd).
  unfold _play_azan_exit, claim_played.
  by rewrite Hs, Hd, !bool_decide_eq_true_2 by done.
Qed.

(** X6.  An operation other than a refresh that delivers a table or the
    unload that drops the store leaves the events of the table as they are
    and never removes a name from [played_today]. *)
Theorem X6_played_today_only_grows env hass entry op d :
  keeps_table op = true →
  table hass = Some d →
  ∃ d', table (run env hass entry op) = Some d'
        ∧ prayers d' = prayers d
        ∧ played_today d ⊆ played_today d'.
Proof. intros Hkeep Hd. by apply (table_grows_run env hass entry op Hkeep). Qed.

(** Wake-up timer 0 fires for Maghrib and the play call raises: Maghrib has
    joined [played_today], the events are the same. *)
Lemma X6_failed_maghrib :
  ∃ d', table (run (Scenario.env_at 17 50 false)
                 (Scenario.ready 17 0 Scenario.entry Scenario.evening) Scenario.entry
                 (timer_fires 0)) = Some d'
        ∧ prayers d' = prayers Scenario.evening
        ∧ (∅ : gset string) ⊆ played_today d'.
Proof.
  apply (X6_played_today_only_grows (Scenario.env_at 17 50 false)
           (Scenario.ready 17 0 Scenario.entry Scenario.evening) Scenario.entry
           (timer_fires 0) Scenario.evening eq_refl eq_refl).
Defined.

(** X7.  At most once per table.  After a call of [_play_azan] for a real
    name on a loaded entry, however it ended, and after any further
    operations that keep the table, a second call for the same name is
    turned away at the guard with the state untouched, and a wake-up timer
    bound to that name issues nothing when it fires. *)
Theorem X7_second_trigger_is_turned_away env1 env2 hass entry n d steps :
  n ≠ "Test" →
  table hass = Some d →
  Forall (λ step : Env * Op, keeps_table step.2 = true) steps →
  let hass2 := runs steps (_play_azan env1 hass entry n) entry in
  _play_azan_exit env2 hass2 entry n = (hass2, return_duplicate)
  ∧ ∀ h t, timers hass2 !! h = Some t → action t = _prayer_callback_cb n →
           issued hass2 (fire env2 hass2 entry h) = [].
Proof.
  intros Hn Ht Hkeep hass2.
  assert (∃ d2, table hass2 = Some d2 ∧ n ∈ played_today d2) as (d2 & Ht2 & Hin2).
  { destruct (play_azan_table env1 hass entry n d Ht) as (d1 & Ht1 & _ & Hpl).
    assert (n ∈ played_today d1) as Hin1.
    { destruct Hpl as [Hsame|[_ ->]]; [|by apply elem_of_union_l, elem_of_singleton].
      destruct (decide (n ∈ played_today d)) as [Hin|Hnot]; [by rewrite Hsame|].
      exfalso.
      assert ((_play_azan_exit env1 hass entry n).2 ≠ return_duplicate) as Hexit.
      { intros Hdup. apply play_azan_duplicate in Hdup as (store & Hs & Hc).
        apply claim_played_None in Hc as (_ & d0 & Hd0 & Hin0).
        unfold table in Ht. rewrite Hs in Ht. simpl in Ht. congruence. }
      pose proof (play_azan_keeps_claim env1 hass entry n d Hn Ht Hexit) as Hkept.
      unfold _play_azan in Ht1. rewrite Ht1 in Hkept. simpl in Hkept.
      injection Hkept as Hkept. rewrite Hsame in Hkept.
      apply Hnot. rewrite Hkept. by apply elem_of_union_l, elem_of_singleton. }
    destruct (table_grows_runs steps _ entry Hkeep d1 Ht1) as (d2 & Ht2 & _ & Hsub).
    exists d2. split; [done | by apply Hsub]. }
  split; [by eapply play_azan_turned_away|].
  intros h t Hl Ha. unfold fire, _prayer_callback. rewrite Hl, Ha.
  apply table_Some in Ht2 as (store2 & Hs2 & Hd2).
  change (data (unsub h hass2)) with (data hass2). rewrite Hs2, Hd2.
  rewrite bool_decide_eq_true_2 by done.
  apply (issued_app _ _ []). rewrite schedule_next_prayer_journal. simpl.
  by rewrite app_nil_r.
Qed.

(** Fajr is played at 04:50, playback is stopped, a Test follows; a second
    trigger for Fajr at 05:00 is turned away. *)
Lemma X7_fajr_twice :
  let hass2 :=
    runs [(Scenario.env_at 4 51 true, stop_playback);
          (Scenario.env_at 4 52 true, play_azan "Test")]
      (_play_azan (Scenario.env_at 4 50 true)
         (Scenario.ready 4 0 Scenario.entry Scenario.morning) Scenario.entry "Fajr")
      Scenario.entry in
  _play_azan_exit (Scenario.env_at 5 0 true) hass2 Scenario.entry "Fajr"
    = (hass2, return_duplicate).
Proof.
  intros hass2.
  apply (X7_second_trigger_is_turned_away (Scenario.env_at 4 50 true)
           (Scenario.env_at 5 0 true)
           (Scenario.ready 4 0 Scenario.entry Scenario.morning) Scenario.entry "Fajr"
           Scenario.morning
           [(Scenario.env_at 4 51 true, stop_playback);
            (Scenario.env_at 4 52 true, play_azan "Test")]).
  - done.
  - reflexivity.
  - repeat constructor.
Defined.

(** * Further properties of the playback *)

(** The state a completed call of [_play_azan] is built from. *)
Lemma play_azan_completed env hass entry n :
  (_play_azan_exit env hass entry n).2 = completed →
  ∃ hass3 store2,
    same_timers hass3 hass ∧ data hass3 = Some store2
    ∧ (_play_azan_exit env hass entry n).1
      = _schedule_next_prayer env (rearm_reset env hass3 store2 n) entry.
Proof.
  apply (play_azan_inv env hass entry n
    (λ r, r.2 = completed →
          ∃ hass3 store2,
            same_timers hass3 hass ∧ data hass3 = Some store2
            ∧ r.1 = _schedule_next_prayer env (rearm_reset env hass3 store2 n) entry));
    simpl; try done.
  intros store hass1 store1 base_url Hs Hc _ _ _.
  destruct (claim_played_data _ _ _ _ _ Hs Hc) as (Hs1 & Hsame & _).
  set (store2 := set_playing true (Some n) store1).
  set (hass2 := notify_listeners store2 (set_data (Some store2) hass1)).
  assert (same_timers hass2 hass) as Hsame2.
  { eapply same_timers_trans; [apply same_timers_notify|].
    eapply same_timers_trans; [by apply same_timers_set_playing | done]. }
  assert (data hass2 = Some store2) as Hs2
    by (unfold hass2; by rewrite notify_listeners_data).
  destruct (playback_calls env entry _ _) as [calls|early] eqn:Hcalls.
  - pose proof (await_calls_same_timers env calls hass2) as Hsame3.
    pose proof (await_calls_data env calls hass2) as Hs3. rewrite Hs2 in Hs3.
    destruct (await_calls env calls hass2) as [hass3 ok]. simpl in *.
    destruct ok; simpl; [|done]. intros _. exists hass3, store2.
    split; [by eapply same_timers_trans|]. done.
  - unfold playback_calls in Hcalls. repeat case_match; by simplify_eq.
Qed.

(** After a completed call in a state with sound bookkeeping: the reset
    timer just armed is pending under the handle [next_handle hass], which
    is in the reset slot. *)
Lemma play_azan_completed_reset env hass entry n :
  issued_handles hass →
  (_play_azan_exit env hass entry n).2 = completed →
  let hass' := _play_azan env hass entry n in
  timers hass' !! next_handle hass
    = Some {| action := _reset_playing_cb n; point_in_time := add_minutes (now env) 5 |}
  ∧ playback_reset_unsub <$> data hass' = Some (Some (next_handle hass))
  ∧ currently_playing <$> data hass' = Some (Some n).
Proof.
  intros HI Hdone hass'.
  pose proof (status_play_azan env hass entry n) as Hst. simpl in Hst.
  rewrite Hdone in Hst.
  destruct (play_azan_completed _ _ _ _ Hdone)
    as (hass3 & store2 & (Hsl & Htm & Hnh) & Hs3 & Hr).
  unfold hass', _play_azan. rewrite Hr in *. clear Hr hass'.
  assert (∀ h0, unsub_timer store2 = Some h0 → h0 ≠ next_handle hass) as Hold.
  { intros h0 Hh0.
    assert (slots hass = Some (unsub_timer store2, playback_reset_unsub store2)) as Hsl'
      by (rewrite <- Hsl; unfold slots; by rewrite Hs3).
    destruct (HI _ _ Hsl') as [Hw _]. apply Hw in Hh0. lia. }
  assert (status (rearm_reset env hass3 store2 n)
          = Some (is_playing store2, currently_playing store2)) as HstR by done.
  rewrite status_schedule_next_prayer, HstR in Hst. injection Hst as Hplaying Hcur.
  set (storeR := set_playback_reset_unsub (Some (next_handle hass3)) store2).
  destruct (coordinator_data store2) as [d|] eqn:Hd.
  - rewrite (schedule_next_prayer_loaded env (rearm_reset env hass3 store2 n) entry storeR d)
      by done.
    simpl. rewrite Hnh, Hcur. split; [|done].
    rewrite lookup_insert_ne by lia.
    unfold cancelled. destruct (unsub_timer store2) as [h0|] eqn:Hh0.
    + rewrite lookup_delete_ne by (by apply Hold). rewrite Htm. apply lookup_insert_eq.
    + rewrite Htm. apply lookup_insert_eq.
  - rewrite (schedule_next_prayer_unloaded env (rearm_reset env hass3 store2 n) entry storeR)
      by done.
    simpl. rewrite Hnh, Hcur. split; [|done].
    unfold cancelled. destruct (unsub_timer store2) as [h0|] eqn:Hh0.
    + rewrite lookup_delete_ne by (by apply Hold). rewrite Htm. apply lookup_insert_eq.
    + rewrite Htm. apply lookup_insert_eq.
Qed.

(** X8.  When a call of [_play_azan] in a reachable state runs to its end
    (line 395): the status is Playing for that name; exactly one reset timer
    is pending, due five minutes after [now], bound to that name, its handle
    kept in [playback_reset_unsub]; and with a table loaded exactly one
    wake-up timer is pending, armed by this very call. *)
Theorem X8_completed_playback_arms_both_timers env hass entry n :
  reachable entry hass →
  (_play_azan_exit env hass entry n).2 = completed →
  let hass' := _play_azan env hass entry n in
  status hass' = Some (true, Some n)
  ∧ armed is_reset hass'
    = [(next_handle hass,
        {| action := _reset_playing_cb n; point_in_time := add_minutes (now env) 5 |})]
  ∧ playback_reset_unsub <$> data hass' = Some (Some (next_handle hass))
  ∧ (∀ d, table hass = Some d →
       ∃ t, armed is_wakeup hass' = [(S (next_handle hass), t)]).
Proof.
  intros Hr Hdone hass'.
  assert (tracked hass') as Htr'
    by (apply tracked_play_azan; by eapply reachable_tracked).
  destruct (play_azan_completed_reset env hass entry n
              (reachable_issued_handles _ _ Hr) Hdone) as (Hreset & Hslot & _).
  fold hass' in Hreset, Hslot.
  split.
  { pose proof (status_play_azan env hass entry n) as Hst. simpl in Hst.
    by rewrite Hdone in Hst. }
  split.
  { apply armed_singleton; [|done|done].
    apply tracked_at_most_one; [done|].
    unfold is_reset. intros t t'. by destruct (is_wakeup t), (is_wakeup t'). }
  split; [done|].
  intros d Hd.
  destruct (play_azan_completed _ _ _ _ Hdone)
    as (hass3 & store2 & (Hsl & Htm & Hnh) & Hs3 & Hr3).
  destruct (play_azan_table env hass entry n d Hd) as (d' & Hd' & _).
  unfold _play_azan in Hd'. rewrite Hr3, table_schedule_next_prayer in Hd'.
  apply table_Some in Hd' as (storeR & HsR & HdR).
  eexists. apply armed_singleton.
  - apply tracked_at_most_one; [done|congruence].
  - unfold hass', _play_azan. rewrite Hr3.
    rewrite (schedule_next_prayer_loaded _ _ _ _ _ HsR HdR). simpl.
    rewrite Hnh. apply lookup_insert_eq.
  - apply wakeup_for_is_wakeup.
Qed.

(** Test is played at 17:50 in the evening household: reset timer 1 is due
    at 17:55 and a wake-up timer is pending under handle 2. *)
Lemma X8_test_at_1750 :
  let hass0 := Scenario.ready 17 0 Scenario.entry Scenario.evening in
  let hass' := _play_azan (Scenario.env_at 17 50 true) hass0 Scenario.entry "Test" in
  armed is_reset hass'
    = [(1%nat, {| action := _reset_playing_cb "Test";
                  point_in_time := {| wall := clock 17 55; utcoffset := 0 |} |})]
  ∧ ∃ t, armed is_wakeup hass' = [(2%nat, t)].
Proof.
  intros hass0 hass'.
  destruct (X8_completed_playback_arms_both_timers (Scenario.env_at 17 50 true) hass0
              Scenario.entry "Test") as (_ & Hreset & _ & Hwake).
  - unfold hass0, Scenario.ready. apply reachable_run, reachable_setup.
  - vm_compute. reflexivity.
  - split; [exact Hreset|]. apply (Hwake Scenario.evening). reflexivity.
Defined.

(** X9.  Play, then time out.  After a call of [_play_azan] that ran to its
    end in a reachable state, when the reset timer it armed fires before
    anything else happens, the status is Idle again, that timer is the only
    one gone, the table is untouched and no reset timer is left. *)
Theorem X9_reset_timer_ends_the_playback env env' hass entry n :
  reachable entry hass →
  (_play_azan_exit env hass entry n).2 = completed →
  let hass' := _play_azan env hass entry n in
  let hass'' := fire env' hass' entry (next_handle hass) in
  status hass'' = Some (false, None)
  ∧ timers hass'' = delete (next_handle hass) (timers hass')
  ∧ table hass'' = table hass'
  ∧ armed is_reset hass'' = [].
Proof.
  intros Hr Hdone hass' hass''.
  destruct (play_azan_completed_reset env hass entry n
              (reachable_issued_handles _ _ Hr) Hdone) as (Hreset & Hslot & Hcur).
  fold hass' in Hreset, Hslot, Hcur.
  assert (tracked hass'') as Htr''.
  { apply tracked_fire, tracked_play_azan. by eapply reachable_tracked. }
  destruct (data hass') as [store'|] eqn:Hs'; [|done].
  simpl in Hcur, Hslot. injection Hcur as Hcur. injection Hslot as Hslot.
  assert (hass'' = notify_listeners (set_playing false None store')
                     (set_data (Some (set_playing false None store'))
                        (unsub (next_handle hass) hass'))) as Heq.
  { unfold hass'', fire. rewrite Hreset. simpl. unfold _reset_playing. simpl.
    rewrite Hs'. by rewrite bool_decide_eq_true_2. }
  assert (timers hass'' = delete (next_handle hass) (timers hass')) as Htm.
  { rewrite Heq. by destruct (same_timers_notify (set_playing false None store')
      (set_data (Some (set_playing false None store'))
         (unsub (next_handle hass) hass'))) as (_ & -> & _). }
  split; [by rewrite Heq, status_notify|]. split; [done|].
  split.
  { rewrite Heq, table_notify. unfold table. simpl. by rewrite Hs'. }
  apply armed_nil. intros h t Hl.
  destruct (Htr'' _ _ Hl) as (_ & w & r & Hsl & Hh).
  assert (r = Some (next_handle hass)) as ->.
  { rewrite Heq in Hsl. unfold slots in Hsl. rewrite notify_listeners_data in Hsl.
    simpl in Hsl. congruence. }
  unfold is_reset. destruct (is_wakeup t); [done|].
  injection Hh as <-. rewrite Htm, lookup_delete_eq in Hl. done.
Qed.

(** The Test of 17:50 times out at 17:55. *)
Lemma X9_test_times_out :
  let hass0 := Scenario.ready 17 0 Scenario.entry Scenario.evening in
  let hass' := _play_azan (Scenario.env_at 17 50 true) hass0 Scenario.entry "Test" in
  status (fire (Scenario.env_at 17 55 true) hass' Scenario.entry 1) = Some (false, None).
Proof.
  intros hass0 hass'.
  destruct (X9_reset_timer_ends_the_playback (Scenario.env_at 17 50 true)
              (Scenario.env_at 17 55 true) hass0 Scenario.entry "Test")
    as (Hidle & _).
  - unfold hass0, Scenario.ready. apply reachable_run, reachable_setup.
  - vm_compute. reflexivity.
  - exact Hidle.
Defined.

(** The service calls one call of [_play_azan] issues, exactly: none, or
    those of the [try] block up to the first that raises, and then the way
    out is decided by whether one raised. *)
Lemma play_azan_issues env hass entry n :
  let r := _play_azan_exit env hass entry n in
  (calls_of (issued hass r.1) = [] ∧ r.2 ≠ completed ∧ r.2 ≠ return_failed)
  ∨ ∃ media_url list0,
      playback_calls env entry (play_mode env entry) media_url = inl list0
      ∧ calls_of (issued hass r.1) = attempted env list0
      ∧ r.2 = if forallb (call_succeeds env) list0 then completed else return_failed.
Proof.
  apply (play_azan_inv env hass entry n
    (λ r, (calls_of (issued hass r.1) = [] ∧ r.2 ≠ completed ∧ r.2 ≠ return_failed)
          ∨ ∃ media_url list0,
              playback_calls env entry (play_mode env entry) media_url = inl list0
              ∧ calls_of (issued hass r.1) = attempted env list0
              ∧ r.2 = if forallb (call_succeeds env) list0
                      then completed else return_failed)); simpl.
  - intros _. left. split; [|done]. by rewrite (issued_app _ _ []) by by rewrite app_nil_r.
  - intros store _ _. left. split; [|done].
    by rewrite (issued_app _ _ []) by by rewrite app_nil_r.
  - intros store hass1 store1 _ Hc _. left. split; [|done].
    destruct (claim_played_journal _ _ _ _ _ Hc) as [(Hj&_)|(Hj&_)].
    + by rewrite (issued_app _ _ []) by by rewrite app_nil_r.
    + by rewrite (issued_app _ _ _ Hj).
  - intros store hass1 store1 _ Hc _ _ _. left. split; [|done].
    destruct (claim_played_journal _ _ _ _ _ Hc) as [(Hj&_)|(Hj&_)].
    + by rewrite (issued_app _ _ []) by by rewrite app_nil_r.
    + by rewrite (issued_app _ _ _ Hj).
  - intros store hass1 store1 base_url Hs Hc _ _ _.
    set (media_url := base_url ++ _).
    set (store2 := set_playing true (Some n) store1).
    set (hass2 := notify_listeners store2 (set_data (Some store2) hass1)).
    assert (∃ pre, journal hass2 = (journal hass ++ pre)%list
                   ∧ Forall (λ e, is_call e = false) pre) as (pre & Hj2 & Hpre).
    { unfold hass2. rewrite journal_notify. simpl.
      destruct (claim_played_journal _ _ _ _ _ Hc) as [(Hj&_)|(Hj&_)]; rewrite Hj.
      - eexists. split; [done|]. apply (no_call_notify store1).
      - rewrite <- app_assoc. eexists. split; [done|].
        constructor; [done|]. apply (no_call_notify store1). }
    fold (play_mode env entry).
    destruct (playback_calls env entry (play_mode env entry) media_url)
      as [calls|early] eqn:Hcalls.
    + pose proof (await_calls_journal env calls hass2) as Hj3.
      pose proof (await_calls_snd env calls hass2) as Hok.
      destruct (await_calls env calls hass2) as [hass3 ok]. cbn [fst snd] in *.
      rewrite Hj2, <- app_assoc in Hj3. subst ok.
      destruct (forallb (call_succeeds env) calls) eqn:Hall; cbn [fst snd];
        right; exists media_url, calls; rewrite Hall; (split; [done|]).
      * split; [|done]. apply (calls_of_issued _ _ pre _ []); [|done|done].
        rewrite schedule_next_prayer_journal. cbn [journal rearm_reset].
        by rewrite app_nil_r.
      * split; [|done]. eapply (calls_of_issued _ _ pre); [|done|].
        -- rewrite journal_notify. cbn [journal set_data]. rewrite Hj3, <- !app_assoc.
           done.
        -- apply (no_call_notify store1).
    + left. cbn [fst snd]. split.
      * rewrite (issued_app _ _ _ Hj2). by apply calls_of_no_call.
      * unfold playback_calls in Hcalls. repeat case_match; by simplify_eq.
Qed.

(** X10.  In VLC mode the wake-screen command goes first and the launch of
    VLC follows only once it has returned: a call of [_play_azan] issues
    either nothing, or the wake-screen command alone, which raised, and the
    call ends in the [except] clause, or the two commands in that order,
    both to the configured notify service. *)
Theorem X10_vlc_wakes_screen_before_launch env hass entry n :
  play_mode env entry ≠ PLAYBACK_MEDIA_PLAYER (const env) →
  let r := _play_azan_exit env hass entry n in
  calls_of (issued hass r.1) = []
  ∨ ∃ svc u,
      CONF_NOTIFY_SERVICE entry = Some svc
      ∧ ((calls_of (issued hass r.1) = [notify_command_screen_on svc]
          ∧ call_succeeds env (notify_command_screen_on svc) = false
          ∧ r.2 = return_failed)
         ∨ (calls_of (issued hass r.1)
              = [notify_command_screen_on svc; notify_command_activity svc u]
            ∧ call_succeeds env (notify_command_screen_on svc) = true)).
Proof.
  intros Hmode r.
  destruct (play_azan_issues env hass entry n)
    as [(Hnone & _)|(media_url & list0 & Hcalls & Hissued & Hexit)]; [by left|].
  right. fold r in Hissued, Hexit. unfold playback_calls in Hcalls.
  rewrite bool_decide_eq_false_2 in Hcalls by done.
  destruct (CONF_NOTIFY_SERVICE entry) as [svc|]; [|by simpl in Hcalls].
  destruct (truthy (Some svc)); [|by simpl in Hcalls].
  simpl in Hcalls. injection Hcalls as <-.
  exists svc, media_url. split; [done|].
  rewrite Hissued, Hexit. simpl.
  destruct (call_succeeds env (notify_command_screen_on svc)); [|by left].
  right. by destruct (call_succeeds env (notify_command_activity svc media_url)).
Qed.

(** Isha is due on the phone but the wake-screen command raises: VLC is
    never launched. *)
Lemma X10_screen_stays_off :
  let hass0 := Scenario.ready 17 0 Household.vlc Scenario.evening in
  calls_of (issued hass0
              (_play_azan_exit (Household.screen_off_at 19 20) hass0 Household.vlc "Isha").1)
  = [notify_command_screen_on "mobile_app_phone"].
Proof.
  intros hass0.
  destruct (X10_vlc_wakes_screen_before_launch (Household.screen_off_at 19 20) hass0
              Household.vlc "Isha")
    as [Hnone|(svc & u & Hsvc & [(Hone & _)|(_ & Hok)])].
  - vm_compute. discriminate.
  - exfalso. revert Hnone. vm_compute. discriminate.
  - injection Hsvc as <-. exact Hone.
  - exfalso. injection Hsvc as <-. revert Hok. vm_compute. discriminate.
Defined.

Lemma stop_playback_issues env hass entry store :
  data hass = Some store →
  calls_of (issued hass (_stop_playback env hass entry))
  = if bool_decide (stop_mode env entry = PLAYBACK_MEDIA_PLAYER (const env))
    then if truthy (CONF_MEDIA_PLAYER entry)
         then [media_player_media_stop (default "" (CONF_MEDIA_PLAYER entry))]
         else []
    else if truthy (CONF_NOTIFY_SERVICE entry)
         then [notify_command_media (default "" (CONF_NOTIFY_SERVICE entry))]
         else [].
Proof.
  intros Hs. unfold _stop_playback, stop_mode. rewrite Hs.
  set (store' := set_playing false None store).
  set (post := match coordinator_data store with
               | Some _ => [async_set_updated_data]
               | None => []
               end).
  assert (Forall (λ e, is_call e = false) post) as Hpost by apply (no_call_notify store).
  destruct (bool_decide _).
  - destruct (truthy (CONF_MEDIA_PLAYER entry)).
    + apply (calls_of_issued _ _ []
               [media_player_media_stop (default "" (CONF_MEDIA_PLAYER entry))] post);
        [|done|done].
      rewrite journal_notify. simpl. by rewrite <- app_assoc.
    + apply (calls_of_issued _ _ [] [] post); [|done|done].
      by rewrite journal_notify.
  - destruct (truthy (CONF_NOTIFY_SERVICE entry)).
    + apply (calls_of_issued _ _ []
               [notify_command_media (default "" (CONF_NOTIFY_SERVICE entry))] post);
        [|done|done].
      rewrite journal_notify. simpl. by rewrite <- app_assoc.
    + apply (calls_of_issued _ _ [] [] post); [|done|done].
      by rewrite journal_notify.
Qed.

(** X11.  When the configuration names no playback mode, [_play_azan] falls
    back to the media-player mode but [_stop_playback] to the VLC mode.
    With the two mode constants distinct, whatever a play call issues goes
    to the media player, and whatever a stop call issues is the VLC stop
    command to the notify service: the stop service never sends
    [media_player.media_stop], and sends nothing when no notify service is
    configured. *)
Theorem X11_no_mode_play_and_stop_disagree env hass entry n store :
  data hass = Some store →
  CONF_PLAYBACK_MODE entry = None →
  PLAYBACK_ANDROID_VLC (const env) ≠ PLAYBACK_MEDIA_PLAYER (const env) →
  (∀ c, c ∈ calls_of (issued hass (_play_azan env hass entry n)) →
        ∃ entity u, c = media_player_play_media entity u)
  ∧ (∀ c, c ∈ calls_of (issued hass (_stop_playback env hass entry)) →
          ∃ svc, c = notify_command_media svc)
  ∧ (CONF_NOTIFY_SERVICE entry = None →
     calls_of (issued hass (_stop_playback env hass entry)) = []).
Proof.
  intros Hs Hmode Hconst.
  rewrite (stop_playback_issues _ _ _ _ Hs). unfold stop_mode. rewrite Hmode. simpl.
  rewrite bool_decide_eq_false_2 by done.
  split; [|split].
  - intros c Hin. unfold _play_azan in Hin.
    destruct (play_azan_issues env hass entry n)
      as [(Hnone & _)|(media_url & list0 & Hcalls & Hissued & _)].
    + rewrite Hnone in Hin. by apply elem_of_nil in Hin.
    + rewrite Hissued in Hin. apply attempted_subset in Hin.
      unfold playback_calls, play_mode in Hcalls. rewrite Hmode in Hcalls.
      simpl in Hcalls. rewrite bool_decide_eq_true_2 in Hcalls by done.
      destruct (truthy (CONF_MEDIA_PLAYER entry)); [|done]. simpl in Hcalls.
      injection Hcalls as <-. apply list_elem_of_singleton in Hin as ->. eauto.
  - intros c Hin. destruct (truthy (CONF_NOTIFY_SERVICE entry)).
    + apply list_elem_of_singleton in Hin as ->. eauto.
    + by apply elem_of_nil in Hin.
  - by intros ->.
Qed.

(** The household that names no mode plays Test on the hall player; the stop
    that follows issues one call, and it goes to the phone. *)
Lemma X11_stop_goes_to_the_phone :
  let env := Scenario.env_at 17 50 true in
  let hass1 :=
    _play_azan env (Scenario.ready 17 0 Household.no_mode Scenario.evening)
      Household.no_mode "Test" in
  ∃ svc, hd_error (calls_of (issued hass1 (_stop_playback env hass1 Household.no_mode)))
         = Some (notify_command_media svc).
Proof.
  intros env hass1.
  assert (∃ store, data hass1 = Some store) as [store Hs]
    by (eexists; vm_compute; reflexivity).
  destruct (X11_no_mode_play_and_stop_disagree env hass1 Household.no_mode "Test" store Hs)
    as (_ & Hstop & _); [reflexivity | vm_compute; discriminate |].
  destruct (Hstop (notify_command_media "mobile_app_phone")) as [svc Hsvc].
  - vm_compute. repeat constructor.
  - exists svc. rewrite <- Hsvc. vm_compute. reflexivity.
Defined.

(** * The base URL *)

Lemma rstrip_slash_slashes s : ∃ k, s = rstrip_slash s ++ slashes k.
Proof.
  induction s as [|c s [k IH]]; [by exists 0%nat|]. cbn [rstrip_slash].
  case_bool_decide as Hr; cbn [andb].
  - rewrite Hr in IH. change (s = slashes k) in IH.
    destruct (Ascii.eqb c "/"%char) eqn:Hc.
    + apply Ascii.eqb_eq in Hc as ->. exists (S k).
      change (String "/"%char s = String "/"%char (slashes k)). by f_equal.
    + exists k. rewrite Hr. change (String c s = String c (slashes k)). by f_equal.
  - exists k.
    change (String c s = String c (rstrip_slash s ++ slashes k)). by f_equal.
Qed.

Lemma rstrip_slash_last s : last_char (rstrip_slash s) ≠ Some "/"%char.
Proof.
  induction s as [|c s IH]; [done|]. simpl.
  case_bool_decide as Hr; simpl.
  - destruct (Ascii.eqb c "/"%char) eqn:Hc; simpl; [done|].
    rewrite Hr. apply Ascii.eqb_neq in Hc. congruence.
  - destruct (rstrip_slash s); [done|]. done.
Qed.

(** X12.  In VLC mode with an external URL configured that is more than
    slashes, the base of the media URL is that URL without its trailing
    slashes: it is what was configured up to a run of slashes, it does not
    end in a slash, and [get_url] is not consulted, so it is the same
    whatever the host would have answered. *)
Theorem X12_external_url_loses_trailing_slashes env entry u :
  play_mode env entry ≠ PLAYBACK_MEDIA_PLAYER (const env) →
  CONF_EXTERNAL_URL entry = Some u →
  rstrip_slash u ≠ "" →
  ∃ base k,
    build_base_url env entry (play_mode env entry) = Some base
    ∧ u = base ++ slashes k
    ∧ last_char base ≠ Some "/"%char
    ∧ ∀ env', const env' = const env →
              build_base_url env' entry (play_mode env' entry) = Some base.
Proof.
  intros Hmode Hu Hne. destruct (rstrip_slash_slashes u) as [k Hk].
  exists (rstrip_slash u), k.
  assert (∀ env', const env' = const env →
                  build_base_url env' entry (play_mode env' entry)
                  = Some (rstrip_slash u)) as Hall.
  { intros env' Hconst. unfold build_base_url, play_mode in *. rewrite Hconst, Hu. simpl.
    rewrite bool_decide_eq_false_2 by done. by rewrite bool_decide_eq_false_2. }
  split; [by apply Hall|]. split; [done|]. split; [apply rstrip_slash_last | done].
Qed.

(** The phone household configures a URL with a slash at its end; the base
    of its media URLs has none. *)
Lemma X12_home_example :
  ∃ base k,
    build_base_url (Scenario.env_at 19 20 true) Household.vlc
      (play_mode (Scenario.env_at 19 20 true) Household.vlc) = Some base
    ∧ "https://home.example.org/" = base ++ slashes k
    ∧ last_char base ≠ Some "/"%char.
Proof.
  destruct (X12_external_url_loses_trailing_slashes (Scenario.env_at 19 20 true)
              Household.vlc "https://home.example.org/")
    as (base & k & Hbase & Hu & Hlast & _).
  - vm_compute. discriminate.
  - reflexivity.
  - vm_compute. discriminate.
  - exists base, k. split; [exact Hbase|]. split; [exact Hu | exact Hlast].
Defined.

(** * The unload *)

Lemma tracked_unload_empties hass unloaded :
  tracked hass → timers (async_unload_entry hass unloaded) = ∅.
Proof.
  intros Htr. apply map_eq. intros h. rewrite lookup_empty.
  destruct (timers (async_unload_entry hass unloaded) !! h) as [t|] eqn:Hl; [|done].
  exfalso. unfold async_unload_entry in Hl.
  destruct (data hass) as [store|] eqn:Hs.
  - assert (timers hass !! h = Some t ∧ unsub_timer store ≠ Some h
            ∧ playback_reset_unsub store ≠ Some h) as (Hold & Hw & Hr).
    { destruct unloaded;
        destruct (unsub_timer store) as [hw|], (playback_reset_unsub store) as [hr|];
        simpl in Hl; repeat (apply lookup_delete_Some in Hl as [? Hl]);
        (split; [done|split; congruence]). }
    destruct (Htr _ _ Hold) as (_ & w & r & Hsl & Hslot).
    unfold slots in Hsl. rewrite Hs in Hsl. simpl in Hsl. simplify_eq.
    by destruct (is_wakeup t).
  - destruct (Htr _ _ Hl) as (_ & w & r & Hsl & _).
    unfold slots in Hsl. by rewrite Hs in Hsl.
Qed.

(** X13.  Unloading an entry in any reachable state leaves no timer pending,
    whether or not the platforms could be unloaded: every pending timer is
    one of the two whose handles the store holds, and both are called. *)
Theorem X13_unload_cancels_every_timer entry hass unloaded :
  reachable entry hass →
  timers (async_unload_entry hass unloaded) = ∅.
Proof. intros Hr. apply tracked_unload_empties. by eapply reachable_tracked. Qed.

(** Unloading after the Test of 17:50, with its two timers pending. *)
Lemma X13_unload_after_test :
  timers (async_unload_entry
            (run (Scenario.env_at 17 50 true)
               (Scenario.ready 17 0 Scenario.entry Scenario.evening) Scenario.entry
               (play_azan "Test")) false) = ∅.
Proof.
  apply (X13_unload_cancels_every_timer Scenario.entry).
  unfold Scenario.ready. do 2 apply reachable_run. apply reachable_setup.
Defined.

Lemma run_unloaded env hass entry op :
  data hass = None → timers hass = ∅ → run env hass entry op = hass.
Proof.
  intros Hs Ht. destruct hass as [dat tm nh jr]. simpl in *. subst.
  by destruct op.
Qed.

Lemma runs_unloaded steps hass entry :
  data hass = None → timers hass = ∅ → runs steps hass entry = hass.
Proof.
  intros Hs Ht. induction steps as [|[env op] steps IH]; [done|].
  unfold runs in *. simpl. by rewrite run_unloaded.
Qed.

(** X14.  Once an entry has been unloaded for good, from whatever reachable
    state, its store is gone and nothing that the services, a late
    download or a delivering refresh do has any effect on it: every such
    operation returns the state as it was. *)
Theorem X14_nothing_happens_after_unload entry hass steps :
  reachable entry hass →
  let hass' := async_unload_entry hass true in
  data hass' = None ∧ runs steps hass' entry = hass'.
Proof.
  intros Hr hass'.
  assert (data hass' = None) as Hs.
  { unfold hass', async_unload_entry. by repeat case_match. }
  split; [done|]. apply runs_unloaded; [done|].
  apply tracked_unload_empties. by eapply reachable_tracked.
Qed.

(** The evening household is unloaded after its Test; a play and a stop that
    still arrive change nothing. *)
Lemma X14_unloaded_evening :
  let hass' :=
    async_unload_entry
      (run (Scenario.env_at 17 50 true)
         (Scenario.ready 17 0 Scenario.entry Scenario.evening) Scenario.entry
         (play_azan "Test")) true in
  data hass' = None
  ∧ runs [(Scenario.env_at 18 0 true, play_azan "Isha");
          (Scenario.env_at 18 1 true, stop_playback)] hass' Scenario.entry = hass'.
Proof.
  apply (X14_nothing_happens_after_unload Scenario.entry).
  unfold Scenario.ready. do 2 apply reachable_run. apply reachable_setup.
Defined.

(** * The rollover *)

(** X15.  When the rollover timer fires in a reachable state with a table
    loaded, the refresh is only started: the table is still the one that
    was there, and the next wake-up, the only one pending afterwards, is
    worked out from that table as it stands, [played_today] included.  If
    none of its events qualifies at that moment, the timer armed is the
    rollover of the following day. *)
Theorem X15_rollover_schedules_from_the_table_it_finds env hass entry d h t :
  reachable entry hass →
  table hass = Some d →
  timers hass !! h = Some t →
  action t = _midnight_refresh_cb →
  let hass' := fire env hass entry h in
  let found :=
    find_next_prayer (offset_of env entry) (now env) (played_today d) (prayers d) in
  table hass' = Some d
  ∧ issued hass hass' = [async_refresh_task]
  ∧ armed is_wakeup hass' = [(next_handle hass, wakeup_for env entry found)]
  ∧ (Forall (λ q, ¬ eligible (offset_of env entry) (now env) (played_today d) q)
       (prayers d) →
     wakeup_for env entry found
     = {| action := _midnight_refresh_cb; point_in_time := tomorrow_0001 (now env) |}).
Proof.
  intros Hr Ht Hl Ha hass' found.
  assert (tracked hass') as Htr' by (apply tracked_fire; by eapply reachable_tracked).
  apply table_Some in Ht as (store & Hs & Hd).
  assert (hass' = _schedule_next_prayer env (emit async_refresh_task (unsub h hass)) entry)
    as Heq by (unfold hass', fire, _midnight_refresh; by rewrite Hl, Ha).
  rewrite (schedule_next_prayer_loaded _ _ _ store d) in Heq by done.
  rewrite Heq in *. clear Heq hass'.
  split; [unfold table; simpl; by rewrite Hd|].
  split; [by apply issued_app|].
  split.
  - apply armed_singleton.
    + apply tracked_at_most_one; [done|congruence].
    + simpl. apply lookup_insert_eq.
    + apply wakeup_for_is_wakeup.
  - intros Hnone. unfold found. by rewrite (find_next_prayer_none _ _ _ _ Hnone).
Qed.

(** Every event was played by 23:00, so rollover timer 0 waits for 00:01.
    When it fires then, the table is still yesterday's, nothing in it
    qualifies, and the timer armed is the rollover of the day after. *)
Lemma X15_second_rollover :
  let hass := async_setup_entry (Scenario.env_at 23 0 true) Scenario.entry Scenario.all_played in
  let hass' := fire (Scenario.env_at 24 1 true) hass Scenario.entry 0 in
  table hass' = Some Scenario.all_played
  ∧ armed is_wakeup hass'
    = [(1%nat, {| action := _midnight_refresh_cb;
                  point_in_time := {| wall := clock 48 1; utcoffset := 0 |} |})].
Proof.
  intros hass hass'.
  destruct (X15_rollover_schedules_from_the_table_it_finds (Scenario.env_at 24 1 true)
              hass Scenario.entry Scenario.all_played 0%nat
              {| action := _midnight_refresh_cb;
                 point_in_time := {| wall := clock 24 1; utcoffset := 0 |} |})
    as (Htable & _ & Harmed & Hagain).
  - apply reachable_setup.
  - reflexivity.
  - reflexivity.
  - reflexivity.
  - split; [exact Htable|]. fold hass' in Harmed. rewrite Harmed. rewrite Hagain; [done|].
    repeat constructor; intros (_ & Hplayed & _); apply Hplayed; simpl; set_solver.
Defined.

(** X27.  With a table loaded in which no event qualifies (the list is empty,
    or each event is disabled, already played, or its offset-adjusted time is
    not after [now]), [_schedule_next_prayer] cancels the handle it held and
    arms one timer at 00:01 of the day after [now], in the zone of [now],
    bound to [_midnight_refresh] and kept in [unsub_timer].  That timer plays
    nothing: when it fires, in whatever world, the journal gains the started
    refresh and nothing else, and the playback status and the table are as
    they were. *)
Theorem X27_no_event_left_arms_the_rollover env hass entry store d :
  data hass = Some store →
  coordinator_data store = Some d →
  Forall (λ q, ¬ eligible (offset_of env entry) (now env) (played_today d) q) (prayers d) →
  let hass' := _schedule_next_prayer env hass entry in
  let h := next_handle hass in
  ∃ at_,
    timers hass' =
      <[h := {| action := _midnight_refresh_cb; point_in_time := at_ |}]>
        (cancelled (unsub_timer store) (timers hass))
    ∧ date at_ = (date (now env) + 1)%Z
    ∧ time_of_day at_ = MINUTE
    ∧ utcoffset at_ = utcoffset (now env)
    ∧ unsub_timer <$> data hass' = Some (Some h)
    ∧ ∀ env',
        let fired := fire env' hass' entry h in
        issued hass' fired = [async_refresh_task]
        ∧ status fired = status hass
        ∧ table fired = Some d.
Proof.
  intros Hs Hd Hnone. simpl.
  rewrite (schedule_next_prayer_loaded _ _ _ _ _ Hs Hd).
  rewrite (find_next_prayer_none _ _ _ _ Hnone). simpl.
  exists (tomorrow_0001 (now env)).
  split; [done|]. split; [apply tomorrow_0001_date|].
  split; [apply tomorrow_0001_time|]. split; [done|]. split; [done|].
  intros env'. unfold fire. simpl. rewrite lookup_insert_eq. simpl.
  unfold _midnight_refresh. split; [|split].
  - apply issued_app. by rewrite schedule_next_prayer_journal.
  - rewrite status_schedule_next_prayer. unfold status. simpl. by rewrite Hs.
  - rewrite table_schedule_next_prayer. unfold table. simpl. by rewrite Hd.
Qed.

(** Scenario C: every event played, now 23:00: the rollover timer is armed
    for 00:01 of the next day. *)
Lemma X27_scenario_C :
  ∃ at_,
    timers (_schedule_next_prayer (Scenario.env_at 23 0 true)
              (Scenario.fresh Scenario.all_played) Scenario.entry) =
      <[0%nat := {| action := _midnight_refresh_cb; point_in_time := at_ |}]> ∅
    ∧ date at_ = 1%Z ∧ time_of_day at_ = clock 0 1.
Proof.
  destruct (X27_no_event_left_arms_the_rollover (Scenario.env_at 23 0 true)
              (Scenario.fresh Scenario.all_played) Scenario.entry
              (initial_store Scenario.all_played) Scenario.all_played
              eq_refl eq_refl) as (at_ & Ht & Hd & Htod & _).
  - repeat constructor; intros (_ & Hplayed & _); apply Hplayed; simpl; set_solver.
  - exists at_. split; [exact Ht|]. split; [exact Hd | exact Htod].
Defined.

(** * The stored audio across operations *)

Lemma audio_schedule_next_prayer env hass entry :
  audio_of (_schedule_next_prayer env hass entry) = audio_of hass.
Proof.
  unfold _schedule_next_prayer, audio_of.
  destruct (data hass) as [store|] eqn:Hs; [|by rewrite Hs].
  destruct (unsub_timer store); simpl;
    destruct (coordinator_data store); simpl; rewrite ?Hs; try done;
    by destruct (find_next_prayer _ _ _ _).
Qed.

Lemma audio_notify store hass : audio_of (notify_listeners store hass) = audio_of hass.
Proof. unfold audio_of. by rewrite notify_listeners_data. Qed.

Lemma audio_claim_played hass store n hass1 store1 :
  data hass = Some store →
  claim_played hass store n = Some (hass1, store1) →
  data hass1 = Some store1 ∧ audio_of hass1 = audio_of hass.
Proof.
  intros Hs Hc.
  destruct (claim_played_Some _ _ _ _ _ Hc) as [(-> & -> & _)|(_ & -> & -> & _)].
  - done.
  - split; [done|]. unfold audio_of, add_played. simpl. rewrite Hs.
    by destruct (coordinator_data store).
Qed.

Lemma audio_play_azan env hass entry n :
  audio_of (_play_azan env hass entry n) = audio_of hass.
Proof.
  unfold _play_azan.
  apply (play_azan_inv env hass entry n (λ r, audio_of r.1 = audio_of hass));
    simpl; try done.
  - intros store hass1 store1 Hs Hc _. by destruct (audio_claim_played _ _ _ _ _ Hs Hc).
  - intros store hass1 store1 Hs Hc _ _ _.
    by destruct (audio_claim_played _ _ _ _ _ Hs Hc).
  - intros store hass1 store1 base_url Hs Hc _ _ _.
    destruct (audio_claim_played _ _ _ _ _ Hs Hc) as (Hs1 & Ha1).
    assert (audio_of hass1
            = Some (is_downloading store1, audio_file store1, fajr_audio_file store1))
      as Ha1' by (unfold audio_of; by rewrite Hs1).
    rewrite <- Ha1, Ha1'.
    destruct (playback_calls env entry _ _) as [calls|early].
    + destruct (await_calls env calls _) as [hass3 ok]. simpl.
      destruct ok; simpl; by rewrite ?audio_schedule_next_prayer, ?audio_notify.
    + simpl. by rewrite audio_notify.
Qed.

Lemma audio_stop_playback env hass entry :
  audio_of (_stop_playback env hass entry) = audio_of hass.
Proof.
  unfold _stop_playback.
  destruct (data hass) as [store|] eqn:Hs; [|done].
  rewrite audio_notify. unfold audio_of. rewrite Hs. by repeat case_match.
Qed.

Lemma audio_reset_playing hass n : audio_of (_reset_playing hass n) = audio_of hass.
Proof.
  unfold _reset_playing.
  destruct (data hass) as [store|] eqn:Hs; [|done].
  case_bool_decide; [|done]. rewrite audio_notify. unfold audio_of. by rewrite Hs.
Qed.

Lemma audio_async_refresh fetched hass : audio_of (async_refresh fetched hass) = audio_of hass.
Proof.
  unfold async_refresh, audio_of.
  destruct (data hass) as [store|] eqn:Hs; destruct fetched; simpl; by rewrite ?Hs.
Qed.

Lemma audio_run env hass entry op :
  keeps_audio op = true → audio_of (run env hass entry op) = audio_of hass.
Proof.
  intros Hkeep. destruct op; simpl; try done.
  - apply audio_play_azan.
  - apply audio_stop_playback.
  - unfold handle_refresh_times. destruct (data hass) eqn:Hs; [|done].
    by rewrite audio_schedule_next_prayer, audio_async_refresh.
  - unfold fire, _midnight_refresh, _prayer_callback.
    destruct (timers hass !! h) as [t|]; [|done].
    change (audio_of hass) with (audio_of (unsub h hass)).
    destruct (action t).
    + by rewrite audio_schedule_next_prayer.
    + repeat case_match; try done;
        by rewrite ?audio_schedule_next_prayer, ?audio_play_azan.
    + apply audio_reset_playing.
  - apply audio_async_refresh.
  - destruct unloaded; [done|]. unfold async_unload_entry, audio_of.
    destruct (data hass) as [store|] eqn:Hs; [|by rewrite Hs].
    destruct (unsub_timer store), (playback_reset_unsub store); simpl; by rewrite Hs.
Qed.

Lemma audio_runs steps hass entry :
  Forall (λ step : Env * Op, keeps_audio step.2 = true) steps →
  audio_of (runs steps hass entry) = audio_of hass.
Proof.
  intros Hkeep. revert hass.
  induction Hkeep as [|[env op] steps Hop _ IH]; intros hass; [done|].
  unfold runs in *. simpl. rewrite IH. by apply audio_run.
Qed.

(** X16.  Nothing but the download task writes the audio slots: a service
    call, a timer firing, a refresh or an unload that keeps the store leaves
    [audio_file], [fajr_audio_file] and [is_downloading] as they were,
    however the operation ends. *)
Theorem X16_operations_leave_the_audio_alone env hass entry op :
  keeps_audio op = true →
  audio_of (run env hass entry op) = audio_of hass.
Proof. apply audio_run. Qed.

(** The failed Maghrib of 17:50 leaves the stored azan file in place. *)
Lemma X16_failed_maghrib :
  audio_of (run (Scenario.env_at 17 50 false)
              (Scenario.ready 17 0 Scenario.entry Scenario.evening) Scenario.entry
              (timer_fires 0))
  = Some (false, Some "/config/www/azan/azan.mp3", None).
Proof.
  apply (X16_operations_leave_the_audio_alone (Scenario.env_at 17 50 false)
           (Scenario.ready 17 0 Scenario.entry Scenario.evening) Scenario.entry
           (timer_fires 0) eq_refl).
Defined.

Lemma audio_download_begins hass b a f :
  audio_of hass = Some (b, a, f) → audio_of (download_begins hass) = Some (true, a, f).
Proof.
  unfold download_begins, audio_of. destruct (data hass) as [store|]; [|done].
  simpl. intros [= _ <- <-]. by rewrite notify_listeners_data.
Qed.

Lemma audio_download_ends hass b a f :
  audio_of hass = Some (b, a, f) → audio_of (download_ends hass) = Some (false, a, f).
Proof.
  unfold download_ends, audio_of. destruct (data hass) as [store|]; [|done].
  simpl. intros [= _ <- <-]. by rewrite notify_listeners_data.
Qed.

Lemma audio_azan_job_done audio answer hass b a f :
  audio_of hass = Some (b, a, f) →
  audio_of (azan_job_done audio answer hass)
  = Some (b, stored (CONF_AZAN_URL audio) answer a, f).
Proof.
  unfold azan_job_done, audio_of, stored. destruct (data hass) as [store|] eqn:Hs; [|done].
  simpl. intros [= <- <- <-].
  destruct (truthy (CONF_AZAN_URL audio)), answer; simpl; by rewrite ?Hs.
Qed.

Lemma audio_fajr_job_done audio answer hass b a f :
  audio_of hass = Some (b, a, f) →
  audio_of (fajr_job_done audio answer hass)
  = Some (b, a, stored (CONF_FAJR_URL audio) answer f).
Proof.
  unfold fajr_job_done, audio_of, stored. destruct (data hass) as [store|] eqn:Hs; [|done].
  simpl. intros [= <- <- <-].
  destruct (truthy (CONF_FAJR_URL audio)), answer; simpl; by rewrite ?Hs.
Qed.

(** X17.  The download task, with any operations of the entry that keep the
    store running between its steps: [is_downloading] is true from its
    first step until its last and false afterwards; each file slot holds the
    path its job answered if a URL is configured for it and the job did not
    raise, and what it held before otherwise, so a job that raises neither
    clears a stored file nor keeps the other file from being stored. *)
Theorem X17_download_task_outcome audio azan fajr hass entry b a f between1 between2 between3 :
  audio_of hass = Some (b, a, f) →
  Forall (λ step : Env * Op, keeps_audio step.2 = true) between1 →
  Forall (λ step : Env * Op, keeps_audio step.2 = true) between2 →
  Forall (λ step : Env * Op, keeps_audio step.2 = true) between3 →
  let hass1 := runs between1 (download_begins hass) entry in
  let hass2 := runs between2 (azan_job_done audio azan hass1) entry in
  let hass3 := runs between3 (fajr_job_done audio fajr hass2) entry in
  audio_of hass1 = Some (true, a, f)
  ∧ audio_of hass2 = Some (true, stored (CONF_AZAN_URL audio) azan a, f)
  ∧ audio_of hass3
    = Some (true, stored (CONF_AZAN_URL audio) azan a, stored (CONF_FAJR_URL audio) fajr f)
  ∧ audio_of (download_ends hass3)
    = Some (false, stored (CONF_AZAN_URL audio) azan a, stored (CONF_FAJR_URL audio) fajr f)
  ∧ (between1 = [] → between2 = [] → between3 = [] →
     download_ends hass3 = _download_audio_background audio azan fajr hass).
Proof.
  intros Ha H1 H2 H3 hass1 hass2 hass3.
  assert (audio_of hass1 = Some (true, a, f)) as Ha1.
  { unfold hass1. rewrite audio_runs by done. by eapply audio_download_begins. }
  assert (audio_of hass2 = Some (true, stored (CONF_AZAN_URL audio) azan a, f)) as Ha2.
  { unfold hass2. rewrite audio_runs by done. by apply audio_azan_job_done. }
  assert (audio_of hass3
          = Some (true, stored (CONF_AZAN_URL audio) azan a,
                  stored (CONF_FAJR_URL audio) fajr f)) as Ha3.
  { unfold hass3. rewrite audio_runs by done. by apply audio_fajr_job_done. }
  split; [done|]. split; [done|]. split; [done|].
  split; [by eapply audio_download_ends|].
  intros E1 E2 E3. unfold hass3, hass2, hass1. by rewrite E1, E2, E3.
Qed.

(** Both URLs are configured; the azan job raises, the Fajr job answers; a
    Test is tried while the jobs run.  The Fajr file is stored all the same
    and the flag is down at the end. *)
Lemma X17_azan_job_raises :
  let audio := {| CONF_AZAN_URL := Some "https://example.org/azan";
                  CONF_FAJR_URL := Some "fajr.mp3" |} in
  let hass := async_setup_entry (Scenario.env_at 4 0 true) Scenario.entry Scenario.morning in
  let hass1 := runs [(Scenario.env_at 4 1 true, play_azan "Test")]
                 (download_begins hass) Scenario.entry in
  let hass2 := runs [] (azan_job_done audio None hass1) Scenario.entry in
  let hass3 := runs [] (fajr_job_done audio (Some "/config/www/azan/fajr_azan.mp3") hass2)
                 Scenario.entry in
  audio_of (download_ends hass3) = Some (false, None, Some "/config/www/azan/fajr_azan.mp3").
Proof.
  intros audio hass hass1 hass2 hass3.
  destruct (X17_download_task_outcome audio None (Some "/config/www/azan/fajr_azan.mp3")
              hass Scenario.entry false None None
              [(Scenario.env_at 4 1 true, play_azan "Test")] [] [])
    as (_ & _ & _ & Hend & _).
  - reflexivity.
  - repeat constructor.
  - constructor.
  - constructor.
  - exact Hend.
Defined.

(** * Several entries and the services *)

Lemma register_keeps name eid entry svcs other b :
  svcs !! other = Some b → register name eid entry svcs !! other = Some b.
Proof.
  intros Hb. unfold register. destruct (svcs !! name) eqn:Hn; [done|].
  rewrite lookup_insert_ne; [done|]. intros ->. congruence.
Qed.

Lemma register_binds name eid entry svcs :
  svcs !! name = None → register name eid entry svcs !! name = Some (eid, entry).
Proof. intros Hn. unfold register. rewrite Hn. apply lookup_insert_eq. Qed.

Lemma register_services_keeps eid entry svcs other b :
  svcs !! other = Some b → _register_services eid entry svcs !! other = Some b.
Proof. intros Hb. unfold _register_services. by do 3 apply register_keeps. Qed.

Lemma register_others name eid entry svcs other :
  other ≠ name → svcs !! other = None → register name eid entry svcs !! other = None.
Proof.
  intros Hne Hn. unfold register. destruct (svcs !! name); [done|].
  by rewrite lookup_insert_ne.
Qed.

Lemma register_services_binds eid entry svcs req :
  svcs !! service_of req = None →
  _register_services eid entry svcs !! service_of req = Some (eid, entry).
Proof.
  intros Hn. unfold _register_services. destruct req; simpl in *.
  - do 2 apply register_keeps. by apply register_binds.
  - apply register_keeps, register_binds. by apply register_others.
  - apply register_binds. do 2 (apply register_others; [done|]). done.
Qed.

(** X18.  The services belong to the entry that registered them first.
    Setting up an entry binds each of the three services that is not yet
    registered to that entry, and leaves every service that is registered
    bound to the entry it was bound to: a second entry never takes the
    services over. *)
Theorem X18_services_stay_with_the_first_entry env eid entry first dom req :
  let dom' := Domain.async_setup_entry env eid entry first dom in
  (∀ b, services dom !! service_of req = Some b →
        services dom' !! service_of req = Some b)
  ∧ (services dom !! service_of req = None →
     services dom' !! service_of req = Some (eid, entry)).
Proof.
  split.
  - intros b Hb. by apply register_services_keeps.
  - intros Hn. by apply register_services_binds.
Qed.

(** The evening household "a" is set up first, the phone household "b"
    second: the play service is bound to "a". *)
Lemma X18_two_households :
  services
    (Domain.async_setup_entry (Scenario.env_at 17 1 true) "b" Household.vlc Scenario.evening
       (Domain.async_setup_entry (Scenario.env_at 17 0 true) "a" Scenario.entry
          Scenario.evening {| entries := ∅; services := ∅ |}))
    !! "play_azan" = Some ("a", Scenario.entry).
Proof.
  apply (X18_services_stay_with_the_first_entry (Scenario.env_at 17 1 true) "b"
           Household.vlc Scenario.evening _ (request_play_azan None)).
  apply (X18_services_stay_with_the_first_entry (Scenario.env_at 17 0 true) "a"
           Scenario.entry Scenario.evening _ (request_play_azan None)).
  reflexivity.
Defined.

Lemma handler_unloaded env entry req h :
  data h = None → timers h = ∅ →
  match req with
  | request_play_azan prayer =>
      ∀ p, handle_play_azan env h entry p = h
  | request_stop_playback => handle_stop_playback env h entry = h
  | request_refresh_times fetched => handle_refresh_times env h entry fetched = h
  end.
Proof.
  intros Hs Ht. destruct req.
  - intros p. apply (run_unloaded env h entry (play_azan p) Hs Ht).
  - apply (run_unloaded env h entry stop_playback Hs Ht).
  - apply (run_unloaded env h entry (refresh_times fetched) Hs Ht).
Qed.

Lemma no_store_left_false (m : gmap string Hass) e h :
  m !! e = Some h → is_Some (data h) → no_store_left m = false.
Proof.
  intros Hl [store Hs]. unfold no_store_left. apply bool_decide_eq_false_2.
  intros Hall. specialize (Hall e h Hl). simpl in Hall. congruence.
Qed.

(** X19.  The services die with the entry they are bound to.  Let a
    service be bound to entry A, in a reachable state, while another entry B
    holds a store.  Once A has been unloaded, the services are still
    registered and still bound to A, since B's store is left; and every
    call of that service is either refused by the schema or accepted and
    without any effect: B cannot be reached through it. *)
Theorem X19_services_die_with_their_entry env dom req A B entryA entryA' hA hB :
  services dom !! service_of req = Some (A, entryA) →
  entries dom !! A = Some hA →
  reachable entryA' hA →
  entries dom !! B = Some hB →
  is_Some (data hB) →
  A ≠ B →
  let dom' := Domain.async_unload_entry A true dom in
  services dom' = services dom
  ∧ entries dom' !! B = Some hB
  ∧ (Domain.call env req dom' = None ∨ Domain.call env req dom' = Some dom').
Proof.
  intros Hsvc HA Hr HB HsB Hne dom'.
  set (hA' := async_unload_entry hA true).
  assert (data hA' = None) as Hs'
    by (unfold hA', async_unload_entry; by repeat case_match).
  assert (timers hA' = ∅) as Ht'
    by (apply tracked_unload_empties; by eapply reachable_tracked).
  assert (entries dom' !! A = Some hA') as HA'
    by (unfold dom'; simpl; by rewrite lookup_alter_eq, HA).
  assert (entries dom' !! B = Some hB) as HB'
    by (unfold dom'; simpl; by rewrite lookup_alter_ne).
  assert (services dom' = services dom) as Hsame.
  { unfold dom', Domain.async_unload_entry. simpl.
    by rewrite (no_store_left_false _ B hB). }
  split; [done|]. split; [done|].
  assert (∀ handler, handler hA' = hA' →
            {| entries := alter handler A (entries dom'); services := services dom' |}
            = dom') as Hnoop.
  { intros handler Hh. rewrite alter_id; [done|].
    intros x Hx. rewrite HA' in Hx. by injection Hx as <-. }
  unfold Domain.call. rewrite Hsame, Hsvc.
  pose proof (handler_unloaded env entryA req hA' Hs' Ht') as Hh.
  destruct req.
  - destruct (SERVICE_PLAY_SCHEMA prayer) as [p|]; [|by left].
    right. f_equal. rewrite <- Hsame. by apply Hnoop.
  - right. f_equal. rewrite <- Hsame. by apply Hnoop.
  - right. f_equal. rewrite <- Hsame. by apply Hnoop.
Qed.

(** Households "a" and "b" are set up in that order and "a" is unloaded: the
    play service is still there, still bound to "a", and a call of it for
    Isha is accepted and changes nothing, in "b" or anywhere. *)
Lemma X19_second_household_unreachable :
  let dom :=
    Domain.async_setup_entry (Scenario.env_at 17 1 true) "b" Household.vlc Scenario.evening
      (Domain.async_setup_entry (Scenario.env_at 17 0 true) "a" Scenario.entry
         Scenario.evening {| entries := ∅; services := ∅ |}) in
  let dom' := Domain.async_unload_entry "a" true dom in
  services dom' = services dom
  ∧ (Domain.call (Scenario.env_at 19 20 true) (request_play_azan (Some "Isha")) dom' = None
     ∨ Domain.call (Scenario.env_at 19 20 true) (request_play_azan (Some "Isha")) dom'
       = Some dom').
Proof.
  intros dom dom'.
  destruct (X19_services_die_with_their_entry (Scenario.env_at 19 20 true) dom
              (request_play_azan (Some "Isha")) "a" "b" Scenario.entry Scenario.entry
              (async_setup_entry (Scenario.env_at 17 0 true) Scenario.entry Scenario.evening)
              (async_setup_entry (Scenario.env_at 17 1 true) Household.vlc Scenario.evening))
    as (Hsame & _ & Hcall).
  - reflexivity.
  - unfold dom, Domain.async_setup_entry. simpl.
    rewrite lookup_insert_ne by done. apply lookup_insert_eq.
  - apply reachable_setup.
  - unfold dom, Domain.async_setup_entry. simpl. apply lookup_insert_eq.
  - vm_compute. eauto.
  - done.
  - split; [exact Hsame | exact Hcall].
Defined.

Lemma remove_services_lookup svcs req : remove_services svcs !! service_of req = None.
Proof.
  unfold remove_services. destruct req; simpl.
  - do 2 (rewrite lookup_delete_ne by done). apply lookup_delete_eq.
  - rewrite lookup_delete_ne by done. apply lookup_delete_eq.
  - apply lookup_delete_eq.
Qed.

(** X20.  When the entry unloaded was the last one holding a store, the three
    services are removed with it, and every later call of one of them is
    refused as not registered. *)
Theorem X20_last_unload_removes_the_services env dom A req :
  (∀ e h, entries dom !! e = Some h → e ≠ A → data h = None) →
  let dom' := Domain.async_unload_entry A true dom in
  services dom' !! service_of req = None
  ∧ Domain.call env req dom' = None.
Proof.
  intros Hothers dom'.
  assert (services dom' !! service_of req = None) as Hgone.
  { unfold dom', Domain.async_unload_entry. simpl.
    assert (no_store_left (alter (λ h, async_unload_entry h true) A (entries dom)) = true)
      as ->.
    { unfold no_store_left. apply bool_decide_eq_true_2. intros e h Hl. simpl.
      destruct (decide (e = A)) as [->|Hne].
      - rewrite lookup_alter_eq in Hl.
        destruct (entries dom !! A) as [hA|]; [|done]. simpl in Hl. injection Hl as <-.
        unfold async_unload_entry. by repeat case_match.
      - rewrite lookup_alter_ne in Hl by done. by eapply Hothers. }
    apply remove_services_lookup. }
  split; [done|]. unfold Domain.call. by rewrite Hgone.
Qed.

(** The only household is unloaded: a stop request is refused. *)
Lemma X20_only_household :
  Domain.call (Scenario.env_at 18 0 true) request_stop_playback
    (Domain.async_unload_entry "a" true
       (Domain.async_setup_entry (Scenario.env_at 17 0 true) "a" Scenario.entry
          Scenario.evening {| entries := ∅; services := ∅ |}))
  = None.
Proof.
  eapply (X20_last_unload_removes_the_services (Scenario.env_at 18 0 true) _ "a"
            request_stop_playback).
  intros e h Hl Hne. simpl in Hl. rewrite lookup_insert_ne in Hl by done.
  by rewrite lookup_empty in Hl.
Defined.

(** * Calls that do not run to their end, and calls that do *)

Lemma play_azan_unfinished env hass entry n :
  (_play_azan_exit env hass entry n).2 ≠ completed →
  same_timers (_play_azan_exit env hass entry n).1 hass.
Proof.
  apply (play_azan_inv env hass entry n
    (λ r, r.2 ≠ completed → same_timers r.1 hass)); simpl.
  - intros _ _. apply same_timers_refl.
  - intros store _ _ _. apply same_timers_refl.
  - intros store hass1 store1 Hs Hc _ _.
    by destruct (claim_played_data _ _ _ _ _ Hs Hc) as (_ & ? & _).
  - intros store hass1 store1 Hs Hc _ _ _ _.
    by destruct (claim_played_data _ _ _ _ _ Hs Hc) as (_ & ? & _).
  - intros store hass1 store1 base_url Hs Hc _ _ _.
    destruct (claim_played_data _ _ _ _ _ Hs Hc) as (Hs1 & Hsame & _).
    set (store2 := set_playing true (Some n) store1).
    set (hass2 := notify_listeners store2 (set_data (Some store2) hass1)).
    assert (same_timers hass2 hass) as Hsame2.
    { eapply same_timers_trans; [apply same_timers_notify|].
      eapply same_timers_trans; [by apply same_timers_set_playing | done]. }
    assert (data hass2 = Some store2) as Hs2
      by (unfold hass2; by rewrite notify_listeners_data).
    destruct (playback_calls env entry _ _) as [calls|early]; [|done].
    pose proof (await_calls_same_timers env calls hass2) as Hsame3.
    pose proof (await_calls_data env calls hass2) as Hs3. rewrite Hs2 in Hs3.
    destruct (await_calls env calls hass2) as [hass3 ok]. simpl in *.
    destruct ok; simpl; [done|]. intros _.
    eapply same_timers_trans; [apply same_timers_notify|].
    eapply same_timers_trans; [by apply same_timers_set_playing|].
    by eapply same_timers_trans.
Qed.

(** X21.  A call of [_play_azan] that does not run to its end, whichever
    way it leaves, cancels no timer and arms none.  So when a wake-up timer
    fires in a reachable state for a name that is not yet played and the
    playback does not run to its end, no wake-up timer is pending
    afterwards. *)
Theorem X21_unfinished_playback_arms_nothing env hass entry n h t :
  reachable entry hass →
  timers hass !! h = Some t →
  action t = _prayer_callback_cb n →
  (∀ d, table hass = Some d → n ∉ played_today d) →
  (_play_azan_exit env (unsub h hass) entry n).2 ≠ completed →
  same_timers (_play_azan env (unsub h hass) entry n) (unsub h hass)
  ∧ timers (fire env hass entry h) = delete h (timers hass)
  ∧ armed is_wakeup (fire env hass entry h) = [].
Proof.
  intros Hr Hl Ha Hfresh Hexit.
  pose proof (play_azan_unfinished _ _ _ _ Hexit) as Hsame.
  assert (fire env hass entry h = _play_azan env (unsub h hass) entry n) as Hfire.
  { unfold fire, _prayer_callback. rewrite Hl, Ha.
    change (data (unsub h hass)) with (data hass).
    destruct (data hass) as [store|] eqn:Hs.
    - destruct (coordinator_data store) as [d|] eqn:Hd; [|done].
      rewrite bool_decide_eq_false_2; [done|].
      apply Hfresh. unfold table. by rewrite Hs.
    - unfold _play_azan, _play_azan_exit. simpl. by rewrite Hs. }
  split; [done|]. rewrite Hfire. unfold _play_azan.
  destruct Hsame as (Hsl & Htm & Hnh). split; [done|].
  apply armed_nil. intros h' t'. fold (_play_azan env (unsub h hass) entry n).
  unfold _play_azan. rewrite Htm. simpl. rewrite lookup_delete_Some. intros [Hne Hl'].
  pose proof (reachable_tracked _ _ Hr) as Htr.
  destruct (Htr _ _ Hl) as (_ & w & r & Hsl0 & Hw).
  destruct (Htr _ _ Hl') as (_ & w' & r' & Hsl1 & Hw').
  rewrite Hsl0 in Hsl1. injection Hsl1 as <- <-.
  assert (is_wakeup t = true) as Hwk by (unfold is_wakeup; by rewrite Ha).
  rewrite Hwk in Hw. destruct (is_wakeup t'); [congruence | done].
Qed.

(** Timer 0 fires for Maghrib before any audio is stored: the call leaves
    at the audio check and no wake-up timer is pending afterwards. *)
Lemma X21_maghrib_without_audio :
  let hass := async_setup_entry (Scenario.env_at 17 0 true) Scenario.entry Scenario.evening in
  armed is_wakeup (fire (Scenario.env_at 17 50 true) hass Scenario.entry 0) = [].
Proof.
  intros hass.
  destruct (X21_unfinished_playback_arms_nothing (Scenario.env_at 17 50 true) hass
              Scenario.entry "Maghrib" 0%nat
              {| action := _prayer_callback_cb "Maghrib";
                 point_in_time := {| wall := clock 17 50; utcoffset := 0 |} |})
    as (_ & _ & Hnone).
  - apply reachable_setup.
  - reflexivity.
  - reflexivity.
  - intros d [= <-]. apply not_elem_of_empty.
  - vm_compute. discriminate.
  - exact Hnone.
Defined.

(** X22.  A wake-up timer that fires for a name already in [played_today],
    in a reachable state: nothing is played and nothing journalled, the
    table and the playback status stay as they are, and the scheduler moves
    on, exactly one wake-up timer being pending afterwards. *)
Theorem X22_fired_timer_for_played_name_moves_on env hass entry n h t d :
  reachable entry hass →
  table hass = Some d →
  timers hass !! h = Some t →
  action t = _prayer_callback_cb n →
  n ∈ played_today d →
  let hass' := fire env hass entry h in
  issued hass hass' = []
  ∧ table hass' = Some d
  ∧ status hass' = status hass
  ∧ ∃ t', armed is_wakeup hass' = [(next_handle hass, t')].
Proof.
  intros Hr Ht Hl Ha Hin hass'.
  assert (tracked hass') as Htr' by (apply tracked_fire; by eapply reachable_tracked).
  apply table_Some in Ht as (store & Hs & Hd).
  assert (hass' = _schedule_next_prayer env (unsub h hass) entry) as Heq.
  { unfold hass', fire, _prayer_callback. rewrite Hl, Ha.
    change (data (unsub h hass)) with (data hass). rewrite Hs, Hd.
    by rewrite bool_decide_eq_true_2. }
  rewrite Heq in *. clear Heq hass'.
  split; [apply (issued_app _ _ []); rewrite schedule_next_prayer_journal; simpl;
          by rewrite app_nil_r|].
  split; [rewrite table_schedule_next_prayer; unfold table; simpl; by rewrite Hs|].
  split; [by rewrite status_schedule_next_prayer|].
  rewrite (schedule_next_prayer_loaded _ _ _ store d) in * by done.
  eexists. apply armed_singleton.
  - apply tracked_at_most_one; [done|congruence].
  - simpl. apply lookup_insert_eq.
  - apply wakeup_for_is_wakeup.
Qed.

(** A manual trigger for Maghrib at 17:30 fails at the player, so Maghrib is
    played and timer 0 still waits; when it fires at 17:50 nothing is
    played and a wake-up timer is armed under handle 1. *)
Lemma X22_maghrib_already_played :
  let hass :=
    run (Scenario.env_at 17 30 false)
      (Scenario.ready 17 0 Scenario.entry Scenario.evening) Scenario.entry
      (play_azan "Maghrib") in
  let hass' := fire (Scenario.env_at 17 50 true) hass Scenario.entry 0 in
  issued hass hass' = [] ∧ ∃ t', armed is_wakeup hass' = [(1%nat, t')].
Proof.
  intros hass hass'.
  destruct (X22_fired_timer_for_played_name_moves_on (Scenario.env_at 17 50 true) hass
              Scenario.entry "Maghrib" 0%nat
              {| action := _prayer_callback_cb "Maghrib";
                 point_in_time := {| wall := clock 17 50; utcoffset := 0 |} |}
              {| prayers := prayers Scenario.evening; played_today := {["Maghrib"]} |})
    as (Hquiet & _ & _ & Hnext).
  - unfold hass, Scenario.ready. do 2 apply reachable_run. apply reachable_setup.
  - vm_compute. reflexivity.
  - vm_compute. reflexivity.
  - reflexivity.
  - simpl. by apply elem_of_singleton.
  - split; [exact Hquiet | exact Hnext].
Defined.

(** X23.  When no service call raises, a call of [_play_azan] on a loaded
    entry runs to its end exactly when it is not turned away at the guard
    and nothing stands in the way of playback: the audio file picked is
    stored and on disk, a base URL can be had, and a device is configured
    for the mode in force. *)
Theorem X23_playback_completes_iff_nothing_in_the_way env hass entry store n :
  data hass = Some store →
  (∀ c, call_succeeds env c = true) →
  (_play_azan_exit env hass entry n).2 = completed
  ↔ claim_played hass store n ≠ None ∧ can_play env entry store n = true.
Proof.
  intros Hs Hok.
  unfold _play_azan_exit, can_play, sink_configured. rewrite Hs.
  destruct (claim_played hass store n) as [[hass1 store1]|] eqn:Hc;
    [|split; [done | by intros [? _]]].
  rewrite (claim_played_pick _ _ _ _ _ Hc).
  destruct (truthy (pick_audio_file store n)); simpl;
    [|split; [done | by intros [_ ?]]].
  destruct (path_exists env _); simpl; [|split; [done | by intros [_ ?]]].
  destruct (build_base_url env entry _) as [base_url|] eqn:Hb.
  2:{ split; [done|]. intros [_ Hcan]. rewrite bool_decide_eq_false_2 in Hcan; [done|].
      by intros [? ?]. }
  rewrite bool_decide_eq_true_2 by eauto. simpl.
  unfold playback_calls.
  destruct (bool_decide (default (PLAYBACK_MEDIA_PLAYER (const env))
                           (CONF_PLAYBACK_MODE entry)
                         = PLAYBACK_MEDIA_PLAYER (const env))).
  - destruct (truthy (CONF_MEDIA_PLAYER entry)); simpl;
      [|split; [done | by intros [_ ?]]].
    rewrite !Hok. simpl. by split.
  - destruct (truthy (CONF_NOTIFY_SERVICE entry)); simpl;
      [|split; [done | by intros [_ ?]]].
    rewrite !Hok. simpl. by split.
Qed.

(** In the evening household with its audio stored and a player that
    answers, a Test runs to its end. *)
Lemma X23_test_completes :
  (_play_azan_exit (Scenario.env_at 17 50 true)
     (Scenario.ready 17 0 Scenario.entry Scenario.evening) Scenario.entry "Test").2
  = completed.
Proof.
  eapply (X23_playback_completes_iff_nothing_in_the_way (Scenario.env_at 17 50 true)
            (Scenario.ready 17 0 Scenario.entry Scenario.evening) Scenario.entry _ "Test").
  - reflexivity.
  - reflexivity.
  - split; [vm_compute; discriminate | vm_compute; reflexivity].
Defined.

(** * The audio file on disk *)

Lemma first_file_split disk (before after : list string) c :
  Forall (λ p, disk !! p = None) before →
  is_Some (disk !! c) →
  first_file disk (before ++ c :: after) = Some c.
Proof.
  induction 1 as [|p before Hp _ IH]; intros Hc; simpl.
  - by rewrite bool_decide_eq_true_2.
  - rewrite bool_decide_eq_false_2; [by apply IH|]. rewrite Hp. by intros [? ?].
Qed.

Lemma first_file_Some disk cs c : first_file disk cs = Some c → is_Some (disk !! c).
Proof.
  induction cs as [|p cs IH]; simpl; [done|].
  case_bool_decide as Hp; [by intros [= <-] | done].
Qed.

Lemma download_audio_local os disk url name c text :
  cached os disk url name = false →
  first_file disk (candidates os url) = Some c →
  disk !! c = Some text →
  c ≠ out_path os name →
  copy_fails os c (out_path os name) = false →
  _download_audio os disk url name
  = (Some (out_path os name),
     <[marker_path os name := c]> (<[out_path os name := text]> disk)).
Proof.
  intros Hmiss Hfirst Hc Hne Hcopy. unfold _download_audio, copyfile.
  by rewrite Hmiss, Hfirst, bool_decide_eq_false_2, Hcopy, Hc.
Qed.

(** X24.  A local file wins over the download.  When the cache check does
    not hit and some of the five places tried for [url] holds a file, the
    first of them in the order of the list, if it is not the target itself
    and the copy goes through, is copied to the target and its path, not
    [url], is written to the marker; the call returns the target, every
    other file is left as it was, and yt-dlp is not run, so the outcome is
    the same whatever the download would have done. *)
Theorem X24_local_file_is_copied_not_downloaded os disk url name
    (before after : list string) c text :
  cached os disk url name = false →
  candidates os url = (before ++ c :: after)%list →
  Forall (λ p, disk !! p = None) before →
  disk !! c = Some text →
  c ≠ out_path os name →
  copy_fails os c (out_path os name) = false →
  marker_path os name ≠ out_path os name →
  let r := _download_audio os disk url name in
  r.1 = Some (out_path os name)
  ∧ r.2 !! out_path os name = Some text
  ∧ r.2 !! marker_path os name = Some c
  ∧ (∀ p, p ≠ out_path os name → p ≠ marker_path os name → r.2 !! p = disk !! p)
  ∧ ∀ fallback,
      _download_audio
        {| config_path := config_path os; path_of := path_of os; child := child os;
           strip := strip os; copy_fails := copy_fails os; yt_dlp_fallback := fallback |}
        disk url name = r.
Proof.
  intros Hmiss Hsplit Hbefore Hc Hne Hcopy Hmarker r.
  assert (first_file disk (candidates os url) = Some c) as Hfirst
    by (rewrite Hsplit; by apply first_file_split).
  unfold r. rewrite (download_audio_local _ _ _ _ _ _ Hmiss Hfirst Hc Hne Hcopy). simpl.
  split; [done|].
  split; [rewrite lookup_insert_ne by done; apply lookup_insert_eq|].
  split; [apply lookup_insert_eq|].
  split; [intros p Hp1 Hp2; by rewrite !lookup_insert_ne|].
  intros fallback.
  exact (download_audio_local
           {| config_path := config_path os; path_of := path_of os; child := child os;
              strip := strip os; copy_fails := copy_fails os;
              yt_dlp_fallback := fallback |}
           disk url name c text Hmiss Hfirst Hc Hne Hcopy).
Qed.

(** The azan is the file [/config/media/azan.mp3], named by "azan.mp3". *)
Lemma X24_azan_from_media :
  let disk : gmap string string := {[ "/config/media/azan.mp3" := "allahu akbar" ]} in
  let r := _download_audio Posix.os disk "azan.mp3" "azan" in
  r.1 = Some "/config/www/azan/azan.mp3"
  ∧ r.2 !! "/config/www/azan/azan.mp3" = Some "allahu akbar"
  ∧ r.2 !! "/config/www/azan/.azan.url" = Some "/config/media/azan.mp3".
Proof.
  intros disk r.
  destruct (X24_local_file_is_copied_not_downloaded Posix.os disk "azan.mp3" "azan"
              ["azan.mp3"; "/config/azan.mp3"]
              ["/config/www/azan.mp3"; "/config/www/azan/azan.mp3"]
              "/config/media/azan.mp3" "allahu akbar")
    as (Hret & Hout & Hmark & _).
  - reflexivity.
  - reflexivity.
  - repeat constructor.
  - reflexivity.
  - vm_compute. discriminate.
  - reflexivity.
  - vm_compute. discriminate.
  - split; [exact Hret|]. split; [exact Hout | exact Hmark].
Defined.

(** X25.  When the cache check does not hit and the first of the places
    tried that holds a file is the target path itself, the copy is refused
    as a copy of a file onto itself: the call raises, nothing is written,
    and the download is not tried.  So a file that was put at the target
    path by hand, with no marker beside it, is never accepted. *)
Theorem X25_file_already_at_target_is_refused os disk url name
    (before after : list string) :
  cached os disk url name = false →
  candidates os url = (before ++ out_path os name :: after)%list →
  Forall (λ p, disk !! p = None) before →
  is_Some (disk !! out_path os name) →
  _download_audio os disk url name = (None, disk).
Proof.
  intros Hmiss Hsplit Hbefore Hout. unfold _download_audio, copyfile.
  rewrite Hmiss, Hsplit, (first_file_split _ _ _ _ Hbefore Hout).
  by rewrite bool_decide_eq_true_2.
Qed.

(** The azan was put at [/config/www/azan/azan.mp3] by hand and is named by
    "azan.mp3". *)
Lemma X25_azan_put_by_hand :
  let disk : gmap string string := {[ "/config/www/azan/azan.mp3" := "allahu akbar" ]} in
  _download_audio Posix.os disk "azan.mp3" "azan" = (None, disk).
Proof.
  intros disk.
  apply (X25_file_already_at_target_is_refused Posix.os disk "azan.mp3" "azan"
           ["azan.mp3"; "/config/azan.mp3"; "/config/media/azan.mp3"; "/config/www/azan.mp3"]
           []).
  - reflexivity.
  - reflexivity.
  - repeat constructor.
  - vm_compute. eauto.
Defined.

(** X26.  The marker holds the path of the file that was copied, and the
    cache check compares it with [url].  So after a local file has been
    copied, the next call for the same [url] is answered from the cache,
    with the disk untouched, exactly when the stripped path of that file is
    [url] itself; a file found under another name than the one given is
    never answered from the cache. *)
Theorem X26_cache_hits_only_if_marker_is_the_url os disk url name
    (before after : list string) c text :
  cached os disk url name = false →
  candidates os url = (before ++ c :: after)%list →
  Forall (λ p, disk !! p = None) before →
  disk !! c = Some text →
  c ≠ out_path os name →
  copy_fails os c (out_path os name) = false →
  marker_path os name ≠ out_path os name →
  let disk' := (_download_audio os disk url name).2 in
  (cached os disk' url name = true ↔ strip os c = url)
  ∧ (strip os c = url →
     _download_audio os disk' url name = (Some (out_path os name), disk')).
Proof.
  intros Hmiss Hsplit Hbefore Hc Hne Hcopy Hmarker disk'.
  assert (first_file disk (candidates os url) = Some c) as Hfirst
    by (rewrite Hsplit; by apply first_file_split).
  unfold disk'. rewrite (download_audio_local _ _ _ _ _ _ Hmiss Hfirst Hc Hne Hcopy). simpl.
  assert (cached os (<[marker_path os name := c]> (<[out_path os name := text]> disk))
            url name = bool_decide (strip os c = url)) as Hcached.
  { unfold cached. rewrite lookup_insert_ne by done.
    by rewrite !lookup_insert_eq. }
  split.
  - rewrite Hcached. apply bool_decide_eq_true.
  - intros Hsame. unfold _download_audio. rewrite Hcached.
    by rewrite bool_decide_eq_true_2.
Qed.

(** Named by "/config/media/azan.mp3", the path it is found under, the azan
    is copied once: the second call is answered from the cache. *)
Lemma X26_named_by_its_path :
  let disk : gmap string string := {[ "/config/media/azan.mp3" := "allahu akbar" ]} in
  let disk' := (_download_audio Posix.os disk "/config/media/azan.mp3" "azan").2 in
  _download_audio Posix.os disk' "/config/media/azan.mp3" "azan"
  = (Some "/config/www/azan/azan.mp3", disk').
Proof.
  intros disk disk'.
  destruct (X26_cache_hits_only_if_marker_is_the_url Posix.os disk
              "/config/media/azan.mp3" "azan" []
              ["/config//config/media/azan.mp3"; "/config/media//config/media/azan.mp3";
               "/config/www//config/media/azan.mp3";
               "/config/www/azan//config/media/azan.mp3"]
              "/config/media/azan.mp3" "allahu akbar") as (_ & Hhit).
  - reflexivity.
  - reflexivity.
  - constructor.
  - reflexivity.
  - vm_compute. discriminate.
  - reflexivity.
  - vm_compute. discriminate.
  - apply Hhit. reflexivity.
Defined.
